(** * Project Scaffolder: layout parsers and safe materialization

    A shallow embedding of [mcp_scaffolder_server.py] and the properties of
    its parsers and of [scaffold_project].

    - A Python [str] is a list of Unicode code points.
    - Decoded JSON or YAML data is a tree of values; mappings keep their
      insertion order.
    - The filesystem is a tree of directories and regular files.  It has
      no symbolic links, so [Path.resolve] is the lexical walk of
      [os.path.realpath], and no permissions or quotas, so a filesystem
      call fails only for a structural reason.  File names hold no NUL
      and are within the length limits of the filesystem, contents can be
      encoded, and the keys of a decoded mapping are strings, so the only
      exceptions are [SpecError] and [OSError].
    - A call takes the filesystem and returns what it returns or raises
      together with the filesystem it leaves.
    - What the module calls but does not define ([json.loads],
      [yaml.safe_load], [str] of a container, the class [\w]) is a
      parameter, the record [Runtime].
    - The tool's [mode] argument is one of the four literals of its
      signature. *)

From Stdlib Require Import Ascii String DecimalString.
From Stdlib Require Import List NArith ZArith Arith Bool Lia Permutation.
Import ListNotations.

Set Implicit Arguments.
Set Warnings "-register-all".
Local Open Scope list_scope.

(** ** Python strings *)

Module PyStr.

(** A [str] is a list of code points; [len] is [length]. *)
Definition pystr := list N.

Definition u (s : string) : pystr :=
  map (fun a => N_of_ascii a) (list_ascii_of_string s).

Fixpoint str_eqb (a b : pystr) : bool :=
  match a, b with
  | [], [] => true
  | x :: a', y :: b' => (x =? y)%N && str_eqb a' b'
  | _, _ => false
  end.

Definition SLASH : N := 47.
Definition SPACE : N := 32.
Definition TAB : N := 9.
Definition LF : N := 10.
Definition CR : N := 13.
Definition DASH : N := 45.

Definition mem (c : N) (chars : pystr) : bool := existsb (N.eqb c) chars.

(** [str.isspace] for one code point: the table of CPython's
    [_PyUnicode_IsWhitespace]. *)
Definition isspace (c : N) : bool :=
  ((9 <=? c) && (c <=? 13) || (28 <=? c) && (c <=? 32)
   || (c =? 0x85) || (c =? 0xA0) || (c =? 0x1680)
   || (0x2000 <=? c) && (c <=? 0x200A)
   || (c =? 0x2028) || (c =? 0x2029) || (c =? 0x202F)
   || (c =? 0x205F) || (c =? 0x3000))%N.

(** The line boundaries of [str.splitlines]. *)
Definition is_linebreak (c : N) : bool :=
  ((10 <=? c) && (c <=? 13) || (28 <=? c) && (c <=? 30)
   || (c =? 0x85) || (c =? 0x2028) || (c =? 0x2029))%N.

Fixpoint dropwhile (f : N -> bool) (s : pystr) : pystr :=
  match s with
  | [] => []
  | c :: r => if f c then dropwhile f r else s
  end.

Fixpoint takewhile (f : N -> bool) (s : pystr) : pystr :=
  match s with
  | [] => []
  | c :: r => if f c then c :: takewhile f r else []
  end.

Definition lstrip_by (f : N -> bool) (s : pystr) : pystr := dropwhile f s.
Definition rstrip_by (f : N -> bool) (s : pystr) : pystr :=
  rev (dropwhile f (rev s)).

(** [s.strip()], [s.lstrip()], [s.rstrip()] *)
Definition lstrip (s : pystr) : pystr := lstrip_by isspace s.
Definition rstrip (s : pystr) : pystr := rstrip_by isspace s.
Definition strip (s : pystr) : pystr := rstrip (lstrip s).

(** [s.lstrip(chars)], [s.rstrip(chars)] *)
Definition lstrip_chars (chars s : pystr) : pystr :=
  lstrip_by (fun c => mem c chars) s.
Definition rstrip_chars (chars s : pystr) : pystr :=
  rstrip_by (fun c => mem c chars) s.

Fixpoint startswith (s pre : pystr) : bool :=
  match pre, s with
  | [], _ => true
  | p :: pre', c :: s' => (c =? p)%N && startswith s' pre'
  | _ :: _, [] => false
  end.

Definition endswith (s suf : pystr) : bool := startswith (rev s) (rev suf).

(** [sub in s] *)
Fixpoint contains (s sub : pystr) : bool :=
  startswith s sub ||
  match s with
  | [] => false
  | _ :: r => contains r sub
  end.

(** [s.replace(ch, " ")] for a one-character [ch] *)
Definition replace_char (ch : N) (by_ : N) (s : pystr) : pystr :=
  map (fun c => if (c =? ch)%N then by_ else c) s.

(** [s.splitlines()]: [acc] holds the current line reversed. *)
Fixpoint splitlines_from (acc s : pystr) : list pystr :=
  match s with
  | [] => match acc with [] => [] | _ => [rev acc] end
  | c :: r =>
      if (c =? CR)%N then
        match r with
        | c' :: r' =>
            if (c' =? LF)%N then rev acc :: splitlines_from [] r'
            else rev acc :: splitlines_from [] r
        | [] => rev acc :: splitlines_from [] r
        end
      else if is_linebreak c then rev acc :: splitlines_from [] r
      else splitlines_from (c :: acc) r
  end.

Definition splitlines (s : pystr) : list pystr := splitlines_from [] s.

(** [sep.join(parts)] *)
Fixpoint join (sep : pystr) (parts : list pystr) : pystr :=
  match parts with
  | [] => []
  | [p] => p
  | p :: rest => p ++ sep ++ join sep rest
  end.

(** [s.split("/")] *)
Fixpoint split_from (sep : N) (acc s : pystr) : list pystr :=
  match s with
  | [] => [rev acc]
  | c :: r =>
      if (c =? sep)%N then rev acc :: split_from sep [] r
      else split_from sep (c :: acc) r
  end.

Definition split (sep : N) (s : pystr) : list pystr := split_from sep [] s.

(** ASCII case folding.  The source calls [str.lower] only before a
    membership test in [{"dir", "folder", "directory"}]; no code point
    outside [A-Z] lowers to a string of the letters of these words, so the
    test has the same outcome. *)
Definition lower (s : pystr) : pystr :=
  map (fun c => if ((65 <=? c) && (c <=? 90))%N then (c + 32)%N else c) s.

End PyStr.
Import PyStr.

(** ** Tree-diagram parser *)

Definition BOX_V : N := 0x2502.   (* vertical bar *)
Definition BOX_T : N := 0x251C.   (* tee *)
Definition BOX_L : N := 0x2514.   (* corner *)
Definition BOX_H : N := 0x2500.   (* horizontal bar *)

Definition BOX_CHARS : pystr := [BOX_V; BOX_T; BOX_L; BOX_H].

(** The two alternatives of the pattern [(tee bar space | corner bar space)]. *)
Definition connector_at (s : pystr) : bool :=
  startswith s [BOX_T; BOX_H; SPACE] || startswith s [BOX_L; BOX_H; SPACE].

(** [re.search(connector, s)]: the start of the leftmost match. *)
Fixpoint search_connector (s : pystr) : option nat :=
  if connector_at s then Some 0
  else match s with
       | [] => None
       | _ :: r => option_map S (search_connector r)
       end.

(** [re.sub(r"^.*?(connector)", "", raw)]: the lazy prefix stops at the
    leftmost connector; [.] does not match a line feed, so a line feed
    before it makes the anchored pattern fail and [raw] is returned. *)
Definition sub_connector (raw : pystr) : pystr :=
  match search_connector raw with
  | Some i => if mem LF (firstn i raw) then raw else skipn (i + 3) raw
  | None => raw
  end.

Definition _leading_units (line : pystr) : nat :=
  let tmp := fold_left (fun t ch => replace_char ch SPACE t) BOX_CHARS line in
  let prefix :=
    match search_connector line with
    | Some i => firstn i tmp
    | None => takewhile isspace tmp
    end in
  Nat.max 0 (length prefix / 2).

Definition item := (nat * pystr * bool)%type.

Definition strip_dir_mark (name : pystr) : pystr * bool :=
  let is_dir := endswith name [SLASH] in
  (if is_dir then removelast name else name, is_dir).

Definition parse_line (raw : pystr) : item :=
  let name := strip (sub_connector raw) in
  let name :=
    if str_eqb name raw
    then lstrip_chars [DASH; SPACE]
           (lstrip_chars ([SPACE; TAB] ++ BOX_CHARS) raw)
    else name in
  let '(name, is_dir) := strip_dir_mark name in
  (_leading_units raw, name, is_dir).

Definition nonblank (ln : pystr) : bool :=
  match strip ln with [] => false | _ => true end.

Definition parse_ascii_tree (tree_text : pystr) : list item :=
  let lines := map rstrip (filter nonblank (splitlines (strip tree_text))) in
  match lines with
  | [] => []
  | first :: _ =>
      let start_idx := if endswith (strip first) [SLASH] then 1 else 0 in
      map parse_line (skipn start_idx lines)
  end.

(** One round of the loop of [collapse_tree]: the new stack and the path. *)
Definition collapse_step (stack : list pystr) (it : item)
  : list pystr * (pystr * bool) :=
  let '(depth, name, is_dir) := it in
  (* while len(stack) > depth: stack.pop() *)
  let stack := firstn depth stack in
  let stack :=
    if is_dir then
      if length stack =? depth then stack ++ [name]
      else match stack with
           | [] => stack ++ [name]
           | _ => removelast stack ++ [name]
           end
    else stack in
  let base := join [SLASH] stack in
  let rel := match base with
             | [] => name
             | _ => (base ++ [SLASH]) ++ name
             end in
  (stack, (rel, is_dir)).

Fixpoint collapse_from (stack : list pystr) (items : list item)
  : list (pystr * bool) :=
  match items with
  | [] => []
  | it :: rest =>
      let '(stack', p) := collapse_step stack it in
      p :: collapse_from stack' rest
  end.

Definition collapse_tree (items : list item) : list (pystr * bool) :=
  collapse_from [] items.

Definition NL : pystr := [LF].

Definition example1_prompt : pystr :=
  u "app/" ++ NL ++
  [BOX_T; BOX_H] ++ u " README.md" ++ NL ++
  [BOX_L; BOX_H] ++ u " src/" ++ NL ++
  u "   " ++ [BOX_L; BOX_H] ++ u " main.py".

(** ** Exceptions *)

(** The only exception class the module raises itself is [SpecError]; it
    carries its message. *)
Inductive exn := SpecError (msg : pystr).

Inductive res (A : Type) :=
| Ok (a : A)
| Raise (e : exn).
Arguments Ok {A} a.
Arguments Raise {A} e.

Definition bind {A B} (r : res A) (k : A -> res B) : res B :=
  match r with
  | Ok a => k a
  | Raise e => Raise e
  end.

Notation "'do' x <- r ; k" := (bind r (fun x => k))
  (at level 10, x name, r at level 100, k at level 200).

(** ** Decoded structured data *)

(** What [json.loads] and [yaml.safe_load] return.  A mapping keeps its
    insertion order and its keys are strings, as in every JSON document;
    a YAML key of another type is kept as the text [str(k)], which is what
    [walk] makes of it below the top level, whereas at the top level the
    source hands it to [add] as it is and raises.  A float is kept as its
    [repr]. *)
Inductive value :=
| VNone
| VBool (b : bool)
| VInt (z : Z)
| VFloat (repr : pystr)
| VStr (s : pystr)
| VList (items : list value)
| VDict (items : list (pystr * value)).

Inductive decoded :=
| DecodeError (msg : pystr)
| Decoded (v : value).

(** The parts of the Python runtime and of the decoding libraries that the
    module calls and that are not part of it. *)
Record Runtime := {
  json_loads : pystr -> decoded;
  (** [None] when PyYAML is not installed *)
  yaml_safe_load : option (pystr -> decoded);
  (** [str(v)] for a list or a mapping *)
  str_container : value -> pystr;
  (** the class [\w] of [re] *)
  is_word : N -> bool
}.

Definition dict := list (pystr * value).

(** [key in d] *)
Definition has_key (key : pystr) (d : dict) : bool :=
  existsb (fun kv => str_eqb (fst kv) key) d.

(** [d.get(key)], with [None] of Python as [None] of [option] only when the
    key is absent *)
Fixpoint dict_get (key : pystr) (d : dict) : option value :=
  match d with
  | [] => None
  | (k, v) :: r => if str_eqb k key then Some v else dict_get key r
  end.

Section Parser.

Variable rt : Runtime.

(** [str(v)] *)
Definition py_str (v : value) : pystr :=
  match v with
  | VStr s => s
  | VNone => u "None"
  | VBool true => u "True"
  | VBool false => u "False"
  | VInt z => u (NilZero.string_of_int (Z.to_int z))
  | VFloat r => r
  | VList _ | VDict _ => str_container rt v
  end.

(** A parsed entry: path, is-directory, optional content. *)
Definition entry := (pystr * bool * option pystr)%type.

Definition add (path : pystr) (is_dir : bool) (content : option pystr)
  : entry :=
  (rstrip_chars [SLASH] path, is_dir, content).

(** [f"{prefix}/{k}" if prefix else k] *)
Definition child (prefix k : pystr) : pystr :=
  match prefix with
  | [] => k
  | _ => prefix ++ [SLASH] ++ k
  end.

(** One round of the loop of [walk], for the item [(k, v)]. *)
Fixpoint walk_item (prefix k : pystr) (v : value) {struct v} : list entry :=
  let p := child prefix k in
  match v with
  | VDict m =>
      add p true None ::
      (fix walk_items (m : dict) : list entry :=
         match m with
         | [] => []
         | (k', v') :: r => walk_item p k' v' ++ walk_items r
         end) m
  | VNone => [add p false None]
  | _ => [add p false (Some (py_str v))]
  end.

Definition walk (prefix : pystr) (mapping : dict) : list entry :=
  flat_map (fun kv => walk_item prefix (fst kv) (snd kv)) mapping.

Definition DIR_WORDS : list pystr := [u "dir"; u "folder"; u "directory"].

Definition is_dir_type (typ : pystr) : bool :=
  existsb (str_eqb typ) DIR_WORDS.

Definition E_FLAT : exn :=
  SpecError (u "YAML/JSON flat shape requires 'entries' list.").
Definition E_PATH : exn :=
  SpecError (u "Each entry must include 'path'.").
Definition E_NESTED : exn :=
  SpecError (u "YAML/JSON nested shape must be object or under 'tree'.").

(** One round of the loop over [entries]. *)
Definition parse_entry (it : value) : res entry :=
  match it with
  | VDict d =>
      match dict_get (u "path") d with
      | None => Raise E_PATH
      | Some pv =>
          let path := py_str pv in
          let typ :=
            lower (py_str (match dict_get (u "type") d with
                           | Some t => t
                           | None => VStr (u "file")
                           end)) in
          let is_dir := is_dir_type typ || endswith path [SLASH] in
          let content :=
            match dict_get (u "content") d with
            | None | Some VNone => None
            | Some c => Some (py_str c)
            end in
          Ok (add path is_dir content)
      end
  | _ => Raise E_PATH
  end.

Fixpoint parse_entries (entries : list value) : res (list entry) :=
  match entries with
  | [] => Ok []
  | it :: rest =>
      do e <- parse_entry it;
      do es <- parse_entries rest;
      Ok (e :: es)
  end.

Definition parse_yaml_or_json (data : value) : res (list entry) :=
  match data with
  | VDict d =>
      if has_key (u "entries") d || has_key (u "root") d then
        match dict_get (u "entries") d with
        | Some (VList entries) => parse_entries entries
        | _ => Raise E_FLAT
        end
      else
        let mapping :=
          if has_key (u "tree") d
          then match dict_get (u "tree") d with Some t => t | None => VNone end
          else data in
        match mapping with
        | VDict m => Ok (walk [] m)
        | _ => Raise E_NESTED
        end
  | _ => Raise E_NESTED
  end.

End Parser.

(** ** Filesystem *)

(** A tree of directories and regular files.  There are no symbolic links
    and no permissions: the failures of a call are the structural ones
    (a file where a directory is needed, a directory where a file is). *)
Inductive node :=
| File (content : pystr)
| Dir (children : list (pystr * node)).

(** A location from the filesystem root, one name per level. *)
Definition location := list pystr.

Inductive oserror :=
| FileExistsError
| FileNotFoundError
| NotADirectoryError
| IsADirectoryError.

Fixpoint child_get (name : pystr) (ch : list (pystr * node)) : option node :=
  match ch with
  | [] => None
  | (k, n) :: r => if str_eqb k name then Some n else child_get name r
  end.

Fixpoint child_set (name : pystr) (n : node) (ch : list (pystr * node))
  : list (pystr * node) :=
  match ch with
  | [] => [(name, n)]
  | (k, m) :: r =>
      if str_eqb k name then (k, n) :: r else (k, m) :: child_set name n r
  end.

(** [os.stat] of a location without [..]: the node, if every name on the
    way is found and all but the last are directories. *)
Fixpoint lookup (p : location) (n : node) : option node :=
  match p with
  | [] => Some n
  | x :: r =>
      match n with
      | Dir ch =>
          match child_get x ch with
          | Some c => lookup r c
          | None => None
          end
      | File _ => None
      end
  end.

(** [Path.exists()] of a resolved path *)
Definition exists_ (p : location) (fs : node) : bool :=
  match lookup p fs with Some _ => true | None => false end.

(** [Path.mkdir(parents=True, exist_ok=True)]: directories met on the way
    are kept, missing ones are created, a regular file on the way fails. *)
Fixpoint mkdir_p (p : location) (n : node) {struct p} : oserror + node :=
  match n with
  | File _ =>
      inl (match p with [] => FileExistsError | _ => NotADirectoryError end)
  | Dir ch =>
      match p with
      | [] => inr n
      | x :: r =>
          let c := match child_get x ch with
                   | Some c => c
                   | None => Dir []
                   end in
          match mkdir_p r c with
          | inr c' => inr (Dir (child_set x c' ch))
          | inl e => inl e
          end
      end
  end.

(** [open(p, "w")], [write(content)] and close: the file is created or
    truncated and then holds [content]. *)
Fixpoint write_file (p : location) (content : pystr) (n : node) {struct p}
  : oserror + node :=
  match p, n with
  | [], Dir _ => inl IsADirectoryError
  | [], File _ => inr (File content)
  | _ :: _, File _ => inl NotADirectoryError
  | x :: r, Dir ch =>
      match child_get x ch with
      | Some c =>
          match write_file r content c with
          | inr c' => inr (Dir (child_set x c' ch))
          | inl e => inl e
          end
      | None =>
          match r with
          | [] => inr (Dir (child_set x (File content) ch))
          | _ => inl FileNotFoundError
          end
      end
  end.

(** ** Paths *)

(** A [pathlib] path: the number of leading slashes kept by the parser
    (0 for a relative path, 2 for exactly two, else 1) and its parts. *)
Record ppath := { anchor : nat; parts : list pystr }.

Definition DOT : pystr := u ".".
Definition DOTDOT : pystr := u "..".

(** The parts of a path text: [""] and ["."] pieces are dropped, [".."]
    is kept. *)
Definition path_parts (s : pystr) : list pystr :=
  filter (fun c => negb (str_eqb c [] || str_eqb c DOT)) (split SLASH s).

Definition path_anchor (s : pystr) : nat :=
  match length (takewhile (N.eqb SLASH) s) with
  | 0 => 0
  | 2 => 2
  | _ => 1
  end.

(** [pathlib.Path(s)] *)
Definition Path (s : pystr) : ppath :=
  {| anchor := path_anchor s; parts := path_parts s |}.

(** [str(p)] *)
Definition path_str (p : ppath) : pystr :=
  match anchor p, parts p with
  | 0, [] => DOT
  | a, ps => repeat SLASH a ++ join [SLASH] ps
  end.

(** [p / s] *)
Definition path_join (p : ppath) (s : pystr) : ppath :=
  match path_anchor s with
  | 0 => {| anchor := anchor p; parts := parts p ++ path_parts s |}
  | _ => Path s
  end.

(** The walk of [os.path.realpath] without symbolic links: [..] removes
    the last name (and stays at the root). *)
Definition walk_parts (start : location) (ps : list pystr) : location :=
  fold_left (fun cur c => if str_eqb c DOTDOT then removelast cur
                          else cur ++ [c]) ps start.

(** [p.resolve()] in a process whose working directory is [cwd] *)
Definition resolve (cwd : location) (p : ppath) : ppath :=
  {| anchor := 1;
     parts := walk_parts (match anchor p with 0 => cwd | _ => [] end)
                         (parts p) |}.

(** [p.parent] of a resolved path *)
Definition parent (p : ppath) : ppath :=
  {| anchor := anchor p; parts := removelast (parts p) |}.

(** [os.stat] of a path that may hold [..]: every name is looked up in
    the directory reached so far, which has to exist. *)
Fixpoint stat_walk (fs : node) (cur : location) (ps : list pystr)
  : option node :=
  match ps with
  | [] => lookup cur fs
  | c :: r =>
      match lookup cur fs with
      | Some (Dir _) =>
          stat_walk fs (if str_eqb c DOTDOT then removelast cur
                        else cur ++ [c]) r
      | _ => None
      end
  end.

Section Confinement.

(** The working directory of the process. *)
Variable cwd : location.

Definition escape_message (p base_res : ppath) : pystr :=
  u "Target escapes base directory: " ++ path_str p
  ++ u " not under " ++ path_str base_res.

Definition safe_join (base : ppath) (target : pystr) : res ppath :=
  let base_res := resolve cwd base in
  let p := resolve cwd (path_join base_res target) in
  if negb (startswith (path_str p) (path_str base_res))
  then Raise (SpecError (escape_message p base_res))
  else Ok p.

(** [Path.exists()] of a path as given *)
Definition path_exists (fs : node) (p : ppath) : bool :=
  match stat_walk fs (match anchor p with 0 => cwd | _ => [] end) (parts p)
  with
  | Some _ => true
  | None => false
  end.

End Confinement.

(** ** The tool *)

Inductive mode := Auto | Tree | Yaml | Json.

Definition mode_str (m : mode) : pystr :=
  match m with
  | Auto => u "auto"
  | Tree => u "tree"
  | Yaml => u "yaml"
  | Json => u "json"
  end.

Record Request := {
  prompt : pystr;
  target_path : pystr;
  req_mode : mode;
  overwrite : bool;
  dry_run : bool
}.

(** The process environment: the variable [MCP_SCAFFOLDER_BASE] and the
    text [os.getcwd()] returns. *)
Record Env := {
  MCP_SCAFFOLDER_BASE : option pystr;
  getcwd : pystr
}.

Definition cwd (env : Env) : location :=
  walk_parts [] (path_parts (getcwd env)).

(** The returned payload.  A plan record is [(path, type)]; an element of
    [errors] is the pair of the path and the caught exception, which stands
    for the line [f"{abs_path}: {e}"]. *)
Record Result := {
  selected_mode : pystr;
  base : pystr;
  target : pystr;
  plan : option (list (pystr * pystr));
  created : list pystr;
  skipped : list pystr;
  errors : list (pystr * oserror);
  res_dry_run : bool
}.

Definition DEFAULT_SNIPPETS : list (pystr * pystr) :=
  [ (u "README.md",
     u "# Project" ++ NL ++ NL ++ u "Describe your project here." ++ NL);
    (u ".env.example",
     u "# Copy to .env and fill values" ++ NL ++ u "API_KEY=" ++ NL);
    (u "requirements.txt", u "# Add Python dependencies here" ++ NL) ].

(** [d.get(key)] on a table of texts *)
Fixpoint table_get {A} (key : pystr) (d : list (pystr * A)) : option A :=
  match d with
  | [] => None
  | (k, v) :: r => if str_eqb k key then Some v else table_get key r
  end.

(** [os.path.basename] *)
Definition basename (s : pystr) : pystr := last (split SLASH s) [].

(** The [contents] dictionary, newest assignment first: [contents[p] = c]
    is a cons and [contents.get] finds the newest. *)
Definition Contents := list (pystr * option pystr).

Definition contents_get (rel : pystr) (contents : Contents) : option pystr :=
  match table_get rel contents with
  | Some c => c
  | None => None
  end.

(** [DEFAULT_SNIPPETS.get(os.path.basename(rel), "")] *)
Definition default_snippet (rel : pystr) : pystr :=
  match table_get (basename rel) DEFAULT_SNIPPETS with
  | Some d => d
  | None => []
  end.

(** The text written for the file entry [rel]. *)
Definition content_for (contents : Contents) (rel : pystr) : pystr :=
  match contents_get rel contents with
  | Some c => c
  | None => default_snippet rel
  end.

(** What the loop of the live run carries. *)
Record State := {
  st_fs : node;
  st_created : list pystr;
  st_skipped : list pystr;
  st_errors : list (pystr * oserror)
}.

Definition record_created (s : State) (fs : node) (p : pystr) : State :=
  {| st_fs := fs; st_created := st_created s ++ [p];
     st_skipped := st_skipped s; st_errors := st_errors s |}.

Definition record_skipped (s : State) (p : pystr) : State :=
  {| st_fs := st_fs s; st_created := st_created s;
     st_skipped := st_skipped s ++ [p]; st_errors := st_errors s |}.

Definition record_error (s : State) (fs : node) (p : pystr) (e : oserror)
  : State :=
  {| st_fs := fs; st_created := st_created s;
     st_skipped := st_skipped s; st_errors := st_errors s ++ [(p, e)] |}.

Definition initial (fs : node) : State :=
  {| st_fs := fs; st_created := []; st_skipped := []; st_errors := [] |}.

(** What the call has established when it reaches the filesystem part:
    the chosen mode, [base_path], [base_target], [paths], [contents]. *)
Record Job := {
  job_selected : mode;
  job_base : ppath;
  job_target : ppath;
  job_paths : list (pystr * bool);
  job_contents : Contents
}.

Definition entry_paths (es : list entry) : list (pystr * bool) :=
  map (fun e : entry => (fst (fst e), snd (fst e))) es.

Definition entry_contents (es : list entry) : Contents :=
  fold_left (fun (c : Contents) (e : entry) =>
               if snd (fst e) then c else (fst (fst e), snd e) :: c) es [].

Definition E_NOYAML : exn :=
  SpecError (u "YAML requested but PyYAML is not installed.").
Definition E_UNSET : exn :=
  SpecError (u "Set MCP_SCAFFOLDER_BASE to an allowed write root.").

Definition exn_str (e : exn) : pystr := let 'SpecError m := e in m.

Definition type_str (isd : bool) : pystr := if isd then u "dir" else u "file".

Section Tool.

Variable rt : Runtime.
Variable env : Env.

(** [re.search(r"^\s*\w+\s*:\s*", text)]; the classes [\s] and [\w] are
    disjoint, so the greedy runs never give a character back. *)
Definition key_pattern (text : pystr) : bool :=
  let t := dropwhile isspace text in
  let w := takewhile (is_word rt) t in
  match w with
  | [] => false
  | _ =>
      match dropwhile isspace (skipn (length w) t) with
      | c :: _ => (c =? 58)%N
      | [] => false
      end
  end.

(** The mode chosen for ["auto"]. *)
Definition detect (prompt : pystr) : mode :=
  let text := strip prompt in
  let first := hd [] (splitlines text) in
  if startswith text (u "{") || startswith text (u "[") then Json
  else if key_pattern text || contains text (u "entries:")
          || contains text (u "tree:") then Yaml
  else if mem BOX_T text || mem BOX_L text || mem SLASH first
          || endswith first [SLASH] then Tree
  else Tree.

Definition select (m : mode) (prompt : pystr) : mode :=
  match m with
  | Auto => detect prompt
  | _ => m
  end.

(** The natural-language fallback of the tree mode. *)
Definition fallback_items (prompt : pystr) : list item :=
  map (fun ln => let '(name, isd) := strip_dir_mark ln in (0, name, isd))
      (map strip (filter nonblank (splitlines prompt))).

Definition tree_paths (prompt : pystr) : list (pystr * bool) :=
  let items := parse_ascii_tree prompt in
  let items := match items with
               | [] => fallback_items prompt
               | _ => items
               end in
  collapse_tree items.

(** [yaml.safe_load(prompt)] or [json.loads(prompt)] *)
Definition load (selected : mode) (prompt : pystr) : res value :=
  let run (f : pystr -> decoded) :=
    match f prompt with
    | Decoded v => Ok v
    | DecodeError m => Raise (SpecError m)
    end in
  match selected with
  | Yaml =>
      match yaml_safe_load rt with
      | None => Raise E_NOYAML
      | Some safe_load => run safe_load
      end
  | Json => run (json_loads rt)
  | _ => Raise (SpecError (u "Unsupported mode: " ++ mode_str selected))
  end.

(** The paths and contents of decoded data. *)
Definition structured_paths (data : value)
  : res (list (pystr * bool) * Contents) :=
  do es <- parse_yaml_or_json rt data;
  Ok (entry_paths es, entry_contents es).

(** The [try] block: the paths and the contents, any exception becoming
    the [SpecError] of a failed parse. *)
Definition parse_prompt (selected : mode) (prompt : pystr)
  : res (list (pystr * bool) * Contents) :=
  let parsed :=
    match selected with
    | Tree => Ok (tree_paths prompt, [])
    | _ => do data <- load selected prompt; structured_paths data
    end in
  match parsed with
  | Ok r => Ok r
  | Raise e =>
      Raise (SpecError (u "Failed to parse prompt as " ++ mode_str selected
                        ++ u ": " ++ exn_str e))
  end.

(** Everything before the filesystem part: the configuration checks, the
    parse and the resolution of the target. *)
Definition prepare (fs : node) (rq : Request) : res Job :=
  match MCP_SCAFFOLDER_BASE env with
  | None | Some [] => Raise E_UNSET
  | Some base_text =>
      let base_path := Path base_text in
      if negb (path_exists (cwd env) fs base_path) then
        Raise (SpecError (u "MCP_SCAFFOLDER_BASE does not exist: "
                          ++ path_str base_path))
      else
        let selected := select (req_mode rq) (prompt rq) in
        do parsed <- parse_prompt selected (prompt rq);
        do base_target <- safe_join (cwd env) base_path
                            (lstrip_chars [SLASH] (strip (target_path rq)));
        Ok {| job_selected := selected; job_base := base_path;
              job_target := base_target; job_paths := fst parsed;
              job_contents := snd parsed |}
  end.

(** One round of the loop of the live run.  [safe_join] is outside the
    [try], the filesystem calls are inside. *)
Definition materialize_entry (ow : bool) (contents : Contents)
    (base_target : ppath) (s : State) (e : pystr * bool) : res State :=
  let '(rel, isd) := e in
  do abs_path <- safe_join (cwd env) base_target rel;
  let name := path_str abs_path in
  if isd then
    match mkdir_p (parts abs_path) (st_fs s) with
    | inr fs' => Ok (record_created s fs' name)
    | inl err => Ok (record_error s (st_fs s) name err)
    end
  else if exists_ (parts abs_path) (st_fs s) && negb ow then
    Ok (record_skipped s name)
  else
    match mkdir_p (parts (parent abs_path)) (st_fs s) with
    | inl err => Ok (record_error s (st_fs s) name err)
    | inr fs1 =>
        match write_file (parts abs_path) (content_for contents rel) fs1 with
        | inr fs2 => Ok (record_created s fs2 name)
        | inl err => Ok (record_error s fs1 name err)
        end
    end.

(** The loop: the exception that left it, if any, and the state reached. *)
Fixpoint materialize (ow : bool) (contents : Contents) (base_target : ppath)
    (paths : list (pystr * bool)) (s : State) : option exn * State :=
  match paths with
  | [] => (None, s)
  | e :: rest =>
      match materialize_entry ow contents base_target s e with
      | Ok s' => materialize ow contents base_target rest s'
      | Raise x => (Some x, s)
      end
  end.

Definition payload (job : Job) (dry : bool)
    (pl : option (list (pystr * pystr))) (s : State) : Result :=
  {| selected_mode := mode_str (job_selected job);
     base := path_str (job_base job);
     target := path_str (job_target job);
     plan := pl;
     created := st_created s;
     skipped := st_skipped s;
     errors := st_errors s;
     res_dry_run := dry |}.

Definition dry_plan (job : Job) : list (pystr * pystr) :=
  map (fun e : pystr * bool =>
         (path_str (path_join (job_target job) (fst e)), type_str (snd e)))
      (job_paths job).

(** [scaffold_project]: what the call returns or raises, and the
    filesystem it leaves. *)
Definition scaffold_project (fs : node) (rq : Request) : res Result * node :=
  match prepare fs rq with
  | Raise e => (Raise e, fs)
  | Ok job =>
      if dry_run rq then
        (Ok (payload job true (Some (dry_plan job)) (initial fs)), fs)
      else
        let '(raised, s) :=
          materialize (overwrite rq) (job_contents job) (job_target job)
                      (job_paths job) (initial fs) in
        match raised with
        | Some e => (Raise e, st_fs s)
        | None => (Ok (payload job false None s), st_fs s)
        end
  end.

End Tool.

(** ** Statement vocabulary *)

(** The absolute path [safe_join] computes for an entry before it tests
    it, and the test. *)
Definition abs_path (env : Env) (base_target : ppath) (rel : pystr) : ppath :=
  resolve (cwd env) (path_join (resolve (cwd env) base_target) rel).

Definition abs_text (env : Env) (base_target : ppath) (rel : pystr) : pystr :=
  path_str (abs_path env base_target rel).

(** The resolved confinement root of a configured base. *)
Definition root_text (env : Env) (base_text : pystr) : pystr :=
  path_str (resolve (cwd env) (Path base_text)).

(** Names that can stand at one level of a resolved path. *)
Definition name_ok (s : pystr) : Prop :=
  s <> [] /\ ~ In SLASH s /\ s <> DOT /\ s <> DOTDOT.

Definition clean (l : location) : Prop := Forall name_ok l.

(** A leaf of a nested mapping: the joined key path and the value, which
    is not a mapping. *)
Inductive has_leaf : pystr -> dict -> pystr -> value -> Prop :=
| leaf_here prefix m k v :
    In (k, v) m -> (forall m', v <> VDict m') ->
    has_leaf prefix m (child prefix k) v
| leaf_below prefix m k m' p v :
    In (k, VDict m') m -> has_leaf (child prefix k) m' p v ->
    has_leaf prefix m p v.

(** The text the tool writes for a leaf at the relative path [rel]. *)
Definition leaf_text (rt : Runtime) (rel : pystr) (v : value) : pystr :=
  match v with
  | VNone => default_snippet rel
  | _ => py_str rt v
  end.

(** The flat-entry document that lists parsed entries in their order, with
    the same types and contents. *)
Definition flat_record (e : entry) : value :=
  let '(path, is_dir, content) := e in
  VDict ([(u "path", VStr path); (u "type", VStr (type_str is_dir))]
         ++ match content with
            | Some c => [(u "content", VStr c)]
            | None => []
            end).

Definition flat_of (es : list entry) : value :=
  VDict [(u "entries", VList (map flat_record es))].

(** The data a structured request decodes to. *)
Definition request_data (rt : Runtime) (rq : Request) : res value :=
  load rt (select rt (req_mode rq) (prompt rq)) (prompt rq).

(** The mapping the parser walks when it takes decoded data for the
    nested shape: the data itself, or what is under its ["tree"] key. *)
Definition nested_mapping (data : value) : option dict :=
  match data with
  | VDict d =>
      if has_key (u "entries") d || has_key (u "root") d then None
      else if has_key (u "tree") d then
        match dict_get (u "tree") d with
        | Some (VDict m) => Some m
        | _ => None
        end
      else Some d
  | _ => None
  end.

(** The content the parser records for a leaf value. *)
Definition leaf_content (rt : Runtime) (v : value) : option pystr :=
  match v with
  | VNone => None
  | _ => Some (py_str rt v)
  end.

(** Every entry the parser returns has gone through [add]. *)
Definition added (e : entry) : Prop :=
  rstrip_chars [SLASH] (fst (fst e)) = fst (fst e).

(** ** Relations between states *)

Definition part_ok (s : pystr) : Prop :=
  s <> [] /\ ~ In SLASH s /\ s <> DOT.

(** Resolved paths: anchored at the root, with clean parts. *)
Definition resolved (p : ppath) : Prop := anchor p = 1 /\ clean (parts p).

(** What a successful call leaves of a node it found: a regular file
    with its content, a directory as a directory. *)
Definition preserved (x x' : node) : Prop :=
  match x with
  | File c => x' = File c
  | Dir _ => exists ch', x' = Dir ch'
  end.

Definition is_dir (x : node) : bool :=
  match x with Dir _ => true | File _ => false end.

(** One filesystem extends another when it preserves all its nodes. *)
Definition extends (fs fs' : node) : Prop :=
  forall p x, lookup p fs = Some x ->
    exists x', lookup p fs' = Some x' /\ preserved x x'.

(** The entry passes the test of [safe_join]. *)
Definition confined (env : Env) (bt : ppath) (rel : pystr) : bool :=
  startswith (abs_text env bt rel) (path_str (resolve (cwd env) bt)).

(** The rounds of the loop that do not raise, case by case. *)
Inductive outcome (env : Env) (ow : bool) (contents : Contents) (bt : ppath)
    (s : State) (rel : pystr) : bool -> State -> Prop :=
| made_dir fs' :
    mkdir_p (parts (abs_path env bt rel)) (st_fs s) = inr fs' ->
    outcome env ow contents bt s rel true
      (record_created s fs' (abs_text env bt rel))
| dir_failed e :
    mkdir_p (parts (abs_path env bt rel)) (st_fs s) = inl e ->
    outcome env ow contents bt s rel true
      (record_error s (st_fs s) (abs_text env bt rel) e)
| file_skipped x :
    ow = false -> lookup (parts (abs_path env bt rel)) (st_fs s) = Some x ->
    outcome env ow contents bt s rel false
      (record_skipped s (abs_text env bt rel))
| parent_failed e :
    ow = true \/ lookup (parts (abs_path env bt rel)) (st_fs s) = None ->
    mkdir_p (removelast (parts (abs_path env bt rel))) (st_fs s) = inl e ->
    outcome env ow contents bt s rel false
      (record_error s (st_fs s) (abs_text env bt rel) e)
| file_written fs1 fs2 :
    ow = true \/ lookup (parts (abs_path env bt rel)) (st_fs s) = None ->
    mkdir_p (removelast (parts (abs_path env bt rel))) (st_fs s) = inr fs1 ->
    write_file (parts (abs_path env bt rel)) (content_for contents rel) fs1
    = inr fs2 ->
    outcome env ow contents bt s rel false
      (record_created s fs2 (abs_text env bt rel))
| write_failed fs1 e :
    ow = true \/ lookup (parts (abs_path env bt rel)) (st_fs s) = None ->
    mkdir_p (removelast (parts (abs_path env bt rel))) (st_fs s) = inr fs1 ->
    write_file (parts (abs_path env bt rel)) (content_for contents rel) fs1
    = inl e ->
    outcome env ow contents bt s rel false
      (record_error s fs1 (abs_text env bt rel) e).

(** The paths on record, over the three lists. *)
Definition recorded (s : State) : list pystr :=
  st_created s ++ st_skipped s ++ map fst (st_errors s).

(** Every created path is the confined path of an entry, and the node
    there is a directory for a directory entry, a file for a file entry. *)
Definition created_present (env : Env) (bt : ppath)
    (all : list (pystr * bool)) (s : State) : Prop :=
  forall t, In t (st_created s) ->
    exists rel isd x,
      In (rel, isd) all /\ abs_text env bt rel = t /\
      lookup (parts (abs_path env bt rel)) (st_fs s) = Some x /\ is_dir x = isd.

(** The list a round puts an entry in. *)
Inductive fate := Created | Skipped | Failed.

(** The fate of an entry as a function of the filesystem it meets. *)
Definition classify (env : Env) (ow : bool) (bt : ppath) (fs : node)
    (e : pystr * bool) : fate :=
  let p := parts (abs_path env bt (fst e)) in
  if snd e then
    match mkdir_p p fs with
    | inr _ => Created
    | inl _ => Failed
    end
  else if exists_ p fs && negb ow then Skipped
  else
    match mkdir_p (removelast p) fs with
    | inl _ => Failed
    | inr fs1 =>
        match lookup p fs1 with
        | Some (Dir _) => Failed
        | _ => Created
        end
    end.

(** The record a round with fate [f] adds for the path [t]. *)
Definition records (f : fate) (t : pystr) (s s' : State) : Prop :=
  match f with
  | Created =>
      st_created s' = st_created s ++ [t] /\
      st_skipped s' = st_skipped s /\
      map fst (st_errors s') = map fst (st_errors s)
  | Skipped =>
      st_created s' = st_created s /\
      st_skipped s' = st_skipped s ++ [t] /\
      map fst (st_errors s') = map fst (st_errors s)
  | Failed =>
      st_created s' = st_created s /\
      st_skipped s' = st_skipped s /\
      map fst (st_errors s') = map fst (st_errors s) ++ [t]
  end.

(** No file entry lies on the way to another entry. *)
Definition leaf_files (env : Env) (bt : ppath) (all : list (pystr * bool))
  : Prop :=
  forall rel rel' isd' t,
    In (rel, false) all -> In (rel', isd') all ->
    parts (abs_path env bt rel') = parts (abs_path env bt rel) ++ t ->
    t = [].

(** The nodes of [fs0] are in [fs] with their kind. *)
Definition keeps_kinds (fs0 fs : node) : Prop :=
  forall q x, lookup q fs0 = Some x ->
    exists x', lookup q fs = Some x' /\ is_dir x' = is_dir x.

(** A node of [fs] that [fs0] does not have is on the way to an entry
    already processed: a file at the place of a file entry, a directory at
    the place of a directory entry or above an entry. *)
Definition new_from (env : Env) (bt : ppath) (done : list (pystr * bool))
    (fs0 fs : node) : Prop :=
  forall q x, lookup q fs = Some x -> lookup q fs0 = None ->
    exists rel isd t,
      In (rel, isd) done /\
      parts (abs_path env bt rel) = q ++ t /\
      (t = [] -> isd = is_dir x) /\
      (is_dir x = false -> t = []).

(** The filesystem of a run from [fs0] after the entries [done]. *)
Definition reached (env : Env) (bt : ppath) (fs0 : node)
    (done : list (pystr * bool)) (fs : node) : Prop :=
  keeps_kinds fs0 fs /\ new_from env bt done fs0 fs.

(** An entry of [all] that is not among [done]. *)
Definition pending (env : Env) (bt : ppath) (all done : list (pystr * bool))
    (rel : pystr) (isd : bool) : Prop :=
  In (rel, isd) all /\
  ~ In (abs_text env bt rel) (map (fun e => abs_text env bt (fst e)) done).

(** The paths of the entries with a given fate. *)
Definition fated (env : Env) (ow : bool) (bt : ppath) (fs : node) (f : fate)
    (paths : list (pystr * bool)) : list pystr :=
  map (fun e => abs_text env bt (fst e))
      (filter (fun e => match classify env ow bt fs e, f with
                        | Created, Created | Skipped, Skipped
                        | Failed, Failed => true
                        | _, _ => false
                        end) paths).

(** A nested mapping whose keys are names, different at each level. *)
Fixpoint plain_value (v : value) : Prop :=
  match v with
  | VDict m =>
      (fix plain_items (m : dict) : Prop :=
         match m with
         | [] => True
         | (k, v') :: r =>
             name_ok k /\ ~ In k (map fst r) /\ plain_value v'
             /\ plain_items r
         end) m
  | _ => True
  end.

Definition plain (m : dict) : Prop := plain_value (VDict m).

(** The key paths of a nested mapping below [pre], in the order of
    [walk], each with the flag of a mapping value. *)
Fixpoint key_paths_item (pre : list pystr) (k : pystr) (v : value)
    {struct v} : list (list pystr * bool) :=
  match v with
  | VDict m =>
      (pre ++ [k], true) ::
      (fix key_paths_items (m : dict) : list (list pystr * bool) :=
         match m with
         | [] => []
         | (k', v') :: r =>
             key_paths_item (pre ++ [k]) k' v' ++ key_paths_items r
         end) m
  | _ => [(pre ++ [k], false)]
  end.

Definition key_paths (pre : list pystr) (m : dict)
  : list (list pystr * bool) :=
  flat_map (fun kv => key_paths_item pre (fst kv) (snd kv)) m.

(** Key paths that are pairwise different and where no leaf is above
    another path. *)
Definition tree_like (l : list (list pystr * bool)) : Prop :=
  NoDup (map fst l) /\
  (forall ks ks' isd' t,
     In (ks, false) l -> In (ks', isd') l -> ks' = ks ++ t -> t = []).

(** Key paths that go through [pre] and then one of [keys], by names. *)
Definition through (pre : list pystr) (keys : list pystr)
    (l : list (list pystr * bool)) : Prop :=
  forall ks isd, In (ks, isd) l ->
    exists k t, In k keys /\ ks = pre ++ k :: t /\ clean (k :: t).

(** What holds of the key paths of an item with a plain value. *)
Definition item_ok (v : value) : Prop :=
  forall pre k, plain_value v -> name_ok k ->
    through pre [k] (key_paths_item pre k v) /\
    tree_like (key_paths_item pre k v).

(** The parts and the flag of an entry. *)
Definition entry_key (e : entry) : list pystr * bool :=
  (path_parts (fst (fst e)), snd (fst e)).

(** The entries of an item with a plain value are its key paths, and
    their paths are relative. *)
Definition item_keys (rt : Runtime) (v : value) : Prop :=
  forall prefix k, plain_value v -> name_ok k -> path_anchor prefix = 0 ->
    map entry_key (walk_item rt prefix k v)
    = key_paths_item (path_parts prefix) k v /\
    Forall (fun e : entry => path_anchor (fst (fst e)) = 0)
           (walk_item rt prefix k v).

(** A regular file is in the way of an entry: at the path of a directory
    entry or above it, above the path of a file entry. *)
Definition blocked (env : Env) (bt : ppath) (fs : node) (e : pystr * bool)
  : Prop :=
  let p := parts (abs_path env bt (fst e)) in
  exists k c,
    (snd e = false -> k < length p) /\
    lookup (firstn k p) fs = Some (File c).

(** ** Further vocabulary *)

(** The character that ends a key in the pattern of the mode choice. *)
Definition COLON : N := 58.

(** An element of the [entries] list that the parser accepts: a mapping
    with the key ["path"]. *)
Definition has_path (it : value) : bool :=
  match it with
  | VDict d => has_key (u "path") d
  | _ => false
  end.

(** What makes the round of an entry leave the filesystem [fs] as it is:
    for a directory entry, the directory is there or a regular file is
    in the way; for a file entry, a regular file is in the way of its
    parent, or a directory is in its place, or the file is there (with
    the content the round would write, when the round overwrites). *)
Definition settles (env : Env) (ow : bool) (contents : Contents)
    (bt : ppath) (fs : node) (e : pystr * bool) : Prop :=
  let p := parts (abs_path env bt (fst e)) in
  if snd e then
    (exists ch, lookup p fs = Some (Dir ch)) \/
    (exists k c, lookup (firstn k p) fs = Some (File c))
  else
    (exists k c, lookup (firstn k (removelast p)) fs = Some (File c)) \/
    (exists ch, lookup p fs = Some (Dir ch)) \/
    (if ow then lookup p fs = Some (File (content_for contents (fst e)))
     else exists c, lookup p fs = Some (File c)).

(** Every created path is the confined path of an entry, and holds what
    the round of that entry makes: a directory, or a regular file with the
    content chosen for the entry. *)
Definition created_hold (env : Env) (contents : Contents) (bt : ppath)
    (all : list (pystr * bool)) (s : State) : Prop :=
  forall t, In t (st_created s) ->
    exists rel isd,
      In (rel, isd) all /\ abs_text env bt rel = t /\
      if isd
      then exists ch,
             lookup (parts (abs_path env bt rel)) (st_fs s) = Some (Dir ch)
      else lookup (parts (abs_path env bt rel)) (st_fs s)
           = Some (File (content_for contents rel)).

(** ** Example data *)

Definition ascii_word (c : N) : bool :=
  ((48 <=? c) && (c <=? 57) || (65 <=? c) && (c <=? 90)
   || (97 <=? c) && (c <=? 122) || (c =? 95))%N.

(** A runtime whose JSON decoder is given by its graph on the documents
    of the examples; none of them has a list or a mapping where the tool
    asks for a text. *)
Definition table_runtime (docs : list (pystr * value)) : Runtime :=
  {| json_loads := fun s => match table_get s docs with
                            | Some v => Decoded v
                            | None => DecodeError (u "Expecting value")
                            end;
     yaml_safe_load := None;
     str_container := fun _ => [];
     is_word := ascii_word |}.

Definition env0 : Env :=
  {| MCP_SCAFFOLDER_BASE := Some (u "/srv/base"); getcwd := u "/home/me" |}.

(** An empty confinement root [/srv/base] next to [/etc] and [/home/me]. *)
Definition fs0 : node :=
  Dir [(u "srv", Dir [(u "base", Dir [])]);
       (u "etc", Dir []);
       (u "home", Dir [(u "me", Dir [])])].

Definition tree_request (text : pystr) (dry : bool) : Request :=
  {| prompt := text; target_path := u "app"; req_mode := Tree;
     overwrite := false; dry_run := dry |}.

Definition json_request (text : pystr) : Request :=
  {| prompt := text; target_path := u "app"; req_mode := Json;
     overwrite := false; dry_run := false |}.

Definition app : ppath :=
  {| anchor := 1; parts := [u "srv"; u "base"; u "app"] |}.

Definition docs_dir : node :=
  Dir [(u "srv", Dir [(u "base", Dir [(u "app", Dir [(u "docs", Dir [])])])])].

(** The job of a tree request for the target [app] under [env0]. *)
Definition tree_job (paths : list (pystr * bool)) : Job :=
  {| job_selected := Tree; job_base := Path (u "/srv/base");
     job_target := app; job_paths := paths; job_contents := [] |}.

Definition escape_prompt : pystr := u "a.txt" ++ NL ++ u "../../etc/passwd".
Definition passwd_prompt : pystr := u "../../etc/passwd".
Definition twice_prompt : pystr := u "a.txt" ++ NL ++ u "a.txt".
Definition two_files_prompt : pystr := u "a.txt" ++ NL ++ u "b.txt".

Definition app_with (children : list (pystr * node)) : node :=
  Dir [(u "srv", Dir [(u "base", Dir [(u "app", Dir children)])]);
       (u "etc", Dir []);
       (u "home", Dir [(u "me", Dir [])])].

(** JSON texts of the examples and what [json.loads] makes of them. *)
Definition q (s : string) : pystr := [34%N] ++ u s ++ [34%N].

Definition readme_text : pystr := u "{" ++ q "README.md" ++ u ": null}".
Definition readme_doc : value := VDict [(u "README.md", VNone)].

Definition docs_text : pystr :=
  u "{" ++ q "entries" ++ u ": [{" ++ q "path" ++ u ": " ++ q "docs"
  ++ u ", " ++ q "type" ++ u ": " ++ q "dir" ++ u "}]}".
Definition docs_doc : value :=
  VDict [(u "entries",
          VList [VDict [(u "path", VStr (u "docs"));
                        (u "type", VStr (u "dir"))]])].

Definition nested_text : pystr :=
  u "{" ++ q "a" ++ u ": " ++ q "x" ++ u ", " ++ q "a/b" ++ u ": " ++ q "y"
  ++ u "}".
Definition nested_doc : value :=
  VDict [(u "a", VStr (u "x")); (u "a/b", VStr (u "y"))].

Definition flat_text : pystr :=
  u "{" ++ q "entries" ++ u ": [{" ++ q "path" ++ u ": " ++ q "a/b" ++ u ", "
  ++ q "content" ++ u ": " ++ q "y" ++ u "}, {" ++ q "path" ++ u ": " ++ q "a"
  ++ u ", " ++ q "content" ++ u ": " ++ q "x" ++ u "}]}".
Definition flat_doc : value :=
  VDict [(u "entries",
          VList [VDict [(u "path", VStr (u "a/b"));
                        (u "content", VStr (u "y"))];
                 VDict [(u "path", VStr (u "a"));
                        (u "content", VStr (u "x"))]])].

Definition flat_same_order_text : pystr :=
  u "{" ++ q "entries" ++ u ": [{" ++ q "path" ++ u ": " ++ q "a" ++ u ", "
  ++ q "type" ++ u ": " ++ q "file" ++ u ", " ++ q "content" ++ u ": "
  ++ q "x" ++ u "}, {" ++ q "path" ++ u ": " ++ q "a/b" ++ u ", "
  ++ q "type" ++ u ": " ++ q "file" ++ u ", " ++ q "content" ++ u ": "
  ++ q "y" ++ u "}]}".

Definition tree_text : pystr :=
  u "{" ++ q "d" ++ u ": {" ++ q "f" ++ u ": " ++ q "x" ++ u "}, " ++ q "g"
  ++ u ": " ++ q "y" ++ u "}".
Definition tree_doc : value :=
  VDict [(u "d", VDict [(u "f", VStr (u "x"))]); (u "g", VStr (u "y"))].

Definition shuffled_text : pystr :=
  u "{" ++ q "entries" ++ u ": [{" ++ q "path" ++ u ": " ++ q "g" ++ u ", "
  ++ q "content" ++ u ": " ++ q "y" ++ u "}, {" ++ q "path" ++ u ": "
  ++ q "d/f" ++ u ", " ++ q "content" ++ u ": " ++ q "x" ++ u "}, {"
  ++ q "path" ++ u ": " ++ q "d" ++ u ", " ++ q "type" ++ u ": " ++ q "dir"
  ++ u "}]}".
Definition shuffled_doc : value :=
  VDict [(u "entries",
          VList [VDict [(u "path", VStr (u "g"));
                        (u "content", VStr (u "y"))];
                 VDict [(u "path", VStr (u "d/f"));
                        (u "content", VStr (u "x"))];
                 VDict [(u "path", VStr (u "d"));
                        (u "type", VStr (u "dir"))]])].

Definition rooted_text : pystr :=
  u "{" ++ q "root" ++ u ": {" ++ q "a.txt" ++ u ": " ++ q "x" ++ u "}}".
Definition rooted_doc : value :=
  VDict [(u "root", VDict [(u "a.txt", VStr (u "x"))])].

Definition examples_runtime : Runtime :=
  table_runtime [(readme_text, readme_doc); (docs_text, docs_doc);
                 (nested_text, nested_doc); (flat_text, flat_doc);
                 (tree_text, tree_doc); (shuffled_text, shuffled_doc);
                 (rooted_text, rooted_doc);
                 (flat_same_order_text,
                  flat_of [(u "a", false, Some (u "x"));
                           (u "a/b", false, Some (u "y"))])].

Definition json_job (es : list entry) : Job :=
  {| job_selected := Json; job_base := Path (u "/srv/base");
     job_target := app; job_paths := entry_paths es;
     job_contents := entry_contents es |}.

(** * Facts *)

Unset Implicit Arguments.

(** ** Texts *)

Lemma str_eqb_eq a : forall b, str_eqb a b = true <-> a = b.
Proof.
  induction a as [|x a IH]; intros [|y b]; simpl; split; try congruence.
  - intros H. apply andb_true_iff in H. destruct H as [E1 E2].
    apply N.eqb_eq in E1. apply IH in E2. congruence.
  - intros H. inversion H; subst. rewrite N.eqb_refl. simpl. now apply IH.
Qed.

Lemma str_eqb_refl a : str_eqb a a = true.
Proof. now apply str_eqb_eq. Qed.

Lemma str_eqb_neq a b : str_eqb a b = false <-> a <> b.
Proof.
  rewrite <- str_eqb_eq. destruct (str_eqb a b); split; congruence.
Qed.

Ltac case_str a b :=
  let E := fresh "E" in
  destruct (str_eqb a b) eqn:E;
  [apply str_eqb_eq in E | apply str_eqb_neq in E].

(** ** Filesystem *)

Lemma child_get_set_same x n ch : child_get x (child_set x n ch) = Some n.
Proof.
  induction ch as [|[k m] r IH]; simpl.
  - now rewrite str_eqb_refl.
  - case_str k x; simpl.
    + subst. now rewrite str_eqb_refl.
    + apply str_eqb_neq in E. now rewrite E.
Qed.

Lemma child_get_set_other x y n ch :
  x <> y -> child_get y (child_set x n ch) = child_get y ch.
Proof.
  intros D. induction ch as [|[k m] r IH]; simpl.
  - case_str x y; congruence.
  - case_str k x; simpl.
    + subst. case_str x y; congruence.
    + now rewrite IH.
Qed.

Lemma child_set_get_id x n ch :
  child_get x ch = Some n -> child_set x n ch = ch.
Proof.
  induction ch as [|[k m] r IH]; simpl; [discriminate|].
  case_str k x.
  - congruence.
  - intros H. now rewrite IH.
Qed.

Lemma preserved_refl x : preserved x x.
Proof. destruct x; simpl; eauto. Qed.

Lemma preserved_trans x y z : preserved x y -> preserved y z -> preserved x z.
Proof.
  destruct x; simpl.
  - intros ->. auto.
  - intros [ch' ->]. simpl. auto.
Qed.

Lemma preserved_is_dir x x' : preserved x x' -> is_dir x' = is_dir x.
Proof. destruct x; simpl; [intros ->|intros [ch ->]]; reflexivity. Qed.

Lemma extends_refl fs : extends fs fs.
Proof. intros p x H. exists x. split; [assumption|apply preserved_refl]. Qed.

Lemma extends_trans a b c : extends a b -> extends b c -> extends a c.
Proof.
  intros H1 H2 p x H. destruct (H1 p x H) as [y [Hy Py]].
  destruct (H2 p y Hy) as [z [Hz Pz]]. exists z. split; [assumption|].
  eapply preserved_trans; eassumption.
Qed.

Lemma mkdir_p_extends q : forall n n',
  mkdir_p q n = inr n' -> extends n n'.
Proof.
  induction q as [|a r IH]; intros n n' H.
  - destruct n; simpl in H; inversion H; subst. apply extends_refl.
  - destruct n as [c0|ch]; simpl in H; [discriminate|].
    destruct (mkdir_p r _) as [e|c'] eqn:M; [discriminate|].
    inversion H; subst; clear H.
    intros p x L. destruct p as [|b p'].
    + simpl in L. inversion L; subst. eexists. split; [reflexivity|].
      simpl. eauto.
    + simpl in L |- *. case_str a b.
      * subst b. rewrite child_get_set_same.
        destruct (child_get a ch) as [cb|] eqn:G; [|discriminate].
        eapply IH; eassumption.
      * rewrite child_get_set_other by assumption.
        destruct (child_get b ch) as [cb|]; [|discriminate].
        exists x. split; [assumption|apply preserved_refl].
Qed.

Lemma mkdir_p_makes_dir q : forall n n',
  mkdir_p q n = inr n' -> exists ch, lookup q n' = Some (Dir ch).
Proof.
  induction q as [|a r IH]; intros n n' H.
  - destruct n; simpl in H; inversion H; subst. simpl. eauto.
  - destruct n as [c0|ch]; simpl in H; [discriminate|].
    destruct (mkdir_p r _) as [e|c'] eqn:M; [discriminate|].
    inversion H; subst; clear H. simpl. rewrite child_get_set_same.
    eapply IH; eassumption.
Qed.

Lemma mkdir_p_existing q : forall n ch,
  lookup q n = Some (Dir ch) -> mkdir_p q n = inr n.
Proof.
  induction q as [|a r IH]; intros n ch L.
  - simpl in L. inversion L; subst. reflexivity.
  - destruct n as [c0|ch0]; simpl in L; [discriminate|].
    simpl. destruct (child_get a ch0) as [c|] eqn:G; [|discriminate].
    rewrite (IH _ _ L). now rewrite child_set_get_id.
Qed.

(** A regular file on the way of [q], or at [q], makes [mkdir_p] fail. *)
Lemma mkdir_p_blocked q : forall n k c,
  lookup (firstn k q) n = Some (File c) -> exists e, mkdir_p q n = inl e.
Proof.
  induction q as [|a r IH]; intros n k c L.
  - rewrite firstn_nil in L. simpl in L. inversion L; subst.
    simpl. eauto.
  - destruct k as [|k].
    + simpl in L. inversion L; subst. simpl. eauto.
    + destruct n as [c0|ch]; simpl in L; [discriminate|].
      simpl. destruct (child_get a ch) as [cb|] eqn:G; [|discriminate].
      destruct (IH _ _ _ L) as [e ->]. eauto.
Qed.

(** Conversely a failure is caused by a regular file on the way. *)
Lemma mkdir_p_fails_file q : forall n e,
  mkdir_p q n = inl e ->
  exists k c, lookup (firstn k q) n = Some (File c).
Proof.
  induction q as [|a r IH]; intros n e H.
  - destruct n as [c0|ch]; simpl in H; [|discriminate].
    exists 0, c0. reflexivity.
  - destruct n as [c0|ch].
    + exists 0, c0. reflexivity.
    + simpl in H. destruct (mkdir_p r _) as [e'|c'] eqn:M; [|discriminate].
      destruct (IH _ _ M) as [k [c L]].
      destruct (child_get a ch) as [cb|] eqn:G.
      * exists (S k), c. simpl. now rewrite G.
      * exfalso. destruct (firstn k r); simpl in L; [discriminate|].
        simpl in L. discriminate.
Qed.

Lemma write_file_lookup q c0 : forall n n',
  write_file q c0 n = inr n' -> lookup q n' = Some (File c0).
Proof.
  induction q as [|a r IH]; intros n n' H.
  - destruct n; simpl in H; inversion H; subst. reflexivity.
  - destruct n as [c|ch]; simpl in H; [discriminate|].
    destruct (child_get a ch) as [cb|] eqn:G.
    + destruct (write_file r c0 cb) as [e|c'] eqn:W; [discriminate|].
      inversion H; subst; clear H. simpl. rewrite child_get_set_same.
      eapply IH; eassumption.
    + destruct r; [|discriminate]. inversion H; subst; clear H.
      simpl. now rewrite child_get_set_same.
Qed.

Lemma write_file_frame q c0 : forall n n' p x,
  write_file q c0 n = inr n' -> lookup p n = Some x -> p <> q ->
  exists x', lookup p n' = Some x' /\ preserved x x'.
Proof.
  induction q as [|a r IH]; intros n n' p x H L D.
  - destruct n as [c|ch]; simpl in H; [|discriminate].
    destruct p; [congruence|]. simpl in L. discriminate.
  - destruct n as [c|ch]; simpl in H; [discriminate|].
    destruct p as [|b p'].
    + simpl in L. inversion L; subst; clear L.
      destruct (child_get a ch) as [cb|] eqn:G.
      * destruct (write_file r c0 cb) as [e|c'] eqn:W; [discriminate|].
        inversion H; subst. simpl. eexists. split; [reflexivity|]. eauto.
      * destruct r; [|discriminate]. inversion H; subst. simpl.
        eexists. split; [reflexivity|]. eauto.
    + simpl in L. case_str a b.
      * subst b. destruct (child_get a ch) as [cb|] eqn:G; [|discriminate].
        destruct (write_file r c0 cb) as [e|c'] eqn:W; [discriminate|].
        inversion H; subst; clear H. simpl. rewrite child_get_set_same.
        eapply IH; try eassumption. congruence.
      * assert (G' : forall m, child_get b (child_set a m ch) = child_get b ch)
          by (intros; now apply child_get_set_other).
        destruct (child_get b ch) as [cb|] eqn:Gb; [|discriminate].
        exists x. split; [|apply preserved_refl].
        destruct (child_get a ch) as [ca|] eqn:G.
        -- destruct (write_file r c0 ca) as [e|c'] eqn:W; [discriminate|].
           inversion H; subst. simpl. now rewrite G'.
        -- destruct r; [|discriminate]. inversion H; subst. simpl.
           now rewrite G'.
Qed.

Lemma write_file_on_dir q c0 : forall n ch,
  lookup q n = Some (Dir ch) -> exists e, write_file q c0 n = inl e.
Proof.
  induction q as [|a r IH]; intros n ch L.
  - simpl in L. inversion L; subst. simpl. eauto.
  - destruct n as [c|ch0]; simpl in L; [discriminate|].
    simpl. destruct (child_get a ch0) as [cb|]; [|discriminate].
    destruct (IH _ _ L) as [e ->]. eauto.
Qed.

(** ** Paths *)

Lemma name_ok_part s : name_ok s <-> part_ok s /\ s <> DOTDOT.
Proof. unfold name_ok, part_ok. tauto. Qed.

Lemma split_from_pieces sep s : forall acc,
  ~ In sep acc -> Forall (fun piece => ~ In sep piece) (split_from sep acc s).
Proof.
  induction s as [|c r IH]; intros acc Hacc; simpl.
  - constructor; [|constructor]. now rewrite <- in_rev.
  - destruct (N.eqb_spec c sep) as [->|D].
    + constructor; [now rewrite <- in_rev|]. apply IH. simpl. tauto.
    + apply IH. simpl. intros [E|E]; [congruence|tauto].
Qed.

Lemma path_parts_ok s : Forall part_ok (path_parts s).
Proof.
  unfold path_parts. apply Forall_forall. intros x Hx.
  apply filter_In in Hx. destruct Hx as [Hin Hf].
  assert (P : Forall (fun piece => ~ In SLASH piece) (split SLASH s))
    by (apply split_from_pieces; intros []).
  rewrite Forall_forall in P. specialize (P x Hin).
  apply negb_true_iff, orb_false_iff in Hf. destruct Hf as [F1 F2].
  apply str_eqb_neq in F1, F2. repeat split; assumption.
Qed.

Lemma Forall_removelast {A} (P : A -> Prop) l :
  Forall P l -> Forall P (removelast l).
Proof.
  induction l as [|a l IH]; intros H; [assumption|].
  inversion H; subst. destruct l; [constructor|].
  change (Forall P (a :: removelast (a0 :: l))). constructor; auto.
Qed.

Lemma walk_parts_clean ps : forall start,
  clean start -> Forall part_ok ps -> clean (walk_parts start ps).
Proof.
  unfold walk_parts, clean.
  induction ps as [|c r IH]; intros start Hs Hp; simpl; [assumption|].
  inversion Hp; subst. apply IH; [|assumption].
  case_str c DOTDOT.
  - now apply Forall_removelast.
  - apply Forall_app. split; [assumption|]. constructor; [|constructor].
    apply name_ok_part. split; assumption.
Qed.

Lemma walk_parts_id ps : forall start,
  clean ps -> walk_parts start ps = start ++ ps.
Proof.
  unfold walk_parts, clean.
  induction ps as [|c r IH]; intros start H; simpl.
  - now rewrite app_nil_r.
  - inversion H as [|? ? Hc Hr]; subst.
    destruct Hc as (_ & _ & _ & Hdd). apply str_eqb_neq in Hdd.
    rewrite Hdd, IH by assumption. now rewrite <- app_assoc.
Qed.

Lemma cwd_clean env : clean (cwd env).
Proof.
  unfold cwd. apply walk_parts_clean; [constructor|apply path_parts_ok].
Qed.

Lemma Path_parts_ok s : Forall part_ok (parts (Path s)).
Proof. apply path_parts_ok. Qed.

Lemma path_join_parts_ok p s :
  Forall part_ok (parts p) -> Forall part_ok (parts (path_join p s)).
Proof.
  intros H. unfold path_join. destruct (path_anchor s); simpl.
  - apply Forall_app. split; [assumption|apply path_parts_ok].
  - apply path_parts_ok.
Qed.

Lemma resolve_resolved c p :
  clean c -> Forall part_ok (parts p) -> resolved (resolve c p).
Proof.
  intros Hc Hp. split; [reflexivity|]. simpl.
  apply walk_parts_clean; [|assumption].
  destruct (anchor p); [assumption|constructor].
Qed.

Lemma clean_parts_ok l : clean l -> Forall part_ok l.
Proof.
  unfold clean. intros H. eapply Forall_impl; [|exact H].
  intros a Ha. now apply name_ok_part in Ha.
Qed.

Lemma resolve_id c p : resolved p -> resolve c p = p.
Proof.
  destruct p as [a ps]. intros [Ha Hc]. simpl in *. subst a.
  unfold resolve. simpl. now rewrite walk_parts_id.
Qed.

Lemma safe_join_unfold c b rel :
  safe_join c b rel =
  let base_res := resolve c b in
  let p := resolve c (path_join base_res rel) in
  if startswith (path_str p) (path_str base_res) then Ok p
  else Raise (SpecError (escape_message p base_res)).
Proof.
  unfold safe_join. cbv zeta.
  now destruct (startswith _ _).
Qed.

Lemma safe_join_resolved c b rel p :
  clean c -> Forall part_ok (parts b) ->
  safe_join c b rel = Ok p -> resolved p.
Proof.
  intros Hc Hb. rewrite safe_join_unfold. cbv zeta.
  destruct (startswith _ _); [|discriminate].
  intros H. inversion H; subst. apply resolve_resolved; [assumption|].
  apply path_join_parts_ok. apply clean_parts_ok.
  now apply resolve_resolved.
Qed.

Lemma safe_join_abs env bt rel p :
  safe_join (cwd env) bt rel = Ok p -> p = abs_path env bt rel.
Proof.
  rewrite safe_join_unfold. cbv zeta.
  destruct (startswith _ _); [|discriminate]. intros H. now inversion H.
Qed.

Lemma startswith_refl s : startswith s s = true.
Proof. induction s; simpl; [reflexivity|]. now rewrite N.eqb_refl. Qed.

Lemma startswith_trans a : forall b c,
  startswith a b = true -> startswith b c = true -> startswith a c = true.
Proof.
  induction a as [|x a IH]; intros b c H1 H2.
  - destruct b; [|discriminate]. destruct c; [reflexivity|discriminate].
  - destruct c as [|z c]; [reflexivity|].
    destruct b as [|y b]; [discriminate|]. simpl in *.
    apply andb_true_iff in H1, H2. destruct H1 as [E1 T1], H2 as [E2 T2].
    apply N.eqb_eq in E1, E2. subst. rewrite N.eqb_refl. simpl.
    eapply IH; eassumption.
Qed.

(** ** The loop of the live run *)

Lemma NoDup_app_disjoint {A} (l1 l2 : list A) :
  NoDup (l1 ++ l2) -> forall a, In a l1 -> ~ In a l2.
Proof.
  induction l1 as [|x l1 IH]; intros N a I1 I2; [destruct I1|].
  simpl in N. inversion N as [|? ? Hx Hr]; subst.
  destruct I1 as [->|I1].
  - apply Hx. apply in_or_app. now right.
  - exact (IH Hr a I1 I2).
Qed.

Lemma perm_first {A} (c s e : list A) n :
  Permutation ((c ++ [n]) ++ s ++ e) (n :: c ++ s ++ e).
Proof.
  rewrite <- app_assoc. simpl. symmetry. apply Permutation_middle.
Qed.

Lemma perm_second {A} (c s e : list A) n :
  Permutation (c ++ (s ++ [n]) ++ e) (n :: c ++ s ++ e).
Proof.
  rewrite <- app_assoc. simpl.
  rewrite (app_assoc c s (n :: e)), (app_assoc c s e).
  symmetry. apply Permutation_middle.
Qed.

Lemma perm_third {A} (c s e : list A) n :
  Permutation (c ++ s ++ e ++ [n]) (n :: c ++ s ++ e).
Proof.
  rewrite !app_assoc. symmetry. apply Permutation_cons_append.
Qed.

Section Live.

Variable env : Env.
Variable ow : bool.
Variable contents : Contents.
Variable bt : ppath.

Local Abbreviation step := (materialize_entry env ow contents bt).
Local Abbreviation run := (materialize env ow contents bt).
Local Abbreviation loc rel := (parts (abs_path env bt rel)).
Local Abbreviation name rel := (abs_text env bt rel).
Local Abbreviation confined := (confined env bt).
Local Abbreviation outcome := (outcome env ow contents bt).

Lemma safe_join_confined rel :
  safe_join (cwd env) bt rel =
  if confined rel then Ok (abs_path env bt rel)
  else Raise (SpecError (escape_message (abs_path env bt rel)
                                        (resolve (cwd env) bt))).
Proof. apply safe_join_unfold. Qed.

Lemma step_outcome s rel isd s' :
  step s (rel, isd) = Ok s' -> confined rel = true /\ outcome s rel isd s'.
Proof.
  unfold materialize_entry. rewrite safe_join_confined.
  destruct (confined rel); [|discriminate]. cbn [bind]. intros H.
  split; [reflexivity|].
  destruct isd.
  - destruct (mkdir_p _ _) eqn:M; inversion H; subst; econstructor; eassumption.
  - unfold exists_ in H.
    assert (G : (ow = false /\ exists x, lookup (loc rel) (st_fs s) = Some x)
                \/ ((ow = true \/ lookup (loc rel) (st_fs s) = None))).
    { destruct ow; [right; now left|].
      destruct (lookup (loc rel) (st_fs s)); [left; eauto|right; now right]. }
    destruct G as [[Ho [x Hx]]|G].
    + rewrite Hx, Ho in H. simpl in H. inversion H; subst.
      eapply file_skipped; eauto.
    + assert (C : (match lookup (loc rel) (st_fs s) with
                   | Some _ => true | None => false end && negb ow) = false).
      { destruct G as [->| ->]; [apply andb_false_r|reflexivity]. }
      rewrite C in H. cbn [parent parts] in H.
      destruct (mkdir_p _ _) eqn:M.
      * inversion H; subst. eapply parent_failed; eassumption.
      * destruct (write_file _ _ _) eqn:W; inversion H; subst.
        -- eapply write_failed; eassumption.
        -- eapply file_written; eassumption.
Qed.

Lemma step_raises s rel isd :
  confined rel = false ->
  step s (rel, isd)
  = Raise (SpecError (escape_message (abs_path env bt rel)
                                     (resolve (cwd env) bt))).
Proof.
  intros C. unfold materialize_entry. rewrite safe_join_confined, C.
  reflexivity.
Qed.

Lemma step_total s rel isd :
  confined rel = true -> exists s', step s (rel, isd) = Ok s'.
Proof.
  intros C. unfold materialize_entry. rewrite safe_join_confined, C.
  cbn [bind]. destruct isd.
  - destruct (mkdir_p _ _); eauto.
  - destruct (_ && _); eauto.
    destruct (mkdir_p _ _); eauto. destruct (write_file _ _ _); eauto.
Qed.

Lemma run_app pre : forall post s,
  run (pre ++ post) s =
  match run pre s with
  | (None, s1) => run post s1
  | (Some e, s1) => (Some e, s1)
  end.
Proof.
  induction pre as [|e pre IH]; intros post s; simpl; [reflexivity|].
  destruct (step s e); [apply IH|reflexivity].
Qed.

Lemma run_confined paths : forall s,
  Forall (fun e => confined (fst e) = true) paths ->
  exists s', run paths s = (None, s').
Proof.
  induction paths as [|[rel isd] r IH]; intros s H; cbn [materialize];
    [eauto|].
  inversion H; subst. cbn [fst] in *.
  destruct (step_total s rel isd) as [s' E]; [assumption|].
  rewrite E. auto.
Qed.

Lemma run_completes paths : forall s s',
  run paths s = (None, s') ->
  Forall (fun e => confined (fst e) = true) paths.
Proof.
  induction paths as [|[rel isd] r IH]; intros s s' H; [constructor|].
  cbn [materialize] in H.
  destruct (step s (rel, isd)) as [s1|x] eqn:E; [|discriminate].
  apply step_outcome in E. constructor; [tauto|eauto].
Qed.

Lemma outcome_recorded s rel isd s' :
  outcome s rel isd s' -> Permutation (recorded s') (name rel :: recorded s).
Proof.
  intros O. unfold recorded.
  destruct O; cbn [record_created record_skipped record_error st_created
                   st_skipped st_errors]; rewrite ?map_app; cbn [map fst].
  all: first [apply perm_first | apply perm_second | apply perm_third].
Qed.

Lemma run_recorded paths : forall s s',
  run paths s = (None, s') ->
  Permutation (recorded s') (map (fun e => name (fst e)) paths ++ recorded s).
Proof.
  induction paths as [|[rel isd] r IH]; intros s s' H;
    cbn [materialize] in H.
  - inversion H; subst. reflexivity.
  - destruct (step s (rel, isd)) as [s1|x] eqn:E; [|discriminate].
    apply step_outcome in E. destruct E as [_ O].
    rewrite (IH _ _ H). simpl.
    rewrite (outcome_recorded _ _ _ _ O). symmetry. apply Permutation_middle.
Qed.

End Live.

(** ** The call as a whole *)

Lemma prepare_inv rt env fs rq job :
  prepare rt env fs rq = Ok job ->
  exists base_text,
    MCP_SCAFFOLDER_BASE env = Some base_text /\
    job_base job = Path base_text /\
    job_selected job = select rt (req_mode rq) (prompt rq) /\
    parse_prompt rt (job_selected job) (prompt rq)
    = Ok (job_paths job, job_contents job) /\
    safe_join (cwd env) (Path base_text)
              (lstrip_chars [SLASH] (strip (target_path rq)))
    = Ok (job_target job).
Proof.
  unfold prepare.
  destruct (MCP_SCAFFOLDER_BASE env) as [[|c base_text]|]; try discriminate.
  destruct (negb _); [discriminate|].
  destruct (parse_prompt _ _ _) as [[paths contents]|] eqn:P; [|discriminate].
  cbn [bind]. destruct (safe_join _ _ _) as [t|] eqn:J; [|discriminate].
  cbn [bind]. intros H. inversion H; subst; clear H. cbn.
  exists (c :: base_text). repeat split; assumption.
Qed.

Lemma prepare_target rt env fs rq job base_text :
  MCP_SCAFFOLDER_BASE env = Some base_text ->
  prepare rt env fs rq = Ok job ->
  resolved (job_target job) /\
  startswith (path_str (job_target job)) (root_text env base_text) = true.
Proof.
  intros B H. destruct (prepare_inv _ _ _ _ _ H) as (b & B' & _ & _ & _ & J).
  rewrite B in B'. inversion B'; subst b; clear B'.
  split.
  - eapply safe_join_resolved; [apply cwd_clean|apply Path_parts_ok|exact J].
  - rewrite safe_join_unfold in J. cbv zeta in J.
    destruct (startswith _ _) eqn:S; [|discriminate].
    inversion J; subst. exact S.
Qed.

(** The parse and the target do not depend on the filesystem. *)
Lemma prepare_stable rt env fs fs' rq job job' :
  prepare rt env fs rq = Ok job -> prepare rt env fs' rq = Ok job' ->
  job' = job.
Proof.
  unfold prepare.
  destruct (MCP_SCAFFOLDER_BASE env) as [[|c base_text]|]; try discriminate.
  destruct (negb (path_exists _ fs _)); [discriminate|].
  destruct (negb (path_exists _ fs' _)); [discriminate|].
  congruence.
Qed.

Lemma scaffold_live rt env fs rq job :
  dry_run rq = false -> prepare rt env fs rq = Ok job ->
  scaffold_project rt env fs rq =
  match materialize env (overwrite rq) (job_contents job) (job_target job)
                    (job_paths job) (initial fs) with
  | (Some e, s) => (Raise e, st_fs s)
  | (None, s) => (Ok (payload job false None s), st_fs s)
  end.
Proof.
  intros D P. unfold scaffold_project. rewrite P, D.
  destruct (materialize _ _ _ _ _ _) as [[e|] s]; reflexivity.
Qed.

Lemma scaffold_live_ok rt env fs rq job r fs' :
  dry_run rq = false -> prepare rt env fs rq = Ok job ->
  scaffold_project rt env fs rq = (Ok r, fs') ->
  exists s,
    materialize env (overwrite rq) (job_contents job) (job_target job)
                (job_paths job) (initial fs) = (None, s) /\
    r = payload job false None s /\ fs' = st_fs s.
Proof.
  intros D P. rewrite (scaffold_live _ _ _ _ _ D P).
  destruct (materialize _ _ _ _ _ _) as [[e|] s]; intros H; inversion H.
  eauto.
Qed.

(** ** Texts of resolved paths *)

Lemma split_from_plain sep s : forall acc,
  ~ In sep s -> split_from sep acc s = [rev acc ++ s].
Proof.
  induction s as [|c r IH]; intros acc H; simpl.
  - now rewrite app_nil_r.
  - destruct (N.eqb_spec c sep) as [->|D]; [exfalso; apply H; now left|].
    rewrite IH by (intros X; apply H; now right).
    simpl. now rewrite <- app_assoc.
Qed.

Lemma split_from_sep sep s : forall acc rest,
  ~ In sep s ->
  split_from sep acc (s ++ sep :: rest)
  = (rev acc ++ s) :: split_from sep [] rest.
Proof.
  induction s as [|c r IH]; intros acc rest H; simpl.
  - rewrite N.eqb_refl. now rewrite app_nil_r.
  - destruct (N.eqb_spec c sep) as [->|D]; [exfalso; apply H; now left|].
    rewrite IH by (intros X; apply H; now right).
    simpl. now rewrite <- app_assoc.
Qed.

Lemma split_join ps :
  ps <> [] -> Forall (fun s => ~ In SLASH s) ps ->
  split SLASH (join [SLASH] ps) = ps.
Proof.
  induction ps as [|p r IH]; intros N F; [congruence|].
  inversion F as [|? ? Hp Hr]; subst. destruct r as [|q r].
  - simpl. unfold split. now rewrite split_from_plain.
  - change (join [SLASH] (p :: q :: r))
      with (p ++ SLASH :: join [SLASH] (q :: r)).
    unfold split. rewrite split_from_sep by assumption.
    simpl rev. simpl app. f_equal. apply IH; [discriminate|assumption].
Qed.

Lemma path_text_parts p : resolved p -> path_parts (path_str p) = parts p.
Proof.
  destruct p as [a ps]. intros [Ha Hc]. simpl in Ha, Hc. subst a.
  unfold path_str. cbn [anchor parts repeat].
  change ([SLASH] ++ join [SLASH] ps) with (SLASH :: join [SLASH] ps).
  unfold path_parts, split. cbn [split_from]. rewrite N.eqb_refl.
  cbn [rev filter]. rewrite str_eqb_refl. cbn [orb negb].
  destruct ps as [|p r].
  - reflexivity.
  - fold (split SLASH (join [SLASH] (p :: r))).
    rewrite split_join; [|discriminate|].
    + apply forallb_filter_id. apply forallb_forall. intros x Hx.
      unfold clean in Hc. rewrite Forall_forall in Hc.
      destruct (Hc x Hx) as (N1 & _ & N2 & _).
      apply str_eqb_neq in N1, N2. now rewrite N1, N2.
    + eapply Forall_impl; [|exact Hc]. intros x (_ & N & _). exact N.
Qed.

Lemma abs_path_resolved env bt rel :
  resolved bt -> resolved (abs_path env bt rel).
Proof.
  intros R. unfold abs_path. rewrite (resolve_id _ _ R).
  apply resolve_resolved; [apply cwd_clean|].
  apply path_join_parts_ok. apply clean_parts_ok. apply R.
Qed.

Lemma abs_text_parts env bt rel :
  resolved bt ->
  path_parts (abs_text env bt rel) = parts (abs_path env bt rel).
Proof.
  intros R. apply path_text_parts. now apply abs_path_resolved.
Qed.

(** ** What a round keeps *)

Section Frame.

Variable env : Env.
Variable contents : Contents.
Variable bt : ppath.

Local Abbreviation run ow := (materialize env ow contents bt).
Local Abbreviation loc rel := (parts (abs_path env bt rel)).
Local Abbreviation name rel := (abs_text env bt rel).
Local Abbreviation outcome ow := (outcome env ow contents bt).
Local Abbreviation created_present := (created_present env bt).

(** A node found before a round is preserved by it, unless the round may
    overwrite and is for that very location. *)
Lemma outcome_frame ow s rel isd s' :
  outcome ow s rel isd s' ->
  forall p x, lookup p (st_fs s) = Some x -> p <> loc rel \/ ow = false ->
    exists x', lookup p (st_fs s') = Some x' /\ preserved x x'.
Proof.
  intros O p x L D.
  assert (Keep : exists x', lookup p (st_fs s) = Some x' /\ preserved x x')
    by (exists x; split; [assumption|apply preserved_refl]).
  assert (Ne : forall fs1,
             ow = true \/ lookup (loc rel) (st_fs s) = None ->
             mkdir_p (removelast (loc rel)) (st_fs s) = inr fs1 ->
             p <> loc rel /\
             exists x1, lookup p fs1 = Some x1 /\ preserved x x1).
  { intros fs1 G M. split.
    - destruct D as [D|D]; [assumption|].
      destruct G as [G|G]; [congruence|]. intros ->. congruence.
    - exact (mkdir_p_extends _ _ _ M p x L). }
  destruct O; cbn [record_created record_skipped record_error st_fs];
    try exact Keep.
  - exact (mkdir_p_extends _ _ _ H p x L).
  - destruct (Ne _ H H0) as [N (x1 & L1 & P1)].
    destruct (write_file_frame _ _ _ _ _ _ H1 L1 N) as (x2 & L2 & P2).
    exists x2. split; [assumption|]. eapply preserved_trans; eassumption.
  - destruct (Ne _ H H0) as [_ X]. exact X.
Qed.

Lemma outcome_extends ow s rel isd s' :
  ow = false -> outcome ow s rel isd s' -> extends (st_fs s) (st_fs s').
Proof.
  intros W O p x L. eapply outcome_frame; eauto.
Qed.

Lemma run_extends ow paths : forall s s',
  ow = false -> run ow paths s = (None, s') -> extends (st_fs s) (st_fs s').
Proof.
  induction paths as [|[rel isd] r IH]; intros s s' W H;
    cbn [materialize] in H.
  - inversion H; subst. apply extends_refl.
  - destruct (materialize_entry env ow contents bt s (rel, isd)) as [s1|] eqn:E;
      [|discriminate].
    apply step_outcome in E. destruct E as [_ O].
    eapply extends_trans; [eapply outcome_extends; eassumption|eauto].
Qed.

Lemma outcome_lists ow s rel isd s' :
  outcome ow s rel isd s' ->
  incl (st_created s) (st_created s') /\ incl (st_skipped s) (st_skipped s').
Proof.
  intros O. destruct O; cbn; split; intros t I; auto;
    apply in_or_app; now left.
Qed.

Lemma run_lists ow paths : forall s s',
  run ow paths s = (None, s') ->
  incl (st_created s) (st_created s') /\ incl (st_skipped s) (st_skipped s').
Proof.
  induction paths as [|[rel isd] r IH]; intros s s' H;
    cbn [materialize] in H.
  - inversion H; subst. split; apply incl_refl.
  - destruct (materialize_entry env ow contents bt s (rel, isd)) as [s1|] eqn:E;
      [|discriminate].
    apply step_outcome in E. destruct E as [_ O].
    destruct (outcome_lists _ _ _ _ _ O) as [C1 S1].
    destruct (IH _ _ H) as [C2 S2].
    split; eapply incl_tran; eassumption.
Qed.

Lemma outcome_created_present ow all s rel isd s' :
  ow = false -> In (rel, isd) all ->
  outcome ow s rel isd s' -> created_present all s -> created_present all s'.
Proof.
  intros W I O Inv t Ht.
  assert (Old : In t (st_created s) ->
                exists rel0 isd0 x,
                  In (rel0, isd0) all /\ name rel0 = t /\
                  lookup (loc rel0) (st_fs s') = Some x /\ is_dir x = isd0).
  { intros Hs. destruct (Inv t Hs) as (rel0 & isd0 & x & I0 & N0 & L0 & K0).
    destruct (outcome_extends _ _ _ _ _ W O _ _ L0) as (x' & L' & P').
    exists rel0, isd0, x'. repeat split; try assumption.
    now rewrite (preserved_is_dir _ _ P'). }
  destruct O; cbn [record_created record_skipped record_error st_created
                   st_fs] in *; try (apply Old; assumption).
  - apply in_app_or in Ht. destruct Ht as [Ht|[<-|[]]]; [now apply Old|].
    destruct (mkdir_p_makes_dir _ _ _ H) as [ch L].
    exists rel, true, (Dir ch). repeat split; assumption.
  - apply in_app_or in Ht. destruct Ht as [Ht|[<-|[]]]; [now apply Old|].
    exists rel, false, (File (content_for contents rel)).
    repeat split; try assumption. eapply write_file_lookup; eassumption.
Qed.

Lemma run_created_present ow all paths : forall s s',
  ow = false -> incl paths all ->
  run ow paths s = (None, s') ->
  created_present all s -> created_present all s'.
Proof.
  induction paths as [|[rel isd] r IH]; intros s s' W I H Inv;
    cbn [materialize] in H.
  - inversion H; subst. assumption.
  - destruct (materialize_entry env ow contents bt s (rel, isd)) as [s1|] eqn:E;
      [|discriminate].
    apply step_outcome in E. destruct E as [_ O].
    apply (IH s1 s' W); [intros e He; apply I; now right|assumption|].
    eapply outcome_created_present; try eassumption. apply I. now left.
Qed.

(** A file entry whose path is present is skipped. *)
Lemma run_skips ow paths : forall s s' rel x,
  ow = false -> run ow paths s = (None, s') ->
  In (rel, false) paths -> lookup (loc rel) (st_fs s) = Some x ->
  In (name rel) (st_skipped s').
Proof.
  induction paths as [|[rel0 isd0] r IH]; intros s s' rel x W H I L;
    [destruct I|].
  cbn [materialize] in H.
  destruct (materialize_entry env ow contents bt s (rel0, isd0)) as [s1|] eqn:E;
    [|discriminate].
  apply step_outcome in E. destruct E as [_ O].
  destruct I as [I|I].
  - inversion I; subst; clear I.
    destruct (run_lists _ _ _ _ H) as [_ S]. apply S.
    inversion O; subst; cbn; try (apply in_or_app; right; now left).
    all: match goal with
         | G : _ \/ _ |- _ => destruct G; congruence
         end.
  - destruct (outcome_extends _ _ _ _ _ W O _ _ L) as (x' & L' & _).
    eapply IH; eassumption.
Qed.

(** A directory entry whose path is a directory is created again. *)
Lemma run_recreates ow paths : forall s s' rel ch,
  ow = false -> run ow paths s = (None, s') ->
  In (rel, true) paths -> lookup (loc rel) (st_fs s) = Some (Dir ch) ->
  In (name rel) (st_created s').
Proof.
  induction paths as [|[rel0 isd0] r IH]; intros s s' rel ch W H I L;
    [destruct I|].
  cbn [materialize] in H.
  destruct (materialize_entry env ow contents bt s (rel0, isd0)) as [s1|] eqn:E;
    [|discriminate].
  apply step_outcome in E. destruct E as [_ O].
  destruct I as [I|I].
  - inversion I; subst; clear I.
    destruct (run_lists _ _ _ _ H) as [C _]. apply C.
    inversion O; subst; cbn.
    + apply in_or_app; right; now left.
    + rewrite (mkdir_p_existing _ _ _ L) in *. discriminate.
  - destruct (outcome_extends _ _ _ _ _ W O _ _ L) as (x' & L' & P').
    destruct P' as [ch' ->]. eapply IH; eassumption.
Qed.

(** A path that is a regular file is not created. *)
Lemma run_keeps_out ow paths : forall s s' t c,
  ow = false -> resolved bt -> run ow paths s = (None, s') ->
  lookup (path_parts t) (st_fs s) = Some (File c) ->
  ~ In t (st_created s) -> ~ In t (st_created s').
Proof.
  induction paths as [|[rel isd] r IH]; intros s s' t c W R H L N;
    cbn [materialize] in H.
  - inversion H; subst. assumption.
  - destruct (materialize_entry env ow contents bt s (rel, isd)) as [s1|] eqn:E;
      [|discriminate].
    apply step_outcome in E. destruct E as [_ O].
    destruct (outcome_extends _ _ _ _ _ W O _ _ L) as (x' & L' & P').
    simpl in P'. subst x'.
    apply (IH s1 s' t c W R H L').
    intros I. apply N.
    assert (New : name rel = t -> lookup (loc rel) (st_fs s) = Some (File c))
      by (intros <-; now rewrite <- abs_text_parts).
    inversion O; subst; cbn in I; try assumption.
    + apply in_app_or in I. destruct I as [I|[I|[]]]; [assumption|].
      exfalso. specialize (New I).
      destruct (mkdir_p_blocked (loc rel) (st_fs s) (length (loc rel)) c)
        as [e Hm]; [now rewrite firstn_all|]. congruence.
    + apply in_app_or in I. destruct I as [I|[I|[]]]; [assumption|].
      exfalso. specialize (New I).
      match goal with G : _ \/ _ |- _ => destruct G; congruence end.
Qed.

End Frame.

Lemma scaffold_ok_prepare rt env fs rq r fs' :
  scaffold_project rt env fs rq = (Ok r, fs') ->
  exists job, prepare rt env fs rq = Ok job.
Proof.
  unfold scaffold_project. destruct (prepare rt env fs rq) as [job|e].
  - eauto.
  - discriminate.
Qed.

(** ** The structured-data parser *)

Section ParserFacts.

Variable rt : Runtime.

Lemma walk_item_dict prefix k m :
  walk_item rt prefix k (VDict m)
  = add (child prefix k) true None :: walk rt (child prefix k) m.
Proof.
  cbn [walk_item]. f_equal. unfold walk.
  induction m as [|[k' v'] r IH]; [reflexivity|].
  cbn [flat_map fst snd]. now rewrite <- IH.
Qed.

Lemma walk_item_leaf prefix k v :
  (forall m, v <> VDict m) ->
  walk_item rt prefix k v
  = [add (child prefix k) false (leaf_content rt v)].
Proof.
  intros N. destruct v; try reflexivity. exfalso. now apply (N items).
Qed.

Lemma walk_has_leaf prefix m p v :
  has_leaf prefix m p v ->
  In (add p false (leaf_content rt v)) (walk rt prefix m).
Proof.
  induction 1 as [prefix m k v I N|prefix m k m' p v I H IH].
  - unfold walk. apply in_flat_map. exists (k, v). split; [assumption|].
    cbn [fst snd]. rewrite walk_item_leaf by assumption. now left.
  - unfold walk at 1. apply in_flat_map. exists (k, VDict m').
    split; [assumption|]. cbn [fst snd]. rewrite walk_item_dict.
    now right.
Qed.

Lemma parse_nested data m :
  nested_mapping data = Some m ->
  parse_yaml_or_json rt data = Ok (walk rt [] m).
Proof.
  unfold nested_mapping, parse_yaml_or_json.
  destruct data as [| | | | | |d]; try discriminate.
  destruct (has_key (u "entries") d || has_key (u "root") d);
    [discriminate|].
  destruct (has_key (u "tree") d).
  - destruct (dict_get (u "tree") d) as [[| | | | | |m']|]; try discriminate.
    intros H. now inversion H.
  - intros H. now inversion H.
Qed.

Lemma rstrip_slash_idem s :
  rstrip_chars [SLASH] (rstrip_chars [SLASH] s) = rstrip_chars [SLASH] s.
Proof.
  unfold rstrip_chars, rstrip_by. rewrite rev_involutive. f_equal.
  generalize (rev s). intros l. induction l as [|c r IH]; [reflexivity|].
  cbn [dropwhile]. destruct (mem c [SLASH]) eqn:E; [assumption|].
  cbn [dropwhile]. now rewrite E.
Qed.

Lemma rstrip_slash_no_end s :
  endswith (rstrip_chars [SLASH] s) [SLASH] = false.
Proof.
  unfold endswith, rstrip_chars, rstrip_by. rewrite rev_involutive.
  change (rev [SLASH]) with [SLASH].
  generalize (rev s). intros l. induction l as [|c r IH]; [reflexivity|].
  cbn [dropwhile]. destruct (mem c [SLASH]) eqn:E; [assumption|].
  cbn [startswith]. unfold mem in E. cbn [existsb] in E.
  rewrite orb_false_r in E. now rewrite E.
Qed.

Lemma add_added path isd c : added (add path isd c).
Proof. apply rstrip_slash_idem. Qed.

Lemma value_dict_ind (P : value -> Prop) :
  (forall v, (forall m, v <> VDict m) -> P v) ->
  (forall m, Forall (fun kv => P (snd kv)) m -> P (VDict m)) ->
  forall v, P v.
Proof.
  intros Hleaf Hdict. fix F 1. intros v.
  destruct v as [| | | | | |m]; try (apply Hleaf; discriminate).
  apply Hdict. revert m. fix G 1. intros [|[k v] r].
  - constructor.
  - constructor; [apply F|apply G].
Qed.

Lemma walk_item_added v : forall prefix k,
  Forall added (walk_item rt prefix k v).
Proof.
  induction v as [v N|m IH] using value_dict_ind; intros prefix k.
  - rewrite walk_item_leaf by assumption.
    constructor; [apply add_added|constructor].
  - rewrite walk_item_dict. constructor; [apply add_added|].
    unfold walk. generalize (child prefix k). intros p.
    induction IH as [|[k' v'] r Hv Hr IHr]; [constructor|].
    cbn [flat_map fst snd]. apply Forall_app. split; [apply Hv|apply IHr].
Qed.

Lemma walk_added prefix m : Forall added (walk rt prefix m).
Proof.
  unfold walk. induction m as [|[k v] r IH]; [constructor|].
  cbn [flat_map fst snd]. apply Forall_app.
  split; [apply walk_item_added|assumption].
Qed.

Lemma parse_entry_added it e : parse_entry rt it = Ok e -> added e.
Proof.
  unfold parse_entry. destruct it; try discriminate.
  destruct (dict_get (u "path") items); [|discriminate].
  intros H. inversion H; subst. apply add_added.
Qed.

Lemma parse_entries_added its : forall es,
  parse_entries rt its = Ok es -> Forall added es.
Proof.
  induction its as [|it r IH]; intros es H; cbn [parse_entries] in H.
  - inversion H; subst. constructor.
  - destruct (parse_entry rt it) as [e|] eqn:E; [|discriminate].
    cbn [bind] in H.
    destruct (parse_entries rt r) as [es'|]; [|discriminate].
    cbn [bind] in H. inversion H; subst.
    constructor; [eapply parse_entry_added; eassumption|now apply IH].
Qed.

Lemma parse_added data es :
  parse_yaml_or_json rt data = Ok es -> Forall added es.
Proof.
  unfold parse_yaml_or_json.
  destruct data as [| | | | | |d]; try discriminate.
  destruct (has_key (u "entries") d || has_key (u "root") d).
  - destruct (dict_get (u "entries") d) as [[| | | | |its|]|];
      try discriminate.
    apply parse_entries_added.
  - destruct (if has_key (u "tree") d then _ else _)
      as [| | | | | |m]; try discriminate.
    intros H. inversion H; subst. apply walk_added.
Qed.

Lemma parse_flat_record e : added e -> parse_entry rt (flat_record e) = Ok e.
Proof.
  destruct e as [[path isd] content]. unfold added. cbn [fst].
  intros A.
  assert (S : endswith path [SLASH] = false)
    by (rewrite <- A; apply rstrip_slash_no_end).
  destruct isd, content; unfold flat_record, parse_entry;
    cbn -[endswith rstrip_chars]; rewrite ?S; unfold add; rewrite A;
    reflexivity.
Qed.

Lemma parse_flat_records es :
  Forall added es -> parse_entries rt (map flat_record es) = Ok es.
Proof.
  induction 1 as [|e r A _ IH]; [reflexivity|].
  cbn [map parse_entries]. rewrite (parse_flat_record _ A). cbn [bind].
  rewrite IH. reflexivity.
Qed.

Lemma parse_flat_of es :
  Forall added es -> parse_yaml_or_json rt (flat_of es) = Ok es.
Proof.
  intros A. unfold flat_of, parse_yaml_or_json.
  change (has_key (u "entries") _) with true. cbn [orb].
  change (dict_get (u "entries") _) with (Some (VList (map flat_record es))).
  now apply parse_flat_records.
Qed.

End ParserFacts.

(** ** What a created file holds *)

Section Written.

Variable env : Env.
Variable contents : Contents.
Variable bt : ppath.

Local Abbreviation run ow := (materialize env ow contents bt).
Local Abbreviation loc rel := (parts (abs_path env bt rel)).
Local Abbreviation name rel := (abs_text env bt rel).

Lemma loc_name a b : loc a = loc b -> name a = name b.
Proof.
  unfold abs_text, path_str. intros E. rewrite E. reflexivity.
Qed.

Lemma outcome_created_from ow s rel isd s' t :
  outcome env ow contents bt s rel isd s' ->
  In t (st_created s') -> In t (st_created s) \/ t = name rel.
Proof.
  intros O I. destruct O; cbn in I; auto.
  all: apply in_app_or in I; destruct I as [I|[I|[]]]; auto.
Qed.

Lemma run_created_from ow paths : forall s s' t,
  run ow paths s = (None, s') -> In t (st_created s') ->
  In t (st_created s) \/ In t (map (fun e => name (fst e)) paths).
Proof.
  induction paths as [|[rel isd] r IH]; intros s s' t H I;
    cbn [materialize] in H.
  - inversion H; subst. now left.
  - destruct (materialize_entry env ow contents bt s (rel, isd))
      as [s1|] eqn:E; [|discriminate].
    apply step_outcome in E. destruct E as [_ O].
    destruct (IH _ _ _ H I) as [I1|I1]; [|right; now right].
    destruct (outcome_created_from _ _ _ _ _ _ O I1) as [I0| ->];
      [now left|right; now left].
Qed.

Lemma run_file_stays ow paths : forall s s' p c,
  run ow paths s = (None, s') ->
  lookup p (st_fs s) = Some (File c) ->
  (forall e, In e paths -> loc (fst e) <> p) ->
  lookup p (st_fs s') = Some (File c).
Proof.
  induction paths as [|[rel isd] r IH]; intros s s' p c H L N;
    cbn [materialize] in H.
  - inversion H; subst. assumption.
  - destruct (materialize_entry env ow contents bt s (rel, isd))
      as [s1|] eqn:E; [|discriminate].
    apply step_outcome in E. destruct E as [_ O].
    destruct (outcome_frame _ _ _ _ _ _ _ _ O p _ L) as (x' & L' & P').
    + left. intros ->. apply (N (rel, isd)); [now left|reflexivity].
    + simpl in P'. subst x'. eapply IH; try eassumption.
      intros e He. apply N. now right.
Qed.

Lemma run_created_content ow paths : forall s s' rel,
  NoDup (map (fun e => name (fst e)) paths) ->
  run ow paths s = (None, s') ->
  In (rel, false) paths ->
  ~ In (name rel) (st_created s) ->
  In (name rel) (st_created s') ->
  lookup (loc rel) (st_fs s') = Some (File (content_for contents rel)).
Proof.
  induction paths as [|[rel0 isd0] r IH]; intros s s' rel ND H I N C;
    [destruct I|].
  cbn [materialize] in H. cbn [map fst] in ND.
  inversion ND as [|? ? Hx Hr]; subst.
  destruct (materialize_entry env ow contents bt s (rel0, isd0))
    as [s1|] eqn:E; [|discriminate].
  apply step_outcome in E. destruct E as [_ O].
  destruct I as [I|I].
  - inversion I; subst; clear I.
    assert (Rest : In (name rel) (st_created s1) ->
                   exists fs1 fs2,
                     write_file (loc rel) (content_for contents rel) fs1
                     = inr fs2 /\ st_fs s1 = fs2).
    { intros I1. inversion O; subst; cbn in I1; try contradiction.
      eexists. eexists. split; [eassumption|reflexivity]. }
    destruct (run_created_from _ _ _ _ _ H C) as [I1|I1];
      [|contradiction].
    destruct (Rest I1) as (fs1 & fs2 & W & F).
    eapply run_file_stays; [exact H| |].
    + rewrite F. eapply write_file_lookup; eassumption.
    + intros e He Eq. apply Hx. apply loc_name in Eq. rewrite <- Eq.
      apply in_map_iff. exists e. split; [reflexivity|assumption].
  - eapply IH; try eassumption.
    intros I1. destruct (outcome_created_from _ _ _ _ _ _ O I1) as [I0|Eq];
      [contradiction|].
    apply Hx. rewrite <- Eq. apply in_map_iff.
    exists (rel, false). split; [reflexivity|assumption].
Qed.

End Written.

(** The contents dictionary holds, for a path assigned once, what was
    assigned. *)
Lemma contents_fold es : forall acc rel,
  ~ In rel (map (fun e : entry => fst (fst e)) es) ->
  table_get rel
    (fold_left (fun (c : Contents) (e : entry) =>
                  if snd (fst e) then c else (fst (fst e), snd e) :: c) es acc)
  = table_get rel acc.
Proof.
  induction es as [|[[p isd] c] r IH]; intros acc rel N; [reflexivity|].
  cbn [fold_left fst snd]. cbn [map fst] in N.
  rewrite IH by (intros X; apply N; now right).
  destruct isd; [reflexivity|]. cbn [table_get].
  case_str p rel; [|reflexivity]. exfalso. apply N. now left.
Qed.

Lemma contents_get_unique es rel c :
  NoDup (map (fun e : entry => fst (fst e)) es) ->
  In (rel, false, c) es ->
  contents_get rel (entry_contents es) = c.
Proof.
  unfold contents_get, entry_contents. generalize (@nil (pystr * option pystr)).
  induction es as [|[[p isd] c0] r IH]; intros acc ND I; [destruct I|].
  cbn [map fst] in ND. inversion ND as [|? ? Hx Hr]; subst.
  cbn [fold_left fst snd]. destruct I as [I|I].
  - inversion I; subst. rewrite contents_fold by assumption.
    cbn [table_get]. now rewrite str_eqb_refl.
  - now apply IH.
Qed.

Lemma prepare_structured rt env fs rq job data es :
  prepare rt env fs rq = Ok job ->
  request_data rt rq = Ok data ->
  parse_yaml_or_json rt data = Ok es ->
  job_paths job = entry_paths es /\ job_contents job = entry_contents es.
Proof.
  intros P L Q. destruct (prepare_inv _ _ _ _ _ P) as (b & _ & _ & S & PP & _).
  unfold request_data in L. rewrite <- S in L.
  unfold parse_prompt in PP.
  destruct (job_selected job).
  - cbn in L. discriminate.
  - cbn in L. discriminate.
  - rewrite L in PP. cbn [bind] in PP. unfold structured_paths in PP.
    rewrite Q in PP. cbn [bind] in PP. inversion PP. auto.
  - rewrite L in PP. cbn [bind] in PP. unfold structured_paths in PP.
    rewrite Q in PP. cbn [bind] in PP. inversion PP. auto.
Qed.

Lemma default_snippet_empty rel :
  ~ In (basename rel) (map fst DEFAULT_SNIPPETS) -> default_snippet rel = [].
Proof.
  unfold default_snippet. generalize (basename rel). intros b N.
  cbn [DEFAULT_SNIPPETS map fst In] in N. cbn [DEFAULT_SNIPPETS table_get].
  case_str (u "README.md") b; [tauto|].
  case_str (u ".env.example") b; [tauto|].
  case_str (u "requirements.txt") b; [tauto|]. reflexivity.
Qed.

Lemma parse_prompt_structured rt rq data es :
  request_data rt rq = Ok data ->
  parse_yaml_or_json rt data = Ok es ->
  parse_prompt rt (select rt (req_mode rq) (prompt rq)) (prompt rq)
  = Ok (entry_paths es, entry_contents es).
Proof.
  unfold request_data, parse_prompt. intros L Q.
  destruct (select rt (req_mode rq) (prompt rq)).
  - cbn in L. discriminate.
  - cbn in L. discriminate.
  - rewrite L. cbn [bind]. unfold structured_paths. now rewrite Q.
  - rewrite L. cbn [bind]. unfold structured_paths. now rewrite Q.
Qed.

(** ** What a call adds *)

Lemma write_file_kind q c0 n n' p x :
  write_file q c0 n = inr n' -> lookup p n = Some x ->
  exists x', lookup p n' = Some x' /\ is_dir x' = is_dir x.
Proof.
  intros W L. destruct (list_eq_dec (list_eq_dec N.eq_dec) p q) as [->|D].
  - destruct x as [c|ch].
    + exists (File c0). split; [eapply write_file_lookup; eassumption|].
      reflexivity.
    + destruct (write_file_on_dir q c0 n ch L) as [e E]. congruence.
  - destruct (write_file_frame _ _ _ _ _ _ W L D) as (x' & L' & P').
    exists x'. split; [assumption|]. now apply preserved_is_dir.
Qed.

Lemma mkdir_p_kind q n n' p x :
  mkdir_p q n = inr n' -> lookup p n = Some x ->
  exists x', lookup p n' = Some x' /\ is_dir x' = is_dir x.
Proof.
  intros M L. destruct (mkdir_p_extends _ _ _ M p x L) as (x' & L' & P').
  exists x'. split; [assumption|]. now apply preserved_is_dir.
Qed.

(** A node that [mkdir_p q] adds is a directory on the way to [q]. *)
Lemma mkdir_p_new q : forall n n' r x,
  mkdir_p q n = inr n' -> lookup r n = None -> lookup r n' = Some x ->
  is_dir x = true /\ exists t, q = r ++ t.
Proof.
  induction q as [|a q' IH]; intros n n' r x M L0 L1.
  - destruct n; simpl in M; inversion M; subst. congruence.
  - destruct n as [c0|ch]; simpl in M; [discriminate|].
    destruct (mkdir_p q' _) as [e|c'] eqn:Mc; [discriminate|].
    inversion M; subst; clear M.
    destruct r as [|b r']; [simpl in L0; discriminate|].
    simpl in L0, L1. case_str a b.
    + subst b. rewrite child_get_set_same in L1.
      destruct (child_get a ch) as [c|] eqn:G.
      * destruct (IH _ _ _ _ Mc L0 L1) as [K [t ->]].
        split; [assumption|]. now exists t.
      * destruct (lookup r' (Dir [])) as [y|] eqn:Ly.
        -- destruct r'; [|simpl in Ly; discriminate].
           simpl in L1. inversion L1; subst.
           destruct (mkdir_p_extends _ _ _ Mc [] (Dir []) eq_refl)
             as (x' & Lx & [ch' ->]).
           simpl in Lx. inversion Lx; subst.
           split; [reflexivity|]. now exists q'.
        -- destruct (IH _ _ _ _ Mc Ly L1) as [K [t ->]].
           split; [assumption|]. now exists t.
    + rewrite child_get_set_other in L1 by assumption. congruence.
Qed.

(** The only node [write_file q] adds is the file at [q]. *)
Lemma write_file_new q c0 : forall n n' r x,
  write_file q c0 n = inr n' -> lookup r n = None -> lookup r n' = Some x ->
  r = q /\ x = File c0.
Proof.
  induction q as [|a q' IH]; intros n n' r x W L0 L1.
  - destruct n as [c|ch]; simpl in W; [|discriminate].
    inversion W; subst.
    destruct r; [simpl in L0; discriminate|simpl in L1; discriminate].
  - destruct n as [c|ch]; simpl in W; [discriminate|].
    destruct r as [|b r']; [simpl in L0; discriminate|].
    simpl in L0. case_str a b.
    + subst b. destruct (child_get a ch) as [ca|] eqn:G.
      * destruct (write_file q' c0 ca) as [e|c'] eqn:Wc; [discriminate|].
        inversion W; subst; clear W. simpl in L1.
        rewrite child_get_set_same in L1.
        destruct (IH _ _ _ _ Wc L0 L1) as [-> ->]. auto.
      * destruct q'; [|discriminate]. inversion W; subst; clear W.
        simpl in L1. rewrite child_get_set_same in L1.
        destruct r'; simpl in L1; [|discriminate].
        inversion L1; subst. auto.
    + assert (G' : forall m, child_get b (child_set a m ch) = child_get b ch)
        by (intros; now apply child_get_set_other).
      destruct (child_get a ch) as [ca|] eqn:G.
      * destruct (write_file q' c0 ca) as [e|c'] eqn:Wc; [discriminate|].
        inversion W; subst; clear W. simpl in L1. rewrite G' in L1.
        congruence.
      * destruct q'; [|discriminate]. inversion W; subst; clear W.
        simpl in L1. rewrite G' in L1. congruence.
Qed.

Lemma lookup_app p : forall q n,
  lookup (p ++ q) n = match lookup p n with
                      | Some m => lookup q m
                      | None => None
                      end.
Proof.
  induction p as [|a p IH]; intros q n; [reflexivity|].
  simpl. destruct n as [c|ch]; [reflexivity|].
  destruct (child_get a ch); [apply IH|reflexivity].
Qed.

Lemma write_file_cons a q c0 ch :
  write_file (a :: q) c0 (Dir ch)
  = match child_get a ch with
    | Some c =>
        match write_file q c0 c with
        | inr c' => inr (Dir (child_set a c' ch))
        | inl e => inl e
        end
    | None =>
        match q with
        | [] => inr (Dir (child_set a (File c0) ch))
        | _ => inl FileNotFoundError
        end
    end.
Proof. reflexivity. Qed.

(** Below a directory, a write succeeds unless a directory is in its
    place. *)
Lemma write_file_succeeds q c0 : forall n,
  (exists ch, lookup (removelast q) n = Some (Dir ch)) ->
  (forall ch, lookup q n <> Some (Dir ch)) ->
  exists n', write_file q c0 n = inr n'.
Proof.
  induction q as [|a q' IH]; intros n [ch P] N.
  - simpl in P. inversion P; subst. exfalso. now apply (N ch).
  - destruct q' as [|b q''].
    + simpl in P. inversion P; subst. simpl.
      destruct (child_get a ch) as [[c|ch']|] eqn:G; eauto.
      exfalso. apply (N ch'). simpl. now rewrite G.
    + change (removelast (a :: b :: q'')) with (a :: removelast (b :: q''))
        in P.
      destruct n as [c|ch0]; [simpl in P; discriminate|].
      simpl in P. rewrite write_file_cons.
      destruct (child_get a ch0) as [ca|] eqn:G; [|discriminate].
      destruct (IH ca) as [n' W].
      * eauto.
      * intros ch' L. apply (N ch'). simpl. now rewrite G.
      * rewrite W. eauto.
Qed.

(** ** The fate of an entry does not depend on the order *)

Section Order.

Variable env : Env.
Variable ow : bool.
Variable bt : ppath.

Local Abbreviation loc rel := (parts (abs_path env bt rel)).
Local Abbreviation name rel := (abs_text env bt rel).

Lemma outcome_records contents s rel isd s' :
  outcome env ow contents bt s rel isd s' ->
  records (classify env ow bt (st_fs s) (rel, isd)) (name rel) s s'.
Proof.
  intros O. unfold classify. cbn [fst snd]. unfold exists_.
  destruct O as [fs' M|e M|x W L|e G M|fs1 fs2 G M W|fs1 e G M W].
  - rewrite M. cbn. auto.
  - rewrite M. cbn. rewrite map_app. auto.
  - rewrite L, W. cbn. auto.
  - assert (C : (match lookup (loc rel) (st_fs s) with
                 | Some _ => true | None => false end && negb ow) = false)
      by (destruct G as [->| ->]; [apply andb_false_r|reflexivity]).
    rewrite C, M. cbn. rewrite map_app. auto.
  - assert (C : (match lookup (loc rel) (st_fs s) with
                 | Some _ => true | None => false end && negb ow) = false)
      by (destruct G as [->| ->]; [apply andb_false_r|reflexivity]).
    rewrite C, M.
    destruct (lookup (loc rel) fs1) as [[c|ch]|] eqn:L; cbn; auto.
    destruct (write_file_on_dir _ (content_for contents rel) _ _ L) as [e E].
    congruence.
  - assert (C : (match lookup (loc rel) (st_fs s) with
                 | Some _ => true | None => false end && negb ow) = false)
      by (destruct G as [->| ->]; [apply andb_false_r|reflexivity]).
    rewrite C, M.
    destruct (mkdir_p_makes_dir _ _ _ M) as [chp Lp].
    destruct (lookup (loc rel) fs1) as [[c|ch]|] eqn:L; cbn;
      rewrite ?map_app; auto.
    + destruct (write_file_succeeds (loc rel) (content_for contents rel) fs1)
        as [n' W']; [eauto|intros ch; congruence|congruence].
    + destruct (write_file_succeeds (loc rel) (content_for contents rel) fs1)
        as [n' W']; [eauto|intros ch; congruence|congruence].
Qed.

Lemma outcome_keeps_kinds contents s rel isd s' :
  outcome env ow contents bt s rel isd s' ->
  keeps_kinds (st_fs s) (st_fs s').
Proof.
  intros O q x L.
  assert (Same : exists x',
             lookup q (st_fs s) = Some x' /\ is_dir x' = is_dir x)
    by eauto.
  destruct O as [fs' M|e M|y W Ly|e G M|fs1 fs2 G M W|fs1 e G M W];
    cbn [record_created record_skipped record_error st_fs]; try exact Same.
  - eapply mkdir_p_kind; eassumption.
  - destruct (mkdir_p_kind _ _ _ _ _ M L) as (x1 & L1 & K1).
    destruct (write_file_kind _ _ _ _ _ _ W L1) as (x2 & L2 & K2).
    exists x2. split; [assumption|congruence].
  - eapply mkdir_p_kind; eassumption.
Qed.

Lemma keeps_kinds_trans a b c :
  keeps_kinds a b -> keeps_kinds b c -> keeps_kinds a c.
Proof.
  intros H1 H2 q x L. destruct (H1 q x L) as (y & Ly & Ky).
  destruct (H2 q y Ly) as (z & Lz & Kz). exists z. split; congruence.
Qed.

Lemma removelast_prefix (p q t : location) :
  q <> [] -> removelast p = q ++ t -> exists t', p = q ++ t' /\ t' <> [].
Proof.
  intros Nq E. destruct p as [|a p'] using rev_ind.
  - simpl in E. destruct q; [congruence|discriminate].
  - rewrite removelast_last in E. subst p'. exists (t ++ [a]).
    split; [now rewrite app_assoc|]. intros X. now destruct t.
Qed.

(** What the round for [(rel, isd)] adds. *)
Lemma outcome_new contents s rel isd s' q x :
  outcome env ow contents bt s rel isd s' ->
  lookup q (st_fs s) = None -> lookup q (st_fs s') = Some x ->
  exists t, loc rel = q ++ t /\
            (t = [] -> isd = is_dir x) /\ (is_dir x = false -> t = []).
Proof.
  intros O L0 L1.
  assert (Nq : q <> []) by (intros ->; simpl in L0; discriminate).
  assert (Par : forall fs1 y,
             mkdir_p (removelast (loc rel)) (st_fs s) = inr fs1 ->
             lookup q fs1 = Some y -> is_dir x = is_dir y ->
             exists t, loc rel = q ++ t /\
                       (t = [] -> isd = is_dir x) /\
                       (is_dir x = false -> t = [])).
  { intros fs1 y M Ly K. destruct (mkdir_p_new _ _ _ _ _ M L0 Ly) as [D [t E]].
    destruct (removelast_prefix _ _ _ Nq E) as (t' & E' & Nt).
    exists t'. split; [assumption|]. split; [congruence|congruence]. }
  destruct O as [fs' M|e M|y W Ly|e G M|fs1 fs2 G M W|fs1 e G M W];
    cbn [record_created record_skipped record_error st_fs] in L1;
    try congruence.
  - destruct (mkdir_p_new _ _ _ _ _ M L0 L1) as [D [t E]].
    exists t. split; [assumption|]. split; congruence.
  - destruct (lookup q fs1) as [y|] eqn:Ly.
    + destruct (write_file_kind _ _ _ _ _ _ W Ly) as (x2 & L2 & K2).
      eapply Par; try eassumption. congruence.
    + destruct (write_file_new _ _ _ _ _ _ W Ly L1) as [-> ->].
      exists []. rewrite app_nil_r. auto.
  - eapply Par; try eassumption. reflexivity.
Qed.

Variable fs0 : node.
Variable all : list (pystr * bool).
Hypothesis leaves : leaf_files env bt all.

Local Abbreviation reached := (reached env bt fs0).

Lemma reached_step contents done s rel isd s' :
  reached done (st_fs s) ->
  outcome env ow contents bt s rel isd s' ->
  reached ((rel, isd) :: done) (st_fs s').
Proof.
  intros [K N] O. split.
  - eapply keeps_kinds_trans; [exact K|].
    eapply outcome_keeps_kinds; eassumption.
  - intros q x L1 L0. destruct (lookup q (st_fs s)) as [y|] eqn:Ly.
    + destruct (outcome_keeps_kinds _ _ _ _ _ O q y Ly) as (x' & Lx & Kx).
      rewrite L1 in Lx. inversion Lx; subst x'.
      destruct (N q y Ly L0) as (rel0 & isd0 & t & I & E & T1 & T2).
      exists rel0, isd0, t. split; [now right|]. split; [assumption|].
      rewrite Kx. auto.
    + destruct (outcome_new _ _ _ _ _ _ _ O Ly L1) as (t & E & T1 & T2).
      exists rel, isd, t. split; [now left|]. auto.
Qed.

Section Agree.

Variable done : list (pystr * bool).
Variable fs : node.
Hypothesis R : reached done fs.
Hypothesis Hdone : incl done all.

Local Abbreviation pending := (pending env bt all done).

Lemma not_done rel isd rel0 isd0 :
  pending rel isd -> In (rel0, isd0) done -> loc rel0 <> loc rel.
Proof.
  intros [Hin Hnot] I E. apply Hnot. apply in_map_iff. exists (rel0, isd0).
  split; [|assumption]. cbn [fst]. unfold abs_text, path_str.
  now rewrite E.
Qed.

Lemma file_on_the_way rel isd k c :
  pending rel isd ->
  lookup (firstn k (loc rel)) fs = Some (File c) ->
  exists c0, lookup (firstn k (loc rel)) fs0 = Some (File c0).
Proof.
  destruct R as [K N]. intros Pe L. pose proof Pe as [Hin Hnot].
  destruct (lookup (firstn k (loc rel)) fs0) as [x0|] eqn:L0.
  - destruct (K _ _ L0) as (x' & Lx & Kx). rewrite L in Lx.
    inversion Lx; subst x'. destruct x0; [eauto|discriminate].
  - destruct (N _ _ L L0) as (rel0 & isd0 & t & I & E & T1 & T2).
    rewrite (T2 eq_refl) in *. rewrite app_nil_r in E.
    rewrite (T1 eq_refl) in I. cbn [is_dir] in I.
    exfalso. apply (not_done _ _ _ _ Pe I).
    assert (S : skipn k (loc rel) = []).
    { apply (leaves rel0 rel isd (skipn k (loc rel)) (Hdone _ I) Hin).
      rewrite E. symmetry. apply firstn_skipn. }
    rewrite E. rewrite <- (firstn_skipn k (loc rel)) at 2.
    rewrite S. now rewrite app_nil_r.
Qed.

Lemma mkdir_agrees rel isd pp :
  pending rel isd ->
  (exists j, pp = firstn j (loc rel)) ->
  (exists e, mkdir_p pp fs = inl e) <-> (exists e, mkdir_p pp fs0 = inl e).
Proof.
  intros Pe [j ->]. destruct R as [K N]. split; intros [e M].
  - destruct (mkdir_p_fails_file _ _ _ M) as (k & c & L).
    rewrite firstn_firstn in L.
    destruct (file_on_the_way _ _ _ _ Pe L) as [c0 L0].
    rewrite <- firstn_firstn in L0.
    eapply mkdir_p_blocked; eassumption.
  - destruct (mkdir_p_fails_file _ _ _ M) as (k & c & L).
    destruct (K _ _ L) as (x' & Lx & Kx).
    destruct x' as [c'|]; [|discriminate].
    eapply mkdir_p_blocked; eassumption.
Qed.

Lemma presence_agrees rel x :
  pending rel false -> lookup (loc rel) fs = Some x ->
  exists x0, lookup (loc rel) fs0 = Some x0 /\ is_dir x0 = is_dir x.
Proof.
  intros Pe L. pose proof Pe as [Hin Hnot]. destruct R as [K N].
  destruct (lookup (loc rel) fs0) as [x0|] eqn:L0.
  - destruct (K _ _ L0) as (x' & Lx & Kx). rewrite L in Lx.
    inversion Lx; subst x'. eauto.
  - destruct (N _ _ L L0) as (rel0 & isd0 & t & I & E & T1 & T2).
    exfalso. apply (not_done _ _ _ _ Pe I).
    rewrite (leaves rel rel0 isd0 t Hin (Hdone _ I) E) in E.
    now rewrite app_nil_r in E.
Qed.

Lemma classify_agrees rel isd :
  pending rel isd ->
  classify env ow bt fs (rel, isd) = classify env ow bt fs0 (rel, isd).
Proof.
  intros Pe. pose proof R as [K N].
  unfold classify. cbn [fst snd]. destruct isd.
  - destruct (mkdir_agrees rel true (loc rel) Pe) as [A B];
      [exists (length (loc rel)); now rewrite firstn_all|].
    destruct (mkdir_p (loc rel) fs) as [e|n] eqn:M;
      destruct (mkdir_p (loc rel) fs0) as [e0|n0] eqn:M0; try reflexivity.
    + destruct A as [e' E']; [eauto|discriminate].
    + destruct B as [e' E']; [eauto|discriminate].
  - assert (Ex : exists_ (loc rel) fs = exists_ (loc rel) fs0).
    { unfold exists_. destruct (lookup (loc rel) fs) as [x|] eqn:L.
      - destruct (presence_agrees _ x Pe L) as (x0 & L0 & _).
        now rewrite L0.
      - destruct (lookup (loc rel) fs0) as [x0|] eqn:L0; [|reflexivity].
        destruct (K _ _ L0) as (x' & Lx & _). congruence. }
    rewrite Ex. destruct (exists_ (loc rel) fs0 && negb ow); [reflexivity|].
    destruct (mkdir_agrees rel false (removelast (loc rel)) Pe) as [A B].
    { exists (pred (length (loc rel))). apply removelast_firstn_len. }
    destruct (mkdir_p (removelast (loc rel)) fs) as [e|fs1] eqn:M;
      destruct (mkdir_p (removelast (loc rel)) fs0) as [e0|fs01] eqn:M0;
      try reflexivity.
    + destruct A as [e' E']; [eauto|discriminate].
    + destruct B as [e' E']; [eauto|discriminate].
    + assert (Back : forall a a1 x1,
                 mkdir_p (removelast (loc rel)) a = inr a1 ->
                 lookup (loc rel) a1 = Some x1 ->
                 exists x, lookup (loc rel) a = Some x /\ is_dir x = is_dir x1).
      { intros a a1 x1 Ma L1.
        destruct (lookup (loc rel) a) as [x|] eqn:La.
        - destruct (mkdir_p_kind _ _ _ _ _ Ma La) as (x' & Lx & Kx).
          rewrite L1 in Lx. inversion Lx; subst. eauto.
        - exfalso. destruct (mkdir_p_new _ _ _ _ _ Ma La L1) as [_ [t E]].
          assert (Nq : loc rel <> [])
            by (intros X; rewrite X in La; simpl in La; discriminate).
          destruct (removelast_prefix _ _ _ Nq E) as (t' & E' & Nt).
          apply Nt. apply (f_equal (@length pystr)) in E'.
          rewrite length_app in E'. destruct t'; [reflexivity|].
          simpl in E'. lia. }
      destruct (lookup (loc rel) fs1) as [x1|] eqn:L1;
        destruct (lookup (loc rel) fs01) as [x01|] eqn:L01.
      * destruct (Back _ _ _ M L1) as (x & Lx & Kx).
        destruct (Back _ _ _ M0 L01) as (y & Ly & Ky).
        destruct (presence_agrees _ x Pe Lx) as (y' & Ly' & Ky').
        rewrite Ly in Ly'. inversion Ly'; subst y'.
        assert (Q : is_dir x1 = is_dir x01) by congruence.
        destruct x1, x01; try reflexivity; discriminate.
      * destruct (Back _ _ _ M L1) as (x & Lx & Kx).
        destruct (presence_agrees _ x Pe Lx) as (y & Ly & Ky).
        destruct (mkdir_p_kind _ _ _ _ _ M0 Ly) as (y1 & Ly1 & _).
        congruence.
      * destruct (Back _ _ _ M0 L01) as (y & Ly & Ky).
        destruct (K _ _ Ly) as (x & Lx & Kx).
        destruct (mkdir_p_kind _ _ _ _ _ M Lx) as (x1' & Lx1 & _).
        congruence.
      * reflexivity.
Qed.

End Agree.

Lemma reached_start : reached [] fs0.
Proof.
  split.
  - intros q x L. eauto.
  - intros q x L L0. congruence.
Qed.

Local Abbreviation fates f paths := (fated env ow bt fs0 f paths).

Lemma fated_cons f e rest :
  fates f (e :: rest)
  = match classify env ow bt fs0 e, f with
    | Created, Created | Skipped, Skipped | Failed, Failed =>
        name (fst e) :: fates f rest
    | _, _ => fates f rest
    end.
Proof.
  unfold fated. cbn [filter].
  destruct (classify env ow bt fs0 e), f; reflexivity.
Qed.

Lemma run_fated contents rest : forall done s s',
  reached done (st_fs s) ->
  incl done all -> incl rest all ->
  NoDup (map (fun e => name (fst e)) rest) ->
  (forall e, In e rest ->
     ~ In (name (fst e)) (map (fun e => name (fst e)) done)) ->
  materialize env ow contents bt rest s = (None, s') ->
  st_created s' = st_created s ++ fates Created rest /\
  st_skipped s' = st_skipped s ++ fates Skipped rest /\
  map fst (st_errors s') = map fst (st_errors s) ++ fates Failed rest.
Proof.
  induction rest as [|[rel isd] rest IH]; intros done s s' R Hd Hr ND Hn H;
    cbn [materialize] in H.
  - inversion H; subst. cbn. now rewrite !app_nil_r.
  - destruct (materialize_entry env ow contents bt s (rel, isd))
      as [s1|] eqn:E; [|discriminate].
    apply step_outcome in E. destruct E as [_ O].
    cbn [map fst] in ND. inversion ND as [|? ? Hx Hrest]; subst.
    assert (Pe : pending env bt all done rel isd).
    { split; [apply Hr; now left|]. apply (Hn (rel, isd)). now left. }
    pose proof (outcome_records _ _ _ _ _ O) as Rec.
    rewrite (classify_agrees done (st_fs s) R Hd rel isd Pe) in Rec.
    destruct (IH ((rel, isd) :: done) s1 s') as (C & S & F).
    + eapply reached_step; eassumption.
    + intros e [<-|He]; [apply Hr; now left|now apply Hd].
    + intros e He. apply Hr. now right.
    + assumption.
    + intros e He [Eq|I].
      * apply Hx. cbn [fst] in Eq. rewrite Eq. apply in_map_iff.
        exists e. split; [reflexivity|assumption].
      * apply (Hn e); [now right|assumption].
    + assumption.
    + rewrite C, S, F, !fated_cons. cbn [fst].
      destruct (classify env ow bt fs0 (rel, isd));
        destruct Rec as (-> & -> & ->); rewrite <- ?app_assoc; auto.
Qed.

End Order.

Lemma fated_perm env ow bt fs f l1 l2 :
  Permutation l1 l2 ->
  forall t, In t (fated env ow bt fs f l1) <-> In t (fated env ow bt fs f l2).
Proof.
  intros P t. unfold fated. rewrite !in_map_iff.
  split; intros (e & E & I); exists e; (split; [assumption|]);
    apply filter_In in I; apply filter_In; destruct I as [I F];
    (split; [|assumption]).
  - eapply Permutation_in; eassumption.
  - eapply Permutation_in; [symmetry|]; eassumption.
Qed.

Lemma leaf_files_perm env bt l1 l2 :
  Permutation l1 l2 -> leaf_files env bt l1 -> leaf_files env bt l2.
Proof.
  intros P L rel rel' isd' t I1 I2. apply (L rel rel' isd' t).
  - eapply Permutation_in; [symmetry|]; eassumption.
  - eapply Permutation_in; [symmetry|]; eassumption.
Qed.

Lemma run_all_fated env ow bt fs0 contents all s' :
  NoDup (map (fun e => abs_text env bt (fst e)) all) ->
  leaf_files env bt all ->
  materialize env ow contents bt all (initial fs0) = (None, s') ->
  st_created s' = fated env ow bt fs0 Created all /\
  st_skipped s' = fated env ow bt fs0 Skipped all /\
  map fst (st_errors s') = fated env ow bt fs0 Failed all.
Proof.
  intros ND L H.
  apply (run_fated env ow bt fs0 all L contents all [] (initial fs0) s');
    try assumption.
  - apply reached_start.
  - intros e [].
  - apply incl_refl.
  - intros e _ [].
Qed.

(** Two live structured requests with the same target and overwrite flag
    whose data parse to the same entries in the same order leave the same
    filesystem and agree on [created], [skipped] and [errors], or raise the
    same exception; and for data that parse to [es], the flat document
    listing [es] in order, with the same types and contents, parses to [es]
    as well. *)
Lemma same_entries_same_run :
  forall (rt : Runtime) (env : Env) (fs : node) (rq1 rq2 : Request)
         (d1 d2 : value) (es : list entry),
    dry_run rq1 = false -> dry_run rq2 = false ->
    overwrite rq1 = overwrite rq2 ->
    target_path rq1 = target_path rq2 ->
    request_data rt rq1 = Ok d1 -> request_data rt rq2 = Ok d2 ->
    parse_yaml_or_json rt d1 = Ok es ->
    parse_yaml_or_json rt d2 = Ok es ->
    parse_yaml_or_json rt (flat_of es) = Ok es /\
    snd (scaffold_project rt env fs rq1) = snd (scaffold_project rt env fs rq2)
    /\
    match fst (scaffold_project rt env fs rq1),
          fst (scaffold_project rt env fs rq2) with
    | Ok r1, Ok r2 =>
        created r1 = created r2 /\ skipped r1 = skipped r2 /\
        errors r1 = errors r2
    | Raise e1, Raise e2 => e1 = e2
    | _, _ => False
    end.
Proof.
  intros rt env fs rq1 rq2 d1 d2 es D1 D2 W T L1 L2 Q1 Q2.
  split; [apply parse_flat_of; eapply parse_added; exact Q1|].
  unfold scaffold_project, prepare. rewrite D1, D2.
  rewrite (parse_prompt_structured _ _ _ _ L1 Q1).
  rewrite (parse_prompt_structured _ _ _ _ L2 Q2).
  rewrite <- T, <- W.
  destruct (MCP_SCAFFOLDER_BASE env) as [[|c b]|]; cbn [fst snd];
    try (split; reflexivity).
  destruct (negb _); cbn [fst snd]; [split; reflexivity|].
  cbn [bind]. destruct (safe_join _ _ _) as [t|e]; cbn [bind fst snd];
    [|split; reflexivity].
  destruct (materialize _ _ _ _ _ _) as [[e|] s]; cbn [fst snd payload];
    split; try reflexivity.
  cbn. auto.
Qed.

Example same_entries_same_run_example :
  let es := [(u "a", false, Some (u "x")); (u "a/b", false, Some (u "y"))] in
  parse_yaml_or_json examples_runtime (flat_of es) = Ok es /\
  snd (scaffold_project examples_runtime env0 fs0 (json_request nested_text))
  = snd (scaffold_project examples_runtime env0 fs0
           (json_request flat_same_order_text)).
Proof.
  cbv zeta.
  assert (L1 : request_data examples_runtime (json_request nested_text)
               = Ok nested_doc) by (vm_compute; reflexivity).
  assert (L2 : request_data examples_runtime
                 (json_request flat_same_order_text)
               = Ok (flat_of [(u "a", false, Some (u "x"));
                              (u "a/b", false, Some (u "y"))]))
    by (vm_compute; reflexivity).
  assert (Q1 : parse_yaml_or_json examples_runtime nested_doc
               = Ok [(u "a", false, Some (u "x"));
                     (u "a/b", false, Some (u "y"))])
    by (vm_compute; reflexivity).
  assert (Q2 : parse_yaml_or_json examples_runtime
                 (flat_of [(u "a", false, Some (u "x"));
                           (u "a/b", false, Some (u "y"))])
               = Ok [(u "a", false, Some (u "x"));
                     (u "a/b", false, Some (u "y"))])
    by (vm_compute; reflexivity).
  destruct (same_entries_same_run examples_runtime env0 fs0
              (json_request nested_text) (json_request flat_same_order_text)
              _ _ _ eq_refl eq_refl eq_refl eq_refl L1 L2 Q1 Q2)
    as (F & S & _).
  split; assumption.
Qed.

Lemma stat_walk_extends fs fs' ps : forall cur x,
  extends fs fs' -> stat_walk fs cur ps = Some x ->
  exists x', stat_walk fs' cur ps = Some x'.
Proof.
  induction ps as [|c r IH]; intros cur x E H; cbn [stat_walk] in *.
  - destruct (E _ _ H) as (x' & L & _). eauto.
  - destruct (lookup cur fs) as [[c0|ch]|] eqn:L; try discriminate.
    destruct (E _ _ L) as (x' & L' & [ch' ->]). rewrite L'.
    eapply IH; eassumption.
Qed.

Lemma prepare_extends rt env fs fs' rq job :
  extends fs fs' -> prepare rt env fs rq = Ok job ->
  prepare rt env fs' rq = Ok job.
Proof.
  intros E. unfold prepare.
  destruct (MCP_SCAFFOLDER_BASE env) as [[|c b]|]; try discriminate.
  unfold path_exists.
  destruct (stat_walk fs _ _) as [x|] eqn:S; [|discriminate].
  destruct (stat_walk_extends _ _ _ _ _ E S) as [x' ->]. auto.
Qed.

(** ** Nested mappings with plain keys *)

Lemma plain_cons k v r :
  plain ((k, v) :: r) <->
  name_ok k /\ ~ In k (map fst r) /\ plain_value v /\ plain r.
Proof. reflexivity. Qed.

Lemma key_paths_item_dict pre k m :
  key_paths_item pre k (VDict m)
  = (pre ++ [k], true) :: key_paths (pre ++ [k]) m.
Proof.
  cbn [key_paths_item]. f_equal. unfold key_paths.
  induction m as [|[k' v'] r IH]; [reflexivity|].
  cbn [flat_map fst snd]. now rewrite <- IH.
Qed.

Lemma key_paths_item_leaf pre k v :
  (forall m, v <> VDict m) -> key_paths_item pre k v = [(pre ++ [k], false)].
Proof.
  intros N. destruct v; try reflexivity. exfalso. now apply (N items).
Qed.

Lemma key_paths_cons pre k v r :
  key_paths pre ((k, v) :: r) = key_paths_item pre k v ++ key_paths pre r.
Proof. reflexivity. Qed.

Lemma tree_like_app pre keys1 keys2 l1 l2 :
  through pre keys1 l1 -> through pre keys2 l2 ->
  (forall k, In k keys1 -> ~ In k keys2) ->
  tree_like l1 -> tree_like l2 -> tree_like (l1 ++ l2).
Proof.
  intros T1 T2 D [N1 L1] [N2 L2].
  assert (Cross : forall ks1 i1 ks2 i2 t,
            In (ks1, i1) l1 -> In (ks2, i2) l2 ->
            ks2 = ks1 ++ t \/ ks1 = ks2 ++ t -> False).
  { intros ks1 i1 ks2 i2 t I1 I2 E.
    destruct (T1 _ _ I1) as (k1 & t1 & K1 & -> & _).
    destruct (T2 _ _ I2) as (k2 & t2 & K2 & -> & _).
    apply (D k1 K1).
    destruct E as [E|E]; rewrite <- app_assoc in E;
      apply app_inv_head in E; simpl in E; inversion E; subst; assumption. }
  split.
  - rewrite map_app. apply NoDup_app; try assumption.
    intros ks I1 I2. apply in_map_iff in I1, I2.
    destruct I1 as ([ks1 i1] & <- & I1), I2 as ([ks2 i2] & E2 & I2).
    cbn [fst] in *. apply (Cross ks1 i1 ks2 i2 [] I1 I2).
    left. now rewrite app_nil_r.
  - intros ks ks' isd' t I I' E.
    apply in_app_or in I, I'. destruct I as [I|I], I' as [I'|I'].
    + eapply L1; eassumption.
    + exfalso. eapply (Cross ks false ks' isd' t); eauto.
    + exfalso. eapply (Cross ks' isd' ks false t); eauto.
    + eapply L2; eassumption.
Qed.

Lemma tree_like_under pre k l :
  (forall ks isd, In (ks, isd) l ->
     exists k' t, ks = (pre ++ [k]) ++ k' :: t) ->
  tree_like l -> tree_like ((pre ++ [k], true) :: l).
Proof.
  intros Th [N L]. split.
  - cbn [map fst]. constructor; [|assumption].
    intros I. apply in_map_iff in I. destruct I as ([ks isd] & E & I).
    cbn [fst] in E. subst ks. destruct (Th _ _ I) as (k' & t & E).
    rewrite <- (app_nil_r (pre ++ [k])) in E at 1.
    apply app_inv_head in E. discriminate.
  - intros ks ks' isd' t I I' E. destruct I as [I|I]; [inversion I|].
    destruct I' as [I'|I']; [|eapply L; eassumption].
    inversion I'; subst. destruct (Th _ _ I) as (k' & t' & ->).
    rewrite <- (app_nil_r (pre ++ [k])) in H0 at 1.
    rewrite <- !app_assoc in H0. apply app_inv_head in H0.
    apply app_inv_head in H0. discriminate.
Qed.

Lemma items_ok m : forall pre,
  Forall (fun kv => item_ok (snd kv)) m -> plain m ->
  through pre (map fst m) (key_paths pre m) /\ tree_like (key_paths pre m).
Proof.
  induction m as [|[k v] r IH]; intros pre F P.
  - split; [intros ks isd []|]. split; [constructor|intros ? ? ? ? []].
  - apply plain_cons in P. destruct P as (Hk & Nk & Pv & Pr).
    inversion F as [|? ? Hv Hr]; subst. cbn [snd] in Hv.
    destruct (Hv pre k Pv Hk) as [T1 L1].
    destruct (IH pre Hr Pr) as [T2 L2].
    rewrite key_paths_cons. split.
    + intros ks isd I. apply in_app_or in I. destruct I as [I|I].
      * destruct (T1 _ _ I) as (k1 & t & [<-|[]] & E & C).
        exists k, t. split; [now left|]. auto.
      * destruct (T2 _ _ I) as (k1 & t & K1 & E & C).
        exists k1, t. split; [now right|]. auto.
    + eapply tree_like_app; try eassumption.
      intros k1 [<-|[]]. exact Nk.
Qed.

Lemma item_ok_all v : item_ok v.
Proof.
  induction v as [v N|m IH] using value_dict_ind; intros pre k Pv Hk.
  - rewrite key_paths_item_leaf by assumption. split; [|split].
    + intros ks isd [E|[]]. inversion E; subst. exists k, [].
      split; [now left|]. split; [reflexivity|].
      constructor; [assumption|constructor].
    + repeat constructor. intros [].
    + intros ks ks' isd' t [E|[]] [E'|[]] Eq.
      assert (E1 : ks = pre ++ [k]) by congruence.
      assert (E2 : ks' = pre ++ [k]) by congruence.
      rewrite E1, E2 in Eq. rewrite <- (app_nil_r (pre ++ [k])) in Eq at 1.
      apply app_inv_head in Eq. congruence.
  - rewrite key_paths_item_dict.
    destruct (items_ok m (pre ++ [k]) IH Pv) as [T L]. split.
    + intros ks isd [E|I].
      * inversion E; subst. exists k, []. split; [now left|].
        split; [reflexivity|]. constructor; [assumption|constructor].
      * destruct (T _ _ I) as (k1 & t & K1 & -> & C).
        exists k, (k1 :: t). split; [now left|].
        split; [now rewrite <- app_assoc|]. constructor; assumption.
    + apply tree_like_under; [|assumption].
      intros ks isd I. destruct (T _ _ I) as (k1 & t & _ & -> & _). eauto.
Qed.

Lemma plain_key_paths m :
  plain m ->
  through [] (map fst m) (key_paths [] m) /\ tree_like (key_paths [] m).
Proof.
  intros P. apply items_ok; [|assumption].
  apply Forall_forall. intros kv _. apply item_ok_all.
Qed.

Lemma split_from_app sep a : forall acc b,
  split_from sep acc (a ++ sep :: b) = split_from sep acc a ++ split sep b.
Proof.
  induction a as [|c a IH]; intros acc b; simpl.
  - now rewrite N.eqb_refl.
  - destruct (c =? sep)%N; [now rewrite IH|apply IH].
Qed.

Lemma path_parts_app a b :
  path_parts (a ++ SLASH :: b) = path_parts a ++ path_parts b.
Proof.
  unfold path_parts, split. rewrite split_from_app. apply filter_app.
Qed.

Lemma path_parts_name k : name_ok k -> path_parts k = [k].
Proof.
  intros (N1 & N2 & N3 & _). unfold path_parts, split.
  rewrite split_from_plain by assumption.
  change (rev (@nil N) ++ k) with k. cbn [filter].
  apply str_eqb_neq in N1, N3. now rewrite N1, N3.
Qed.

Lemma path_anchor_head c s :
  path_anchor (c :: s) = 0 <-> c <> SLASH.
Proof.
  unfold path_anchor. cbn [takewhile].
  destruct (N.eqb_spec SLASH c) as [<-|D].
  - cbn [length]. split; [|congruence].
    destruct (length (takewhile (N.eqb SLASH) s)) as [|[|n]]; discriminate.
  - split; [congruence|reflexivity].
Qed.

Lemma rstrip_clean_end a k :
  k <> [] -> ~ In SLASH k -> rstrip_chars [SLASH] (a ++ k) = a ++ k.
Proof.
  intros N S. unfold rstrip_chars, rstrip_by.
  destruct (exists_last N) as (k' & c & ->).
  assert (D : mem c [SLASH] = false).
  { unfold mem. cbn [existsb]. rewrite orb_false_r. apply N.eqb_neq.
    intros ->. apply S, in_or_app. right. now left. }
  rewrite app_assoc, rev_app_distr.
  change (rev [c] ++ rev (a ++ k')) with (c :: rev (a ++ k')).
  cbn [dropwhile]. rewrite D. cbn [rev]. now rewrite rev_involutive.
Qed.

Lemma child_plain prefix k :
  path_anchor prefix = 0 -> name_ok k ->
  path_parts (child prefix k) = path_parts prefix ++ [k] /\
  path_anchor (child prefix k) = 0 /\
  rstrip_chars [SLASH] (child prefix k) = child prefix k.
Proof.
  intros A Hk. pose proof Hk as (N1 & N2 & _).
  assert (Hd : path_anchor k = 0).
  { destruct k as [|c k']; [congruence|]. apply path_anchor_head.
    intros ->. apply N2. now left. }
  destruct prefix as [|c p].
  - cbn [child]. split; [now apply path_parts_name|]. split; [assumption|].
    now apply (rstrip_clean_end []).
  - cbn [child]. split; [|split].
    + change ((c :: p) ++ [SLASH] ++ k) with ((c :: p) ++ SLASH :: k).
      rewrite path_parts_app. now rewrite (path_parts_name k Hk).
    + apply path_anchor_head. now apply path_anchor_head in A.
    + rewrite app_assoc. now apply rstrip_clean_end.
Qed.

Section PlainWalk.

Variable rt : Runtime.

Local Abbreviation item_keys := (item_keys rt).

Lemma items_keys m : forall prefix,
  Forall (fun kv => item_keys (snd kv)) m -> plain m ->
  path_anchor prefix = 0 ->
  map entry_key (walk rt prefix m) = key_paths (path_parts prefix) m /\
  Forall (fun e : entry => path_anchor (fst (fst e)) = 0) (walk rt prefix m).
Proof.
  induction m as [|[k v] r IH]; intros prefix F P A.
  - split; [reflexivity|constructor].
  - apply plain_cons in P. destruct P as (Hk & _ & Pv & Pr).
    inversion F as [|? ? Hv Hr]; subst. cbn [snd] in Hv.
    destruct (Hv prefix k Pv Hk A) as [E1 F1].
    destruct (IH prefix Hr Pr A) as [E2 F2].
    unfold walk in *. cbn [flat_map fst snd]. rewrite key_paths_cons.
    split.
    + rewrite map_app. now rewrite E1, E2.
    + apply Forall_app. now split.
Qed.

Lemma item_keys_all v : item_keys v.
Proof.
  induction v as [v N|m IH] using value_dict_ind; intros prefix k Pv Hk A;
    destruct (child_plain prefix k A Hk) as (C1 & C2 & C3).
  - rewrite walk_item_leaf, key_paths_item_leaf by assumption.
    split.
    + cbn [map]. f_equal. unfold add, entry_key. cbn [fst snd].
      now rewrite C3, C1.
    + constructor; [|constructor]. unfold add. cbn [fst]. now rewrite C3.
  - rewrite walk_item_dict, key_paths_item_dict.
    destruct (items_keys m (child prefix k) IH Pv C2) as [E F].
    split.
    + cbn [map]. rewrite E, C1. f_equal.
      unfold add, entry_key. cbn [fst snd]. now rewrite C3, C1.
    + constructor; [|assumption]. unfold add. cbn [fst]. now rewrite C3.
Qed.

Lemma walk_key_paths m :
  plain m ->
  map entry_key (walk rt [] m) = key_paths [] m /\
  Forall (fun e : entry => path_anchor (fst (fst e)) = 0) (walk rt [] m).
Proof.
  intros P. apply (items_keys m []); [|assumption|reflexivity].
  apply Forall_forall. intros kv _. apply item_keys_all.
Qed.

End PlainWalk.

Lemma abs_parts_relative env bt rel :
  resolved bt -> path_anchor rel = 0 -> clean (path_parts rel) ->
  parts (abs_path env bt rel) = parts bt ++ path_parts rel.
Proof.
  intros R A C. unfold abs_path. rewrite (resolve_id _ _ R).
  unfold path_join. rewrite A. unfold resolve. cbn [anchor parts].
  destruct R as [-> Cb]. rewrite walk_parts_id; [reflexivity|].
  apply Forall_app. now split.
Qed.

Lemma NoDup_map_via {A B C} (f : A -> B) (g : A -> C) l :
  NoDup (map g l) ->
  (forall x y, In x l -> In y l -> f x = f y -> g x = g y) ->
  NoDup (map f l).
Proof.
  induction l as [|a r IH]; intros N H; [constructor|].
  cbn [map] in *. inversion N as [|? ? Na Nr]; subst. constructor.
  - intros I. apply in_map_iff in I. destruct I as (y & E & Iy).
    apply Na. apply in_map_iff. exists y. split; [|assumption].
    symmetry. apply H; [now left|now right|now symmetry].
  - apply IH; [assumption|]. intros x y Ix Iy. apply H; now right.
Qed.

(** The entries of a nested mapping with plain keys, under a resolved
    target, have pairwise distinct confined paths, and no file entry is on
    the way to another entry. *)
Lemma plain_mapping_paths rt env bt m :
  resolved bt -> plain m ->
  NoDup (map (fun e => abs_text env bt (fst e))
             (entry_paths (walk rt [] m))) /\
  leaf_files env bt (entry_paths (walk rt [] m)).
Proof.
  intros R P.
  destruct (walk_key_paths rt m P) as [E F].
  destruct (plain_key_paths m P) as [T [ND Lf]].
  assert (Mem : forall rel isd, In (rel, isd) (entry_paths (walk rt [] m)) ->
            In (path_parts rel, isd) (key_paths [] m) /\
            parts (abs_path env bt rel) = parts bt ++ path_parts rel).
  { intros rel isd I. unfold entry_paths in I. apply in_map_iff in I.
    destruct I as (en & Een & I). inversion Een; subst.
    assert (K : In (entry_key en) (key_paths [] m))
      by (rewrite <- E; now apply in_map).
    split; [exact K|].
    rewrite Forall_forall in F.
    apply abs_parts_relative; [assumption|now apply F|].
    destruct (T _ _ K) as (k & t & _ & Eq & C). cbn [app] in Eq.
    unfold entry_key in Eq. cbn [fst] in Eq. now rewrite Eq. }
  split.
  - apply (NoDup_map_via _ (fun e : pystr * bool => path_parts (fst e))).
    + unfold entry_paths. rewrite map_map. cbn [fst].
      rewrite <- E in ND. rewrite map_map in ND. exact ND.
    + intros [r1 i1] [r2 i2] I1 I2 Eq. cbn [fst] in *.
      destruct (Mem _ _ I1) as [_ A1]. destruct (Mem _ _ I2) as [_ A2].
      apply (f_equal path_parts) in Eq.
      rewrite !(abs_text_parts _ _ _ R), A1, A2 in Eq.
      now apply app_inv_head in Eq.
  - intros rel rel' isd' t I I' Eq.
    destruct (Mem _ _ I) as [K A]. destruct (Mem _ _ I') as [K' A'].
    rewrite A, A', <- app_assoc in Eq. apply app_inv_head in Eq.
    eapply Lf; eassumption.
Qed.

(** A structured request whose data is a nested mapping with plain keys
    has entries with pairwise distinct confined paths, none of them a file
    on the way to another. *)
Lemma plain_request_paths rt env fs rq job data m :
  prepare rt env fs rq = Ok job ->
  request_data rt rq = Ok data ->
  nested_mapping data = Some m ->
  plain m ->
  NoDup (map (fun e => abs_text env (job_target job) (fst e))
             (job_paths job)) /\
  leaf_files env (job_target job) (job_paths job).
Proof.
  intros P L Nm Pl.
  destruct (prepare_structured _ _ _ _ _ _ _ P L (parse_nested rt _ _ Nm))
    as [-> _].
  destruct (prepare_inv _ _ _ _ _ P) as (b & B & _).
  destruct (prepare_target _ _ _ _ _ _ B P) as [R _].
  now apply plain_mapping_paths.
Qed.

(** The test of [safe_join] compares texts: a sibling of the base whose
    name starts with the name of the base passes it, and the live run
    writes there. *)
Example sibling_passes_the_prefix_test :
  let fs := Dir [(u "srv", Dir [(u "base", Dir []); (u "base2", Dir [])]);
                 (u "home", Dir [(u "me", Dir [])])] in
  let rq := {| prompt := u "x.txt"; target_path := u "../base2";
               req_mode := Tree; overwrite := false; dry_run := false |} in
  exists r fs',
    scaffold_project (table_runtime []) env0 fs rq = (Ok r, fs') /\
    created r = [u "/srv/base2/x.txt"] /\
    lookup [u "srv"; u "base2"; u "x.txt"] fs' = Some (File []).
Proof.
  cbv zeta. do 2 eexists. split; [vm_compute; reflexivity|].
  split; reflexivity.
Qed.

(** A nested mapping whose top-level directory is called [root] is not
    read as a nested mapping: the request raises. *)
Example root_directory_is_rejected :
  nested_mapping rooted_doc = None /\
  scaffold_project examples_runtime env0 fs0 (json_request rooted_text)
  = (Raise (SpecError
              (u "Failed to parse prompt as json: YAML/JSON flat shape requires 'entries' list.")),
     fs0).
Proof.
  split; [reflexivity|]. vm_compute. reflexivity.
Qed.

(** ** Entries that fail *)

Lemma split_at_first_false {A} (P : A -> bool) (l : list A) (x : A) :
  In x l -> P x = false ->
  exists pre y post,
    l = pre ++ y :: post /\ Forall (fun e => P e = true) pre /\
    P y = false /\ In x (y :: post).
Proof.
  induction l as [|a r IH]; intros I F; [destruct I|].
  destruct (P a) eqn:Pa.
  - destruct I as [->|I]; [congruence|].
    destruct (IH I F) as (pre & y & post & -> & Fp & Py & Iy).
    exists (a :: pre), y, post. repeat split; try assumption.
    now constructor.
  - exists [], a, r. repeat split; try assumption. constructor.
Qed.

Lemma blocked_mkdir env bt fs rel isd :
  blocked env bt fs (rel, isd) ->
  exists e,
    mkdir_p (if isd then parts (abs_path env bt rel)
             else removelast (parts (abs_path env bt rel))) fs = inl e.
Proof.
  intros (k & c & Hk & L). cbn [fst snd] in *. destruct isd.
  - eapply mkdir_p_blocked; exact L.
  - specialize (Hk eq_refl).
    rewrite <- (@firstn_removelast _ k _ Hk) in L.
    eapply mkdir_p_blocked; exact L.
Qed.

Lemma blocked_absent env bt fs rel :
  blocked env bt fs (rel, false) ->
  lookup (parts (abs_path env bt rel)) fs = None.
Proof.
  intros (k & c & Hk & L). cbn [fst snd] in *. specialize (Hk eq_refl).
  rewrite <- (firstn_skipn k (parts (abs_path env bt rel))).
  rewrite lookup_app, L.
  destruct (skipn k (parts (abs_path env bt rel))) as [|a t] eqn:S;
    [|reflexivity].
  exfalso. apply (f_equal (@length _)) in S. rewrite length_skipn in S.
  cbn [length] in S. lia.
Qed.

Lemma blocked_extends env bt fs fs' e :
  extends fs fs' -> blocked env bt fs e -> blocked env bt fs' e.
Proof.
  intros E (k & c & Hk & L). destruct (E _ _ L) as (x' & L' & P').
  simpl in P'. subst x'. exists k, c. split; assumption.
Qed.

(** Without overwriting, an opened file is written: the round of a file
    entry fails only at its parent. *)
Lemma write_after_mkdir q c0 fs fs1 :
  lookup q fs = None -> mkdir_p (removelast q) fs = inr fs1 ->
  exists fs2, write_file q c0 fs1 = inr fs2.
Proof.
  intros L0 M. destruct (mkdir_p_makes_dir _ _ _ M) as [chp Lp].
  apply write_file_succeeds; [eauto|].
  intros ch L1.
  destruct (mkdir_p_new _ _ _ _ _ M L0 L1) as [_ [t E]].
  assert (Nq : q <> [])
    by (intros X; rewrite X in L0; simpl in L0; discriminate).
  destruct (removelast_prefix _ _ _ Nq E) as (t' & E' & Nt).
  apply Nt. apply (f_equal (@length pystr)) in E'.
  rewrite length_app in E'. destruct t'; [reflexivity|]. simpl in E'. lia.
Qed.

Lemma outcome_error_blocked env contents bt s rel isd s' t :
  outcome env false contents bt s rel isd s' ->
  In t (map fst (st_errors s')) ->
  In t (map fst (st_errors s)) \/
  (t = abs_text env bt rel /\ blocked env bt (st_fs s') (rel, isd)).
Proof.
  intros O I.
  destruct O as [fs' M|e M|y W Ly|e G M|fs1 fs2 G M W|fs1 e G M W];
    cbn [record_created record_skipped record_error st_errors st_fs] in *;
    try (left; assumption).
  - rewrite map_app in I. apply in_app_or in I.
    destruct I as [I|[<-|[]]]; [now left|right]. split; [reflexivity|].
    destruct (mkdir_p_fails_file _ _ _ M) as (k & c & L).
    exists k, c. split; [discriminate|exact L].
  - rewrite map_app in I. apply in_app_or in I.
    destruct I as [I|[<-|[]]]; [now left|right]. split; [reflexivity|].
    destruct G as [G|G]; [discriminate|].
    destruct (mkdir_p_fails_file _ _ _ M) as (k & c & L).
    assert (Nq : parts (abs_path env bt rel) <> [])
      by (intros X; rewrite X in G; simpl in G; discriminate).
    assert (Len : length (removelast (parts (abs_path env bt rel)))
                  < length (parts (abs_path env bt rel))).
    { destruct (exists_last Nq) as (l' & a & ->).
      rewrite removelast_last, length_app. simpl. lia. }
    exists (Nat.min k (length (removelast (parts (abs_path env bt rel))))), c.
    cbn [fst snd]. split; [intros _; lia|].
    rewrite <- firstn_removelast by lia.
    destruct (Nat.le_ge_cases k
                (length (removelast (parts (abs_path env bt rel)))))
      as [Le|Ge].
    + now rewrite Nat.min_l.
    + rewrite Nat.min_r by assumption.
      rewrite firstn_all2 in L by assumption. now rewrite firstn_all.
  - exfalso. destruct G as [G|G]; [discriminate|].
    destruct (write_after_mkdir _ (content_for contents rel) _ _ G M)
      as [fs2 W2].
    congruence.
Qed.

Lemma run_error_blocked env contents bt paths : forall s s' t,
  materialize env false contents bt paths s = (None, s') ->
  In t (map fst (st_errors s')) ->
  In t (map fst (st_errors s)) \/
  exists rel isd,
    In (rel, isd) paths /\ t = abs_text env bt rel /\
    blocked env bt (st_fs s') (rel, isd).
Proof.
  induction paths as [|[rel isd] r IH]; intros s s' t H I;
    cbn [materialize] in H.
  - inversion H; subst. now left.
  - destruct (materialize_entry env false contents bt s (rel, isd))
      as [s1|] eqn:E; [|discriminate].
    apply step_outcome in E. destruct E as [_ O].
    destruct (IH _ _ _ H I) as [I1|(rel0 & isd0 & I0 & E0 & B0)].
    + destruct (outcome_error_blocked _ _ _ _ _ _ _ _ O I1) as [I0|[E0 B0]].
      * now left.
      * right. exists rel, isd. split; [now left|]. split; [assumption|].
        eapply blocked_extends; [|exact B0].
        eapply run_extends; [reflexivity|exact H].
    + right. exists rel0, isd0. split; [now right|]. auto.
Qed.

Lemma outcome_errors_grow env ow contents bt s rel isd s' :
  outcome env ow contents bt s rel isd s' ->
  incl (map fst (st_errors s)) (map fst (st_errors s')).
Proof.
  intros O t I. destruct O; cbn [record_created record_skipped record_error
                                  st_errors]; try assumption;
    rewrite map_app; apply in_or_app; now left.
Qed.

Lemma run_errors_grow env ow contents bt paths : forall s s',
  materialize env ow contents bt paths s = (None, s') ->
  incl (map fst (st_errors s)) (map fst (st_errors s')).
Proof.
  induction paths as [|[rel isd] r IH]; intros s s' H;
    cbn [materialize] in H.
  - inversion H; subst. apply incl_refl.
  - destruct (materialize_entry env ow contents bt s (rel, isd))
      as [s1|] eqn:E; [|discriminate].
    apply step_outcome in E. destruct E as [_ O].
    eapply incl_tran; [eapply outcome_errors_grow; exact O|eauto].
Qed.

(** An entry with a regular file in its way fails. *)
Lemma run_fails_again env contents bt paths : forall s s' rel isd,
  materialize env false contents bt paths s = (None, s') ->
  In (rel, isd) paths -> blocked env bt (st_fs s) (rel, isd) ->
  In (abs_text env bt rel) (map fst (st_errors s')).
Proof.
  induction paths as [|[rel0 isd0] r IH]; intros s s' rel isd H I B;
    [destruct I|].
  cbn [materialize] in H.
  destruct (materialize_entry env false contents bt s (rel0, isd0))
    as [s1|] eqn:E; [|discriminate].
  apply step_outcome in E. destruct E as [_ O].
  destruct I as [I|I].
  - inversion I; subst; clear I.
    apply (run_errors_grow _ _ _ _ _ _ _ H).
    destruct (blocked_mkdir _ _ _ _ _ B) as [e Mb].
    destruct O as [fs' M|e' M|y W Ly|e' G M|fs1 fs2 G M W|fs1 e' G M W];
      cbn [record_created record_skipped record_error st_errors];
      try congruence;
      try (rewrite map_app; apply in_or_app; right; now left).
    rewrite (blocked_absent _ _ _ _ B) in Ly. discriminate.
  - eapply IH; [exact H|exact I|].
    eapply blocked_extends; [|exact B].
    eapply outcome_extends; [reflexivity|exact O].
Qed.

(** * Claims *)

(** C1.  On the tree of Example 1 the line parser yields the three
    entries with the depths the example gives, but the collapse puts the
    directory at [src/src], not [src]: the name is pushed on the stack and
    then joined to the stack again.  The live run on an empty root records
    two files and one directory, with nothing skipped and no error, and
    leaves two new directories below the target, [src] and [src/src]. *)
Theorem example1_directory_is_doubled :
  forall rt : Runtime,
    parse_ascii_tree example1_prompt
    = [(0, u "README.md", false); (0, u "src", true);
       (1, u "main.py", false)] /\
    tree_paths example1_prompt
    = [(u "README.md", false); (u "src/src", true);
       (u "src/main.py", false)] /\
    exists r fs',
      scaffold_project rt env0 fs0 (tree_request example1_prompt false)
      = (Ok r, fs') /\
      created r = [u "/srv/base/app/README.md"; u "/srv/base/app/src/src";
                   u "/srv/base/app/src/main.py"] /\
      skipped r = [] /\ errors r = [] /\
      lookup [u "srv"; u "base"; u "app"; u "src"] fs'
      = Some (Dir [(u "src", Dir []); (u "main.py", File [])]) /\
      lookup [u "srv"; u "base"; u "app"; u "README.md"] fs'
      = Some (File (default_snippet (u "README.md"))).
Proof.
  intros rt. split; [vm_compute; reflexivity|].
  split; [vm_compute; reflexivity|].
  eexists. eexists. split; [vm_compute; reflexivity|].
  repeat split; vm_compute; reflexivity.
Qed.




(** C3.  A dry run joins each entry to the target without resolving or
    testing it: for the entry [../../etc/passwd] it returns a plan whose
    path still holds the [..] parts, where the live run of the same
    request raises the confinement error. *)
Theorem dry_run_plans_an_escaping_entry :
  forall rt : Runtime,
    (exists r,
       scaffold_project rt env0 fs0 (tree_request passwd_prompt true)
       = (Ok r, fs0) /\
       plan r = Some [(u "/srv/base/app/../../etc/passwd", u "file")]) /\
    confined env0 app passwd_prompt = false /\
    scaffold_project rt env0 fs0 (tree_request passwd_prompt false)
    = (Raise (SpecError
                (u "Target escapes base directory: /srv/etc/passwd not under /srv/base/app")),
       fs0).
Proof.
  intros rt. split; [|split].
  - eexists. split; vm_compute; reflexivity.
  - vm_compute. reflexivity.
  - vm_compute. reflexivity.
Qed.

(** C4, amended.  In a live run whose entries have pairwise distinct
    confined paths, every recorded path is recorded once: the paths of
    [created], [skipped] and [errors] taken together are the confined paths
    of the entries, so no path is in two of the lists. *)
Theorem distinct_entries_recorded_once :
  forall (rt : Runtime) (env : Env) (fs fs' : node) (rq : Request)
         (job : Job) (r : Result),
    dry_run rq = false ->
    prepare rt env fs rq = Ok job ->
    NoDup (map (fun e => abs_text env (job_target job) (fst e))
               (job_paths job)) ->
    scaffold_project rt env fs rq = (Ok r, fs') ->
    Permutation (created r ++ skipped r ++ map fst (errors r))
                (map (fun e => abs_text env (job_target job) (fst e))
                     (job_paths job)) /\
    NoDup (created r ++ skipped r ++ map fst (errors r)) /\
    (forall t, In t (created r) -> ~ In t (skipped r)) /\
    (forall t, In t (created r) -> ~ In t (map fst (errors r))) /\
    (forall t, In t (skipped r) -> ~ In t (map fst (errors r))).
Proof.
  intros rt env fs fs' rq job r D P N H.
  destruct (scaffold_live_ok _ _ _ _ _ _ _ D P H) as (s & M & -> & _).
  apply run_recorded in M. unfold recorded in M. cbn in M.
  rewrite app_nil_r in M. cbn [payload created skipped errors].
  assert (ND : NoDup (st_created s ++ st_skipped s ++ map fst (st_errors s))).
  { eapply Permutation_NoDup; [symmetry; exact M|exact N]. }
  split; [exact M|]. split; [exact ND|].
  pose proof (NoDup_app_remove_l _ _ ND) as ND2.
  repeat split; intros t I1 I2.
  - apply (NoDup_app_disjoint _ _ ND t I1). apply in_or_app. now left.
  - apply (NoDup_app_disjoint _ _ ND t I1). apply in_or_app. now right.
  - exact (NoDup_app_disjoint _ _ ND2 t I1 I2).
Qed.

Lemma distinct_entries_recorded_once_witness :
  exists r fs',
    scaffold_project (table_runtime []) env0 fs0
      (tree_request two_files_prompt false) = (Ok r, fs') /\
    NoDup (created r ++ skipped r ++ map fst (errors r)).
Proof.
  eexists. eexists. split; [vm_compute; reflexivity|].
  eapply (distinct_entries_recorded_once (table_runtime []) env0 fs0 _
            (tree_request two_files_prompt false)
            (tree_job [(u "a.txt", false); (u "b.txt", false)])).
  - reflexivity.
  - vm_compute. reflexivity.
  - vm_compute. repeat constructor; simpl; intuition discriminate.
  - vm_compute. reflexivity.
Defined.

(** C4 as stated fails: the same path given twice is created by its first
    entry and skipped by its second, so it is in two lists. *)
Lemma repeated_path_in_two_lists :
  exists r fs',
    scaffold_project (table_runtime []) env0 fs0
      (tree_request twice_prompt false) = (Ok r, fs') /\
    In (u "/srv/base/app/a.txt") (created r) /\
    In (u "/srv/base/app/a.txt") (skipped r).
Proof.
  eexists. eexists. split; [vm_compute; reflexivity|].
  split; left; reflexivity.
Qed.

(** C5, amended.  In a live run on nested-mapping data whose entries have
    pairwise distinct confined paths, a key whose value is not a mapping
    is a file entry, and when the run reports its path as created the file
    holds: for a null value the built-in snippet of its basename, which is
    empty unless the basename is one of the three names of the table; for
    any other value that value coerced to text. *)
Theorem leaf_value_becomes_file_content :
  forall (rt : Runtime) (env : Env) (fs fs' : node) (rq : Request)
         (job : Job) (r : Result) (data : value) (m : dict)
         (p : pystr) (v : value),
    dry_run rq = false ->
    prepare rt env fs rq = Ok job ->
    request_data rt rq = Ok data ->
    nested_mapping data = Some m ->
    has_leaf [] m p v ->
    NoDup (map (fun e => abs_text env (job_target job) (fst e))
               (job_paths job)) ->
    scaffold_project rt env fs rq = (Ok r, fs') ->
    let rel := rstrip_chars [SLASH] p in
    In (rel, false) (job_paths job) /\
    (In (abs_text env (job_target job) rel) (created r) ->
     lookup (parts (abs_path env (job_target job) rel)) fs'
     = Some (File (leaf_text rt rel v))) /\
    (v = VNone -> ~ In (basename rel) (map fst DEFAULT_SNIPPETS) ->
     leaf_text rt rel v = []).
Proof.
  intros rt env fs fs' rq job r data m p v D P L Nm Hl ND H rel.
  pose proof (parse_nested rt _ _ Nm) as Q.
  destruct (prepare_structured _ _ _ _ _ _ _ P L Q) as [Ep Ec].
  pose proof (walk_has_leaf rt _ _ _ _ Hl) as I.
  assert (Ip : In (rel, false) (job_paths job)).
  { rewrite Ep. unfold entry_paths. apply in_map_iff.
    exists (add p false (leaf_content rt v)). split; [reflexivity|exact I]. }
  split; [exact Ip|]. split.
  - intros C.
    destruct (scaffold_live_ok _ _ _ _ _ _ _ D P H) as (s & M & -> & ->).
    cbn [payload created] in C.
    rewrite (run_created_content env (job_contents job) (job_target job)
               (overwrite rq) (job_paths job) (initial fs) s rel ND M Ip
               (fun X => X) C).
    do 2 f_equal. unfold content_for. rewrite Ec.
    rewrite (contents_get_unique (walk rt [] m) rel (leaf_content rt v)).
    + destruct v; reflexivity.
    + rewrite Ep in ND. unfold entry_paths in ND. rewrite map_map in ND.
      cbn [fst] in ND.
      rewrite <- (map_map (fun e : entry => fst (fst e))
                    (fun x => abs_text env (job_target job) x)) in ND.
      exact (NoDup_map_inv _ _ ND).
    + exact I.
  - intros -> N. cbn [leaf_text]. now apply default_snippet_empty.
Qed.

Lemma leaf_value_becomes_file_content_witness :
  exists r fs',
    scaffold_project examples_runtime env0 fs0 (json_request readme_text)
    = (Ok r, fs') /\
    lookup [u "srv"; u "base"; u "app"; u "README.md"] fs'
    = Some (File (default_snippet (u "README.md"))).
Proof.
  eassert (H : scaffold_project examples_runtime env0 fs0
                 (json_request readme_text) = (Ok _, _))
    by (vm_compute; reflexivity).
  assert (P : prepare examples_runtime env0 fs0 (json_request readme_text)
              = Ok (json_job [(u "README.md", false, None)]))
    by (vm_compute; reflexivity).
  assert (L : request_data examples_runtime (json_request readme_text)
              = Ok readme_doc) by (vm_compute; reflexivity).
  assert (HL : has_leaf [] [(u "README.md", VNone)] (u "README.md") VNone).
  { apply (@leaf_here [] [(u "README.md", VNone)] (u "README.md") VNone).
    - left. reflexivity.
    - discriminate. }
  assert (ND : NoDup (map (fun e => abs_text env0 app (fst e))
                        [(u "README.md", false)]))
    by (repeat constructor; intros []).
  do 2 eexists. split; [exact H|].
  destruct (leaf_value_becomes_file_content examples_runtime env0 fs0 _
              (json_request readme_text)
              (json_job [(u "README.md", false, None)]) _
              readme_doc [(u "README.md", VNone)] (u "README.md") VNone
              eq_refl P L eq_refl HL ND H) as (_ & F & _).
  apply F. left. reflexivity.
Defined.

(** C5 as stated fails: for the key [README.md] with a null value the
    live run on a fresh target writes the built-in snippet, not the empty
    text. *)
Lemma null_readme_is_not_empty :
  exists r fs' c,
    nested_mapping readme_doc = Some [(u "README.md", VNone)] /\
    lookup [u "srv"; u "base"; u "app"] fs0 = None /\
    scaffold_project examples_runtime env0 fs0 (json_request readme_text)
    = (Ok r, fs') /\
    created r = [u "/srv/base/app/README.md"] /\
    lookup [u "srv"; u "base"; u "app"; u "README.md"] fs' = Some (File c) /\
    c <> [].
Proof.
  do 3 eexists. split; [reflexivity|]. split; [reflexivity|].
  split; [vm_compute; reflexivity|]. split; [reflexivity|].
  split; [reflexivity|]. discriminate.
Qed.

(** C6.  A dry run leaves the filesystem as it found it; when the call
    gets past the configuration checks, the parse and the resolution of
    the target, it returns the payload with [dry_run] set, the plan, and
    empty [created], [skipped] and [errors]; otherwise it raises. *)
Theorem dry_run_leaves_filesystem :
  forall (rt : Runtime) (env : Env) (fs : node) (rq : Request),
    dry_run rq = true ->
    snd (scaffold_project rt env fs rq) = fs /\
    match prepare rt env fs rq with
    | Raise e => fst (scaffold_project rt env fs rq) = Raise e
    | Ok job =>
        exists r,
          fst (scaffold_project rt env fs rq) = Ok r /\
          res_dry_run r = true /\
          plan r = Some (dry_plan job) /\
          created r = [] /\ skipped r = [] /\ errors r = []
    end.
Proof.
  intros rt env fs rq D. unfold scaffold_project. rewrite D.
  destruct (prepare rt env fs rq) as [job|e]; cbn [fst snd].
  - split; [reflexivity|]. eexists. split; [reflexivity|].
    cbn. repeat split.
  - split; reflexivity.
Qed.

Lemma dry_run_leaves_filesystem_witness :
  snd (scaffold_project (table_runtime []) env0 fs0
         (tree_request example1_prompt true)) = fs0.
Proof.
  exact (proj1 (dry_run_leaves_filesystem (table_runtime []) env0 fs0
                  (tree_request example1_prompt true) eq_refl)).
Defined.







(** C9.  A decoded mapping that has the key ["root"] and no key
    ["entries"] is taken for the flat-entry shape: the parser raises the
    error that requires an 'entries' list and does not read the mapping as
    a nested one. *)
Theorem root_key_commits_to_flat_shape :
  forall (rt : Runtime) (d : dict),
    has_key (u "root") d = true ->
    has_key (u "entries") d = false ->
    parse_yaml_or_json rt (VDict d) = Raise E_FLAT.
Proof.
  intros rt d R E. unfold parse_yaml_or_json. rewrite R, E. cbn [orb].
  assert (G : dict_get (u "entries") d = None).
  { clear R. induction d as [|[k v] r IH]; [reflexivity|].
    cbn [has_key existsb fst] in E. apply orb_false_iff in E.
    destruct E as [E1 E2]. cbn [dict_get]. rewrite E1. now apply IH. }
  now rewrite G.
Qed.

Lemma root_key_commits_to_flat_shape_witness :
  parse_yaml_or_json (table_runtime [])
    (VDict [(u "root", VDict [(u "a.txt", VStr (u "x"))])])
  = Raise E_FLAT.
Proof.
  apply root_key_commits_to_flat_shape; reflexivity.
Defined.



(** * Further properties *)

(** ** Confinement of a path *)

Lemma join_snoc ps x :
  ps <> [] -> join [SLASH] (ps ++ [x]) = join [SLASH] ps ++ SLASH :: x.
Proof.
  induction ps as [|p r IH]; intros N; [congruence|].
  destruct r as [|q r].
  - reflexivity.
  - change (join [SLASH] ((p :: q :: r) ++ [x]))
      with (p ++ [SLASH] ++ join [SLASH] ((q :: r) ++ [x])).
    rewrite IH by discriminate.
    change (join [SLASH] (p :: q :: r))
      with (p ++ [SLASH] ++ join [SLASH] (q :: r)).
    now rewrite <- !app_assoc.
Qed.

Lemma join_app ps qs :
  ps <> [] -> qs <> [] ->
  join [SLASH] (ps ++ qs) = join [SLASH] ps ++ SLASH :: join [SLASH] qs.
Proof.
  intros Np Nq. induction ps as [|p r IH]; [congruence|].
  destruct r as [|q r].
  - destruct qs as [|q0 qs']; [congruence|]. reflexivity.
  - change (join [SLASH] ((p :: q :: r) ++ qs))
      with (p ++ [SLASH] ++ join [SLASH] ((q :: r) ++ qs)).
    rewrite IH by discriminate.
    change (join [SLASH] (p :: q :: r))
      with (p ++ [SLASH] ++ join [SLASH] (q :: r)).
    now rewrite <- !app_assoc.
Qed.

Lemma startswith_app a b : startswith (a ++ b) a = true.
Proof.
  induction a as [|x a IH]; [now destruct b|]. simpl.
  now rewrite N.eqb_refl.
Qed.

Lemma path_str_rooted ps :
  path_str {| anchor := 1; parts := ps |} = SLASH :: join [SLASH] ps.
Proof. reflexivity. Qed.

Lemma path_str_prefix ps qs :
  startswith (path_str {| anchor := 1; parts := ps ++ qs |})
             (path_str {| anchor := 1; parts := ps |}) = true.
Proof.
  rewrite !path_str_rooted. cbn [startswith]. rewrite N.eqb_refl. cbn [andb].
  destruct ps as [|p r]; [exact (startswith_app [] _)|].
  destruct qs as [|q qs'].
  - rewrite app_nil_r. apply startswith_refl.
  - rewrite join_app by discriminate. apply startswith_app.
Qed.

Lemma walk_parts_app start a b :
  walk_parts start (a ++ b) = walk_parts (walk_parts start a) b.
Proof. unfold walk_parts. apply fold_left_app. Qed.

(** X1.  A path that [safe_join] returns is resolved: it is anchored at
    the root and none of its parts is empty, [.] or [..]; and its text
    starts with the text of the resolved base. *)
Theorem safe_join_result_is_resolved :
  forall (env : Env) (b : ppath) (rel : pystr) (p : ppath),
    Forall part_ok (parts b) ->
    safe_join (cwd env) b rel = Ok p ->
    resolved p /\
    startswith (path_str p) (path_str (resolve (cwd env) b)) = true.
Proof.
  intros env b rel p Hb H. split.
  - eapply safe_join_resolved; [apply cwd_clean|exact Hb|exact H].
  - rewrite safe_join_unfold in H. cbv zeta in H.
    destruct (startswith _ _) eqn:S; [|discriminate].
    inversion H; subst. exact S.
Qed.

Lemma safe_join_result_is_resolved_witness :
  resolved {| anchor := 1; parts := [u "srv"; u "base"; u "app"] |} /\
  startswith (u "/srv/base/app") (u "/srv/base") = true.
Proof.
  apply (safe_join_result_is_resolved env0 (Path (u "/srv/base/")) (u "./app")
           {| anchor := 1; parts := [u "srv"; u "base"; u "app"] |}).
  - apply Path_parts_ok.
  - vm_compute. reflexivity.
Defined.

Lemma resolve_join_plain c b rel :
  resolved b -> path_anchor rel = 0 -> clean (path_parts rel) ->
  resolve c (path_join (resolve c b) rel)
  = {| anchor := 1; parts := parts b ++ path_parts rel |}.
Proof.
  intros R A C. rewrite (resolve_id _ _ R). unfold path_join. rewrite A.
  destruct R as [Ha Cb]. unfold resolve. cbn [anchor parts]. rewrite Ha.
  rewrite walk_parts_id by (apply Forall_app; now split).
  now rewrite app_nil_l.
Qed.



Lemma path_parts_dotdot_name k :
  name_ok k -> path_parts (DOTDOT ++ [SLASH] ++ k) = [DOTDOT; k].
Proof.
  intros Hk. change (DOTDOT ++ [SLASH] ++ k) with (DOTDOT ++ SLASH :: k).
  rewrite path_parts_app, (path_parts_name k Hk). reflexivity.
Qed.



(** ** Runs that raise *)

(** A run that raises has completed the rounds of the entries before the
    one that raised, and stops in the state they left. *)
Lemma run_prefix env ow contents bt paths : forall s r s',
  materialize env ow contents bt paths s = (r, s') ->
  exists done rest,
    paths = done ++ rest /\
    materialize env ow contents bt done s = (None, s').
Proof.
  induction paths as [|e paths IH]; intros s r s' H; cbn [materialize] in H.
  - inversion H; subst. exists [], []. split; reflexivity.
  - destruct (materialize_entry env ow contents bt s e) as [s1|x] eqn:E.
    + destruct (IH _ _ _ H) as (done & rest & -> & M).
      exists (e :: done), rest. split; [reflexivity|].
      cbn [materialize]. now rewrite E.
    + inversion H; subst. exists [], (e :: paths). split; reflexivity.
Qed.

(** The filesystem a call leaves: the one it found, or the one a run of
    the first entries of the job leaves. *)
Lemma scaffold_leaves rt env fs rq :
  snd (scaffold_project rt env fs rq) = fs \/
  exists job done rest s,
    prepare rt env fs rq = Ok job /\
    job_paths job = done ++ rest /\
    materialize env (overwrite rq) (job_contents job) (job_target job)
                done (initial fs) = (None, s) /\
    snd (scaffold_project rt env fs rq) = st_fs s.
Proof.
  unfold scaffold_project.
  destruct (prepare rt env fs rq) as [job|e] eqn:P; [|now left].
  destruct (dry_run rq); [now left|]. right.
  destruct (materialize env (overwrite rq) (job_contents job)
              (job_target job) (job_paths job) (initial fs)) as [r s] eqn:M.
  destruct (run_prefix _ _ _ _ _ _ _ _ M) as (done & rest & E & Md).
  exists job, done, rest, s. repeat split; try assumption.
  destruct r; reflexivity.
Qed.

(** X4.  With [overwrite] off, whatever the call returns or raises, the
    filesystem it leaves extends the one it found: every node is still
    there, a regular file with its content, a directory as a directory. *)
Theorem without_overwrite_nothing_is_changed :
  forall (rt : Runtime) (env : Env) (fs : node) (rq : Request),
    overwrite rq = false ->
    extends fs (snd (scaffold_project rt env fs rq)).
Proof.
  intros rt env fs rq W.
  destruct (scaffold_leaves rt env fs rq)
    as [->|(job & done & rest & s & _ & _ & M & ->)].
  - apply extends_refl.
  - rewrite W in M.
    exact (run_extends env (job_contents job) (job_target job) false done
             (initial fs) s eq_refl M).
Qed.

Lemma without_overwrite_nothing_is_changed_witness :
  extends fs0
    (snd (scaffold_project (table_runtime []) env0 fs0
            (tree_request example1_prompt false))).
Proof.
  apply (without_overwrite_nothing_is_changed (table_runtime []) env0 fs0
           (tree_request example1_prompt false)).
  reflexivity.
Defined.

Lemma run_keeps_kinds env ow contents bt paths : forall s s',
  materialize env ow contents bt paths s = (None, s') ->
  keeps_kinds (st_fs s) (st_fs s').
Proof.
  induction paths as [|[rel isd] r IH]; intros s s' H;
    cbn [materialize] in H.
  - inversion H; subst. intros q x L. eauto.
  - destruct (materialize_entry env ow contents bt s (rel, isd))
      as [s1|] eqn:E; [|discriminate].
    apply step_outcome in E. destruct E as [_ O].
    eapply keeps_kinds_trans; [eapply outcome_keeps_kinds; exact O|eauto].
Qed.

(** A regular file is left as it is by every round but that of a file
    entry for its own path. *)
Lemma outcome_file_kept env ow contents bt s rel isd s' p c :
  outcome env ow contents bt s rel isd s' ->
  lookup p (st_fs s) = Some (File c) ->
  (isd = false -> parts (abs_path env bt rel) <> p) ->
  lookup p (st_fs s') = Some (File c).
Proof.
  intros O L D.
  assert (Mk : forall q fs1, mkdir_p q (st_fs s) = inr fs1 ->
                 lookup p fs1 = Some (File c)).
  { intros q fs1 M. destruct (mkdir_p_extends _ _ _ M p _ L) as (x' & L' & P').
    simpl in P'. now subst x'. }
  destruct O as [fs' M|e M|y W Ly|e G M|fs1 fs2 G M W|fs1 e G M W];
    cbn [record_created record_skipped record_error st_fs];
    try assumption; try (eapply Mk; eassumption).
  destruct (write_file_frame _ _ _ _ _ _ W (Mk _ _ M)) as (x' & L' & P').
  - intros X. now apply (D eq_refl).
  - simpl in P'. now subst x'.
Qed.

Lemma run_files_kept env ow contents bt paths : forall s s' p c,
  materialize env ow contents bt paths s = (None, s') ->
  lookup p (st_fs s) = Some (File c) ->
  (forall rel, In (rel, false) paths -> parts (abs_path env bt rel) <> p) ->
  lookup p (st_fs s') = Some (File c).
Proof.
  induction paths as [|[rel isd] r IH]; intros s s' p c H L N;
    cbn [materialize] in H.
  - inversion H; subst. assumption.
  - destruct (materialize_entry env ow contents bt s (rel, isd))
      as [s1|] eqn:E; [|discriminate].
    apply step_outcome in E. destruct E as [_ O].
    apply (IH s1 s' p c H).
    + eapply outcome_file_kept; [exact O|exact L|].
      intros ->. apply N. now left.
    + intros rel0 I. apply N. now right.
Qed.

(** X5.  Whatever the flags, and whether the call returns or raises,
    every node it found is still there with its kind, and a regular file
    keeps its content unless a file entry of the request resolves to its
    very path. *)
Theorem only_listed_files_are_rewritten :
  forall (rt : Runtime) (env : Env) (fs : node) (rq : Request) (job : Job),
    prepare rt env fs rq = Ok job ->
    keeps_kinds fs (snd (scaffold_project rt env fs rq)) /\
    forall p c,
      lookup p fs = Some (File c) ->
      (forall rel, In (rel, false) (job_paths job) ->
         parts (abs_path env (job_target job) rel) <> p) ->
      lookup p (snd (scaffold_project rt env fs rq)) = Some (File c).
Proof.
  intros rt env fs rq job P.
  destruct (scaffold_leaves rt env fs rq)
    as [->|(job' & done & rest & s & P' & E & M & ->)].
  - split; [intros q x L; eauto|auto].
  - rewrite P in P'. inversion P'; subst job'. split.
    + exact (run_keeps_kinds _ _ _ _ _ _ _ M).
    + intros p c L N.
      apply (run_files_kept _ _ _ _ _ _ _ p c M L).
      intros rel I. apply N. rewrite E. apply in_or_app. now left.
Qed.

Lemma only_listed_files_are_rewritten_witness :
  lookup [u "srv"; u "base"; u "app"; u "keep.txt"]
    (snd (scaffold_project (table_runtime []) env0
            (app_with [(u "keep.txt", File (u "k"))])
            {| prompt := two_files_prompt; target_path := u "app";
               req_mode := Tree; overwrite := true; dry_run := false |}))
  = Some (File (u "k")).
Proof.
  apply (only_listed_files_are_rewritten (table_runtime []) env0
           (app_with [(u "keep.txt", File (u "k"))])
           {| prompt := two_files_prompt; target_path := u "app";
              req_mode := Tree; overwrite := true; dry_run := false |}
           (tree_job [(u "a.txt", false); (u "b.txt", false)])).
  - vm_compute. reflexivity.
  - reflexivity.
  - intros rel [E|[E|[]]]; inversion E; subst; vm_compute; discriminate.
Defined.

(** ** What a run adds *)

Lemma new_from_incl env bt done done' fs0 fs :
  incl done done' -> new_from env bt done fs0 fs ->
  new_from env bt done' fs0 fs.
Proof.
  intros I N q x L L0. destruct (N q x L L0) as (rel & isd & t & H & R).
  exists rel, isd, t. split; [now apply I|exact R].
Qed.

Lemma run_reached env ow contents bt fs0 paths : forall done s s',
  reached env bt fs0 done (st_fs s) ->
  materialize env ow contents bt paths s = (None, s') ->
  reached env bt fs0 (rev paths ++ done) (st_fs s').
Proof.
  induction paths as [|[rel isd] r IH]; intros done s s' R H;
    cbn [materialize] in H.
  - inversion H; subst. exact R.
  - destruct (materialize_entry env ow contents bt s (rel, isd))
      as [s1|] eqn:E; [|discriminate].
    apply step_outcome in E. destruct E as [_ O].
    cbn [rev]. rewrite <- app_assoc. cbn [app].
    apply (IH _ s1 s'); [|assumption].
    eapply reached_step; eassumption.
Qed.

(** X6.  A node that the call adds is on the way to the confined path of
    one of its entries: a new regular file is at the path of a file entry,
    a new directory is at the path of a directory entry or above the path
    of an entry. *)
Theorem new_nodes_lead_to_entries :
  forall (rt : Runtime) (env : Env) (fs : node) (rq : Request) (job : Job)
         (q : location) (x : node),
    prepare rt env fs rq = Ok job ->
    lookup q fs = None ->
    lookup q (snd (scaffold_project rt env fs rq)) = Some x ->
    exists rel isd t,
      In (rel, isd) (job_paths job) /\
      parts (abs_path env (job_target job) rel) = q ++ t /\
      (t = [] -> isd = is_dir x) /\
      (is_dir x = false -> t = []).
Proof.
  intros rt env fs rq job q x P L0 L1.
  destruct (scaffold_leaves rt env fs rq)
    as [E|(job' & done & rest & s & P' & E & M & Es)].
  - rewrite E in L1. congruence.
  - rewrite P in P'. inversion P'; subst job'. rewrite Es in L1.
    destruct (run_reached env (overwrite rq) (job_contents job)
                (job_target job) fs done [] (initial fs) s
                (reached_start env (job_target job) fs) M) as [_ N].
    destruct (N q x L1 L0) as (rel & isd & t & I & R).
    exists rel, isd, t. split; [|exact R].
    rewrite app_nil_r in I. apply in_rev in I. rewrite E.
    apply in_or_app. now left.
Qed.

Lemma new_nodes_lead_to_entries_witness :
  exists rel isd t,
    In (rel, isd) [(u "README.md", false); (u "src/src", true);
                   (u "src/main.py", false)] /\
    parts (abs_path env0 app rel) = [u "srv"; u "base"; u "app"; u "src"] ++ t
    /\ (t = [] -> isd = true) /\ (true = false -> t = []).
Proof.
  apply (new_nodes_lead_to_entries (table_runtime []) env0 fs0
           (tree_request example1_prompt false)
           (tree_job [(u "README.md", false); (u "src/src", true);
                      (u "src/main.py", false)])
           [u "srv"; u "base"; u "app"; u "src"]
           (Dir [(u "src", Dir []); (u "main.py", File [])])).
  - vm_compute. reflexivity.
  - reflexivity.
  - vm_compute. reflexivity.
Defined.

(** X7.  In the result of a live call the text of the target starts with
    the text of the resolved base, and every path in [created], [skipped]
    and [errors] starts with the text of the target. *)
Theorem reported_paths_start_with_the_target :
  forall (rt : Runtime) (env : Env) (fs fs' : node) (rq : Request)
         (r : Result),
    dry_run rq = false ->
    scaffold_project rt env fs rq = (Ok r, fs') ->
    (exists base_text,
       MCP_SCAFFOLDER_BASE env = Some base_text /\
       startswith (target r) (root_text env base_text) = true) /\
    forall t, In t (created r ++ skipped r ++ map fst (errors r)) ->
      startswith t (target r) = true.
Proof.
  intros rt env fs fs' rq r D H.
  destruct (scaffold_ok_prepare _ _ _ _ _ _ H) as [job P].
  destruct (scaffold_live_ok _ _ _ _ _ _ _ D P H) as (s & M & -> & _).
  destruct (prepare_inv _ _ _ _ _ P) as (b & B & _).
  destruct (prepare_target _ _ _ _ _ _ B P) as [R T].
  cbn [payload target created skipped errors]. split; [eauto|].
  intros t I.
  pose proof (run_recorded _ _ _ _ _ _ _ M) as Pm.
  unfold recorded in Pm. cbn [initial st_created st_skipped st_errors map app]
    in Pm. rewrite app_nil_r in Pm.
  apply (Permutation_in _ Pm) in I. apply in_map_iff in I.
  destruct I as ([rel isd] & <- & I). cbn [fst].
  pose proof (run_completes _ _ _ _ _ _ _ M) as C.
  rewrite Forall_forall in C. specialize (C _ I). cbn [fst] in C.
  unfold confined in C. now rewrite (resolve_id _ _ R) in C.
Qed.

Lemma reported_paths_start_with_the_target_witness :
  exists r fs',
    scaffold_project (table_runtime []) env0 fs0
      (tree_request example1_prompt false) = (Ok r, fs') /\
    forall t, In t (created r ++ skipped r ++ map fst (errors r)) ->
      startswith t (target r) = true.
Proof.
  eassert (H : scaffold_project (table_runtime []) env0 fs0
                 (tree_request example1_prompt false) = (Ok _, _))
    by (vm_compute; reflexivity).
  do 2 eexists. split; [exact H|].
  exact (proj2 (reported_paths_start_with_the_target (table_runtime []) env0
                  fs0 _ (tree_request example1_prompt false) _ eq_refl H)).
Defined.



(** ** The errors a run collects *)

Lemma mkdir_p_error q : forall n e,
  mkdir_p q n = inl e -> e = FileExistsError \/ e = NotADirectoryError.
Proof.
  induction q as [|a r IH]; intros n e H.
  - destruct n; simpl in H; inversion H; auto.
  - destruct n as [c|ch]; simpl in H; [inversion H; auto|].
    destruct (mkdir_p r _) as [e'|c'] eqn:M; [|discriminate].
    inversion H; subst. eapply IH; eassumption.
Qed.

Lemma write_file_error q c0 : forall n e ch,
  write_file q c0 n = inl e -> lookup (removelast q) n = Some (Dir ch) ->
  e = IsADirectoryError.
Proof.
  induction q as [|a r IH]; intros n e ch W L.
  - destruct n; simpl in W; inversion W; reflexivity.
  - destruct r as [|b r'].
    + cbn [removelast lookup] in L. inversion L; subst n.
      rewrite write_file_cons in W.
      destruct (child_get a ch) as [[c|ch']|]; simpl in W; inversion W;
        reflexivity.
    + change (removelast (a :: b :: r')) with (a :: removelast (b :: r')) in L.
      destruct n as [c|ch0]; [simpl in L; discriminate|].
      cbn [lookup] in L. rewrite write_file_cons in W.
      destruct (child_get a ch0) as [ca|]; [|discriminate].
      destruct (write_file (b :: r') c0 ca) as [e'|c'] eqn:Wc; [|discriminate].
      inversion W; subst. eapply IH; eassumption.
Qed.

Lemma outcome_errors env ow contents bt s rel isd s' :
  outcome env ow contents bt s rel isd s' ->
  Forall (fun te => snd te <> FileNotFoundError) (st_errors s) ->
  Forall (fun te => snd te <> FileNotFoundError) (st_errors s').
Proof.
  intros O F.
  destruct O as [fs' M|e M|y W Ly|e G M|fs1 fs2 G M W|fs1 e G M W];
    cbn [record_created record_skipped record_error st_errors];
    try assumption; apply Forall_app; (split; [assumption|]);
    constructor; try constructor; cbn [snd].
  - destruct (mkdir_p_error _ _ _ M) as [-> | ->]; discriminate.
  - destruct (mkdir_p_error _ _ _ M) as [-> | ->]; discriminate.
  - destruct (mkdir_p_makes_dir _ _ _ M) as [ch L].
    rewrite (write_file_error _ _ _ _ _ W L). discriminate.
Qed.

Lemma run_errors env ow contents bt paths : forall s s',
  materialize env ow contents bt paths s = (None, s') ->
  Forall (fun te => snd te <> FileNotFoundError) (st_errors s) ->
  Forall (fun te => snd te <> FileNotFoundError) (st_errors s').
Proof.
  induction paths as [|[rel isd] r IH]; intros s s' H F;
    cbn [materialize] in H.
  - inversion H; subst. assumption.
  - destruct (materialize_entry env ow contents bt s (rel, isd))
      as [s1|] eqn:E; [|discriminate].
    apply step_outcome in E. destruct E as [_ O].
    eapply IH; [exact H|]. eapply outcome_errors; eassumption.
Qed.

(** X9.  No error recorded for an entry is a [FileNotFoundError]: the
    parents of a path are made before the path itself, so no entry fails
    for a missing parent directory. *)
Theorem recorded_error_is_not_a_missing_parent :
  forall (rt : Runtime) (env : Env) (fs fs' : node) (rq : Request)
         (r : Result) (t : pystr) (e : oserror),
    scaffold_project rt env fs rq = (Ok r, fs') ->
    In (t, e) (errors r) ->
    e <> FileNotFoundError.
Proof.
  intros rt env fs fs' rq r t e H I.
  destruct (scaffold_ok_prepare _ _ _ _ _ _ H) as [job P].
  destruct (dry_run rq) eqn:D.
  - unfold scaffold_project in H. rewrite P, D in H. inversion H; subst.
    destruct I.
  - destruct (scaffold_live_ok _ _ _ _ _ _ _ D P H) as (s & M & -> & _).
    pose proof (run_errors _ _ _ _ _ _ _ M (Forall_nil _)) as F.
    rewrite Forall_forall in F. exact (F _ I).
Qed.

Lemma recorded_error_is_not_a_missing_parent_witness :
  exists r fs',
    scaffold_project examples_runtime env0
      (app_with [(u "docs", File (u "x"))]) (json_request docs_text)
    = (Ok r, fs') /\
    In (u "/srv/base/app/docs", FileExistsError) (errors r) /\
    FileExistsError <> FileNotFoundError.
Proof.
  eassert (H : scaffold_project examples_runtime env0
                 (app_with [(u "docs", File (u "x"))])
                 (json_request docs_text) = (Ok _, _))
    by (vm_compute; reflexivity).
  do 2 eexists. split; [exact H|]. split; [left; reflexivity|].
  apply (recorded_error_is_not_a_missing_parent examples_runtime env0 _ _
           (json_request docs_text) _ (u "/srv/base/app/docs")
           FileExistsError H).
  left. reflexivity.
Defined.

(** ** Plain relative entries *)

Lemma plain_entry env bt rel :
  resolved bt -> path_anchor rel = 0 -> clean (path_parts rel) ->
  path_str (path_join bt rel) = abs_text env bt rel /\
  confined env bt rel = true.
Proof.
  intros R A C.
  pose proof (resolve_join_plain (cwd env) bt rel R A C) as E.
  unfold confined, abs_text, abs_path. rewrite E, (resolve_id _ _ R).
  destruct bt as [a ps]. destruct R as [Ha Cb]. cbn [anchor parts] in *.
  subst a. split; [|apply path_str_prefix].
  unfold path_join. now rewrite A.
Qed.

Lemma prepare_same rt env fs rq1 rq2 :
  prompt rq1 = prompt rq2 -> target_path rq1 = target_path rq2 ->
  req_mode rq1 = req_mode rq2 ->
  prepare rt env fs rq1 = prepare rt env fs rq2.
Proof. intros E1 E2 E3. unfold prepare. now rewrite E1, E2, E3. Qed.



(** ** The target path *)

Lemma dropwhile_length f s : length (dropwhile f s) <= length s.
Proof.
  induction s as [|c r IH]; simpl; [lia|]. destruct (f c); simpl; lia.
Qed.

Lemma dropwhile_fixed f c r : dropwhile f (c :: r) = c :: r -> f c = false.
Proof.
  simpl. destruct (f c); [|reflexivity]. intros E.
  pose proof (dropwhile_length f r) as L. rewrite E in L. simpl in L. lia.
Qed.

Lemma dropwhile_head f c r : f c = false -> dropwhile f (c :: r) = c :: r.
Proof. intros E. simpl. now rewrite E. Qed.

Lemma dropwhile_same_length f s :
  length (dropwhile f s) = length s -> dropwhile f s = s.
Proof.
  destruct s as [|c r]; [reflexivity|]. simpl. destruct (f c); [|reflexivity].
  intros E. pose proof (dropwhile_length f r). lia.
Qed.

Lemma strip_fixed t : strip t = t -> lstrip t = t /\ rstrip t = t.
Proof.
  unfold strip, rstrip, lstrip, rstrip_by, lstrip_by. intros E.
  assert (L : dropwhile isspace t = t).
  { apply dropwhile_same_length.
    pose proof (dropwhile_length isspace t) as L1.
    pose proof (dropwhile_length isspace (rev (dropwhile isspace t))) as L2.
    apply (f_equal (@length N)) in E. rewrite length_rev in E.
    rewrite length_rev in L2. lia. }
  split; [exact L|]. now rewrite L in E.
Qed.

Lemma strip_after_slashes n t :
  strip t = t -> strip (repeat SLASH n ++ t) = repeat SLASH n ++ t.
Proof.
  intros E. destruct (strip_fixed t E) as [L R].
  destruct n as [|n]; [exact E|].
  unfold strip, lstrip, lstrip_by. cbn [repeat]. rewrite <- app_comm_cons.
  rewrite dropwhile_head by reflexivity.
  unfold rstrip, rstrip_by in *.
  change (SLASH :: repeat SLASH n ++ t) with (repeat SLASH (S n) ++ t).
  rewrite rev_app_distr.
  assert (Rep : rev (repeat SLASH (S n)) = SLASH :: repeat SLASH n).
  { rewrite (rev_repeat (S n) SLASH). reflexivity. }
  rewrite Rep.
  destruct (rev t) as [|c r] eqn:Rt.
  - rewrite app_nil_l. rewrite dropwhile_head by reflexivity.
    rewrite <- Rep, rev_involutive.
    apply (f_equal (@rev N)) in Rt. rewrite rev_involutive in Rt.
    rewrite Rt. now rewrite app_nil_r.
  - assert (F : isspace c = false).
    { apply (dropwhile_fixed isspace c r).
      apply (f_equal (@rev N)) in R. rewrite rev_involutive in R.
      rewrite R. exact Rt. }
    rewrite <- app_comm_cons. rewrite dropwhile_head by exact F.
    rewrite app_comm_cons.
    rewrite <- Rt, <- Rep, <- rev_app_distr. apply rev_involutive.
Qed.

Lemma lstrip_slashes n t :
  lstrip_chars [SLASH] (repeat SLASH n ++ t) = lstrip_chars [SLASH] t.
Proof.
  unfold lstrip_chars, lstrip_by. induction n as [|n IH]; [reflexivity|].
  cbn [repeat app dropwhile]. change (mem SLASH [SLASH]) with true.
  exact IH.
Qed.

(** X11.  Leading slashes of [target_path] are dropped: a target written
    as an absolute path is taken relative to the base, and the call does
    what it does for the target without them. *)
Theorem leading_slashes_of_the_target_are_dropped :
  forall (rt : Runtime) (env : Env) (fs : node) (p t : pystr) (m : mode)
         (ow dry : bool) (n : nat),
    strip t = t ->
    scaffold_project rt env fs
      {| prompt := p; target_path := repeat SLASH n ++ t; req_mode := m;
         overwrite := ow; dry_run := dry |}
    = scaffold_project rt env fs
        {| prompt := p; target_path := t; req_mode := m;
           overwrite := ow; dry_run := dry |}.
Proof.
  intros rt env fs p t m ow dry n E.
  unfold scaffold_project, prepare.
  cbn [prompt target_path req_mode overwrite dry_run].
  now rewrite (strip_after_slashes n t E), lstrip_slashes, E.
Qed.

Lemma leading_slashes_of_the_target_are_dropped_witness :
  scaffold_project (table_runtime []) env0 fs0
    {| prompt := u "a.txt"; target_path := repeat SLASH 1 ++ u "etc";
       req_mode := Tree; overwrite := false; dry_run := false |}
  = scaffold_project (table_runtime []) env0 fs0
      {| prompt := u "a.txt"; target_path := u "etc"; req_mode := Tree;
         overwrite := false; dry_run := false |}.
Proof.
  apply (leading_slashes_of_the_target_are_dropped (table_runtime []) env0
           fs0 (u "a.txt") (u "etc") Tree false false 1).
  reflexivity.
Defined.

(** ** The collapse of tree items *)

Lemma collapse_step_eq (stack : list pystr) (depth : nat) (name : pystr)
    (isd : bool) :
  collapse_step stack (depth, name, isd) =
  let st := firstn depth stack in
  let st' :=
    if isd then
      if length st =? depth then st ++ [name]
      else match st with
           | [] => st ++ [name]
           | _ => removelast st ++ [name]
           end
    else st in
  (st', (match join [SLASH] st' with
         | [] => name
         | _ => (join [SLASH] st' ++ [SLASH]) ++ name
         end, isd)).
Proof. reflexivity. Qed.

Lemma join_last X name :
  exists pre, join [SLASH] (X ++ [name]) = pre ++ name.
Proof.
  destruct X as [|x X'].
  - exists []. reflexivity.
  - rewrite join_snoc by discriminate.
    exists (join [SLASH] (x :: X') ++ [SLASH]). now rewrite <- app_assoc.
Qed.

Lemma length_removelast_le {A} (l : list A) :
  length (removelast l) <= length l.
Proof.
  induction l as [|a l IH]; [simpl; lia|].
  destruct l; [simpl; lia|].
  change (removelast (a :: a0 :: l)) with (a :: removelast (a0 :: l)).
  simpl in *. lia.
Qed.

Lemma rel_of_stack (X : list pystr) (name : pystr) :
  name <> [] ->
  exists pre,
    join [SLASH] (X ++ [name]) = pre ++ name /\
    match join [SLASH] (X ++ [name]) with
    | [] => name
    | _ => (join [SLASH] (X ++ [name]) ++ [SLASH]) ++ name
    end = (pre ++ name) ++ [SLASH] ++ name.
Proof.
  intros Nn. destruct (join_last X name) as [pre J]. exists pre.
  split; [exact J|]. rewrite J. destruct (pre ++ name) as [|c r] eqn:E.
  - destruct pre; [simpl in E; congruence|discriminate].
  - now rewrite <- app_assoc.
Qed.

(** The round of a directory item: the stack ends with its name and the
    path is the joined stack followed by the name again. *)
Lemma collapse_step_dir (stack : list pystr) (depth : nat) (name : pystr) :
  name <> [] ->
  exists X pre,
    collapse_step stack (depth, name, true)
    = (X ++ [name], ((pre ++ name) ++ [SLASH] ++ name, true)) /\
    length X <= depth /\ join [SLASH] (X ++ [name]) = pre ++ name.
Proof.
  intros Nn. rewrite collapse_step_eq. cbv zeta.
  pose proof (firstn_le_length depth stack) as Ls.
  revert Ls. generalize (firstn depth stack). intros st Ls.
  assert (Fin : forall X, length X <= depth ->
            exists X0 pre,
              (X ++ [name],
               (match join [SLASH] (X ++ [name]) with
                | [] => name
                | _ => (join [SLASH] (X ++ [name]) ++ [SLASH]) ++ name
                end, true))
              = (X0 ++ [name], ((pre ++ name) ++ [SLASH] ++ name, true)) /\
              length X0 <= depth /\
              join [SLASH] (X0 ++ [name]) = pre ++ name).
  { intros X Lx. destruct (rel_of_stack X name Nn) as (pre & J & Rl).
    exists X, pre. split; [|split; assumption].
    exact (f_equal (fun r => (X ++ [name], (r, true))) Rl). }
  destruct (length st =? depth); [now apply Fin|].
  destruct st as [|a st'].
  - apply (Fin []). simpl. lia.
  - apply Fin. eapply Nat.le_trans; [apply length_removelast_le|exact Ls].
Qed.

Lemma collapse_from_cons stack it rest :
  collapse_from stack (it :: rest)
  = snd (collapse_step stack it)
    :: collapse_from (fst (collapse_step stack it)) rest.
Proof.
  cbn [collapse_from]. now destruct (collapse_step stack it).
Qed.

(** X12.  Every directory item with a non-empty name gets from
    [collapse_tree] a path that ends with the name twice: the name is put
    on the stack and then joined to the stack once more. *)
Theorem collapse_tree_doubles_directory_names :
  forall (items : list item) (i depth : nat) (name : pystr),
    nth_error items i = Some (depth, name, true) -> name <> [] ->
    exists pre,
      nth_error (collapse_tree items) i
      = Some (pre ++ name ++ [SLASH] ++ name, true).
Proof.
  intros items i depth name H Nn. unfold collapse_tree.
  generalize (@nil pystr). revert i H.
  induction items as [|it rest IH]; intros i H stack.
  - destruct i; discriminate.
  - rewrite collapse_from_cons. destruct i as [|i].
    + cbn [nth_error] in H. inversion H; subst it.
      destruct (collapse_step_dir stack depth name Nn) as (X & pre & E & _).
      rewrite E. exists pre. cbn [nth_error snd]. now rewrite <- app_assoc.
    + cbn [nth_error] in *. now apply IH.
Qed.

Lemma collapse_tree_doubles_directory_names_witness :
  exists pre,
    nth_error (collapse_tree [(0, u "README.md", false); (0, u "src", true);
                              (1, u "main.py", false)]) 1
    = Some (pre ++ u "src" ++ [SLASH] ++ u "src", true).
Proof.
  apply (collapse_tree_doubles_directory_names
           [(0, u "README.md", false); (0, u "src", true);
            (1, u "main.py", false)] 1 0 (u "src")).
  - reflexivity.
  - discriminate.
Defined.

(** X13.  A file item one level below the directory item before it is
    placed in that directory, [base/file], while the entry of the
    directory itself is one level deeper, [base/name] with [base] ending
    in [name]. *)
Theorem file_line_below_a_directory_line :
  forall (items : list item) (i depth : nat) (dname fname : pystr),
    nth_error items i = Some (depth, dname, true) ->
    nth_error items (S i) = Some (S depth, fname, false) ->
    dname <> [] ->
    exists pre,
      nth_error (collapse_tree items) i
      = Some ((pre ++ dname) ++ [SLASH] ++ dname, true) /\
      nth_error (collapse_tree items) (S i)
      = Some ((pre ++ dname) ++ [SLASH] ++ fname, false).
Proof.
  intros items i depth dname fname H1 H2 Nn. unfold collapse_tree.
  generalize (@nil pystr). revert i H1 H2.
  induction items as [|it rest IH]; intros i H1 H2 stack.
  - destruct i; discriminate.
  - rewrite collapse_from_cons. destruct i as [|i].
    + cbn [nth_error] in H1. inversion H1; subst it.
      destruct rest as [|it2 rest']; [discriminate|].
      cbn [nth_error] in H2. inversion H2; subst it2.
      destruct (collapse_step_dir stack depth dname Nn)
        as (X & pre & E & Lx & J).
      rewrite E. cbn [fst snd]. exists pre. split; [reflexivity|].
      rewrite collapse_from_cons. cbn [nth_error].
      rewrite collapse_step_eq. cbv zeta. cbn [snd].
      rewrite firstn_all2 by (rewrite length_app; simpl; lia).
      rewrite J. destruct (pre ++ dname) as [|c r] eqn:Eq.
      * destruct pre; [simpl in Eq; congruence|discriminate].
      * now rewrite <- app_assoc.
    + change (nth_error (it :: rest) (S (S i)))
        with (nth_error rest (S i)) in H2.
      cbn [nth_error] in H1.
      destruct (IH i H1 H2 (fst (collapse_step stack it))) as (pre & A & B).
      exists pre. split; assumption.
Qed.

Lemma file_line_below_a_directory_line_witness :
  exists pre,
    nth_error (collapse_tree [(0, u "README.md", false); (0, u "src", true);
                              (1, u "main.py", false)]) 1
    = Some ((pre ++ u "src") ++ [SLASH] ++ u "src", true) /\
    nth_error (collapse_tree [(0, u "README.md", false); (0, u "src", true);
                              (1, u "main.py", false)]) 2
    = Some ((pre ++ u "src") ++ [SLASH] ++ u "main.py", false).
Proof.
  apply (file_line_below_a_directory_line
           [(0, u "README.md", false); (0, u "src", true);
            (1, u "main.py", false)] 1 0 (u "src") (u "main.py")).
  - reflexivity.
  - reflexivity.
  - discriminate.
Defined.

(** ** The depth of a line *)

Lemma unbox_line line :
  fold_left (fun t ch => replace_char ch SPACE t) BOX_CHARS line
  = map (fun c => if mem c BOX_CHARS then SPACE else c) line.
Proof.
  cbn [fold_left BOX_CHARS]. unfold replace_char. rewrite !map_map.
  apply map_ext. intros c. unfold mem. cbn [existsb BOX_CHARS].
  rewrite orb_false_r.
  destruct (N.eqb_spec c BOX_V) as [->|D1]; [reflexivity|].
  destruct (N.eqb_spec c BOX_T) as [->|D2]; [reflexivity|].
  destruct (N.eqb_spec c BOX_L) as [->|D3]; [reflexivity|].
  destruct (N.eqb_spec c BOX_H) as [->|D4]; reflexivity.
Qed.

Lemma search_connector_bound s : forall i,
  search_connector s = Some i -> i <= length s.
Proof.
  induction s as [|c r IH]; intros i H.
  - cbn in H. discriminate.
  - cbn [search_connector] in H.
    destruct (connector_at (c :: r)); [inversion H; simpl; lia|].
    destruct (search_connector r) as [j|]; [|discriminate].
    cbn in H. inversion H; subst. specialize (IH j eq_refl). simpl. lia.
Qed.

Lemma takewhile_unboxed line :
  length (takewhile isspace
            (map (fun c => if mem c BOX_CHARS then SPACE else c) line))
  = length (takewhile (fun c => isspace c || mem c BOX_CHARS) line).
Proof.
  induction line as [|c r IH]; [reflexivity|]. cbn [map takewhile].
  destruct (mem c BOX_CHARS) eqn:M.
  - change (isspace SPACE) with true. rewrite orb_true_r. cbn [length].
    now rewrite IH.
  - rewrite orb_false_r. destruct (isspace c); [|reflexivity].
    cbn [length]. now rewrite IH.
Qed.

Lemma leading_units_expr line :
  _leading_units line =
  length (match search_connector line with
          | Some i => firstn i (map (fun c => if mem c BOX_CHARS then SPACE
                                              else c) line)
          | None => takewhile (fun c => isspace c || mem c BOX_CHARS) line
          end) / 2.
Proof.
  unfold _leading_units. cbv zeta. rewrite unbox_line, Nat.max_0_l.
  destruct (search_connector line); [reflexivity|].
  now rewrite takewhile_unboxed.
Qed.

(** X14.  The depth of a line is half the column of its leftmost
    connector, rounded down; without a connector it is half the number of
    leading characters that are whitespace or box-drawing characters. *)
Theorem leading_units_is_half_the_column :
  forall line : pystr,
    _leading_units line =
    match search_connector line with
    | Some i => i / 2
    | None =>
        length (takewhile (fun c => isspace c || mem c BOX_CHARS) line) / 2
    end.
Proof.
  intros line. unfold _leading_units. cbv zeta. rewrite unbox_line.
  rewrite Nat.max_0_l.
  destruct (search_connector line) as [i|] eqn:S.
  - rewrite length_firstn, length_map.
    apply search_connector_bound in S. now rewrite Nat.min_l.
  - now rewrite takewhile_unboxed.
Qed.

(** ** Blank prompts *)

Lemma dropwhile_all f s : forallb f s = true -> dropwhile f s = [].
Proof.
  induction s as [|c r IH]; [reflexivity|]. cbn [forallb dropwhile].
  intros H. apply andb_true_iff in H. destruct H as [-> H]. now apply IH.
Qed.

Lemma strip_blank s : forallb isspace s = true -> strip s = [].
Proof.
  intros H. unfold strip, lstrip, lstrip_by. now rewrite dropwhile_all.
Qed.

Lemma splitlines_from_chars s : forall acc ln c,
  In ln (splitlines_from acc s) -> In c ln -> In c acc \/ In c s.
Proof.
  induction s as [|x r IH]; intros acc ln c I Ic.
  - cbn [splitlines_from] in I. destruct acc as [|a acc']; [destruct I|].
    destruct I as [<-|[]]. left. now apply in_rev.
  - assert (Cut : In ln (rev acc :: splitlines_from [] r) ->
                  In c acc \/ In c (x :: r)).
    { intros [<-|I']; [left; now apply in_rev|].
      destruct (IH [] ln c I' Ic) as [[]|R]. right. now right. }
    cbn [splitlines_from] in I.
    destruct (x =? CR)%N.
    + destruct r as [|x' r']; [now apply Cut|].
      destruct (N.eqb_spec x' LF) as [->|D]; [|now apply Cut].
      apply Cut. destruct I as [<-|I']; [now left|].
      right. cbn [splitlines_from].
      change (LF =? CR)%N with false. change (is_linebreak LF) with true.
      cbn iota. now right.
    + destruct (is_linebreak x); [now apply Cut|].
      destruct (IH (x :: acc) ln c I Ic) as [[<-|H]|H].
      * right. now left.
      * now left.
      * right. now right.
Qed.

Lemma blank_lines s :
  forallb isspace s = true -> filter nonblank (splitlines s) = [].
Proof.
  intros H. rewrite forallb_forall in H.
  assert (F : forall ln, In ln (splitlines s) -> nonblank ln = false).
  { intros ln I. unfold nonblank. rewrite strip_blank; [reflexivity|].
    apply forallb_forall. intros c Ic.
    destruct (splitlines_from_chars s [] ln c I Ic) as [[]|Hc].
    now apply H. }
  induction (splitlines s) as [|ln r IH]; [reflexivity|].
  cbn [filter]. rewrite (F ln) by now left.
  apply IH. intros ln' I'. apply F. now right.
Qed.

Lemma blank_tree_paths p : forallb isspace p = true -> tree_paths p = [].
Proof.
  intros H. unfold tree_paths, parse_ascii_tree, fallback_items.
  rewrite (strip_blank p H). cbn [splitlines splitlines_from filter map].
  now rewrite (blank_lines p H).
Qed.

Lemma blank_select rt m p :
  forallb isspace p = true -> m = Tree \/ m = Auto -> select rt m p = Tree.
Proof.
  intros H [->| ->]; [reflexivity|].
  cbn [select]. unfold detect. rewrite (strip_blank p H). reflexivity.
Qed.

(** X15.  A prompt of whitespace only, in tree mode or in auto mode,
    parses to no entry and is not an error of the parse: the call leaves
    the filesystem as it found it, without the target directory, and a
    result it returns has empty [created], [skipped] and [errors]. *)
Theorem blank_prompt_creates_nothing :
  forall (rt : Runtime) (env : Env) (fs : node) (rq : Request),
    forallb isspace (prompt rq) = true ->
    req_mode rq = Tree \/ req_mode rq = Auto ->
    parse_prompt rt (select rt (req_mode rq) (prompt rq)) (prompt rq)
    = Ok ([], []) /\
    snd (scaffold_project rt env fs rq) = fs /\
    forall r fs', scaffold_project rt env fs rq = (Ok r, fs') ->
      created r = [] /\ skipped r = [] /\ errors r = [].
Proof.
  intros rt env fs rq B M.
  assert (Pp : parse_prompt rt (select rt (req_mode rq) (prompt rq))
                 (prompt rq) = Ok ([], [])).
  { rewrite (blank_select rt _ _ B M). unfold parse_prompt.
    now rewrite (blank_tree_paths _ B). }
  split; [exact Pp|].
  assert (Pj : forall job, prepare rt env fs rq = Ok job ->
                 job_paths job = []).
  { intros job P. destruct (prepare_inv _ _ _ _ _ P) as (b & _ & _ & S & Q & _).
    rewrite S, Pp in Q. now inversion Q. }
  unfold scaffold_project.
  destruct (prepare rt env fs rq) as [job|e] eqn:P.
  - rewrite (Pj job eq_refl). cbn [materialize].
    destruct (dry_run rq); cbn [snd]; (split; [reflexivity|]);
      intros r fs' H; inversion H; subst; cbn; auto.
  - split; [reflexivity|]. intros r fs' H. discriminate.
Qed.

Lemma blank_prompt_creates_nothing_witness :
  scaffold_project (table_runtime []) env0 fs0
    {| prompt := u "  " ++ NL; target_path := u "app"; req_mode := Auto;
       overwrite := true; dry_run := false |}
  = (Ok {| selected_mode := u "tree"; base := u "/srv/base";
           target := u "/srv/base/app"; plan := None; created := [];
           skipped := []; errors := []; res_dry_run := false |}, fs0) /\
  snd (scaffold_project (table_runtime []) env0 fs0
         {| prompt := u "  " ++ NL; target_path := u "app"; req_mode := Auto;
            overwrite := true; dry_run := false |}) = fs0.
Proof.
  split; [vm_compute; reflexivity|].
  apply (blank_prompt_creates_nothing (table_runtime []) env0 fs0
           {| prompt := u "  " ++ NL; target_path := u "app";
              req_mode := Auto; overwrite := true; dry_run := false |}).
  - reflexivity.
  - right. reflexivity.
Defined.

(** ** The flat shape *)

Lemma has_key_get key d :
  has_key key d = true <-> exists v, dict_get key d = Some v.
Proof.
  induction d as [|[k v] r IH]; cbn [has_key existsb dict_get fst].
  - split; [discriminate|intros [v H]; discriminate].
  - destruct (str_eqb k key); cbn [orb]; [split; eauto|exact IH].
Qed.

Lemma parse_entry_path rt it :
  if has_path it then exists e, parse_entry rt it = Ok e
  else parse_entry rt it = Raise E_PATH.
Proof.
  destruct it as [| | | | | |d]; try reflexivity. cbn [has_path parse_entry].
  destruct (has_key (u "path") d) eqn:K.
  - apply has_key_get in K. destruct K as [v ->]. eauto.
  - destruct (dict_get (u "path") d) as [v|] eqn:G; [|reflexivity].
    assert (has_key (u "path") d = true) by (apply has_key_get; eauto).
    congruence.
Qed.

Lemma parse_entries_paths rt its :
  if forallb has_path its
  then exists es, parse_entries rt its = Ok es /\ length es = length its
  else parse_entries rt its = Raise E_PATH.
Proof.
  induction its as [|it r IH]; [exists []; split; reflexivity|].
  cbn [forallb parse_entries]. pose proof (parse_entry_path rt it) as Hit.
  destruct (has_path it); cbn [andb].
  - destruct Hit as [e ->]. cbn [bind].
    destruct (forallb has_path r).
    + destruct IH as (es & -> & L). cbn [bind]. exists (e :: es).
      split; [reflexivity|]. simpl. now rewrite L.
    + now rewrite IH.
  - now rewrite Hit.
Qed.

(** X16.  The flat shape is parsed all or nothing: when every element of
    the [entries] list is a mapping with the key ["path"] the parser
    returns one entry per element, and when one element is not, it raises
    the error that asks for ['path'], with no partial result. *)
Theorem flat_entries_are_all_or_nothing :
  forall (rt : Runtime) (d : dict) (its : list value),
    dict_get (u "entries") d = Some (VList its) ->
    if forallb has_path its
    then exists es, parse_yaml_or_json rt (VDict d) = Ok es /\
                    length es = length its
    else parse_yaml_or_json rt (VDict d) = Raise E_PATH.
Proof.
  intros rt d its G. unfold parse_yaml_or_json.
  assert (K : has_key (u "entries") d = true) by (apply has_key_get; eauto).
  rewrite K, G. cbn [orb]. apply parse_entries_paths.
Qed.

Lemma flat_entries_are_all_or_nothing_witness :
  parse_yaml_or_json (table_runtime [])
    (VDict [(u "entries",
             VList [VDict [(u "path", VStr (u "a"))];
                    VDict [(u "name", VStr (u "b"))]])])
  = Raise E_PATH.
Proof.
  apply (flat_entries_are_all_or_nothing (table_runtime [])
           [(u "entries",
             VList [VDict [(u "path", VStr (u "a"))];
                    VDict [(u "name", VStr (u "b"))]])]
           [VDict [(u "path", VStr (u "a"))];
            VDict [(u "name", VStr (u "b"))]]).
  reflexivity.
Defined.

(** X17.  No path that the structured-data parser returns ends with a
    slash, in the flat shape and in the nested one. *)
Theorem parsed_paths_have_no_trailing_slash :
  forall (rt : Runtime) (data : value) (es : list entry),
    parse_yaml_or_json rt data = Ok es ->
    Forall (fun e : entry => endswith (fst (fst e)) [SLASH] = false) es.
Proof.
  intros rt data es H. apply parse_added in H.
  eapply Forall_impl; [|exact H]. intros e A. unfold added in A.
  rewrite <- A. apply rstrip_slash_no_end.
Qed.

Lemma parsed_paths_have_no_trailing_slash_witness :
  Forall (fun e : entry => endswith (fst (fst e)) [SLASH] = false)
         [(u "docs", true, None)].
Proof.
  apply (parsed_paths_have_no_trailing_slash (table_runtime [])
           (VDict [(u "entries",
                    VList [VDict [(u "path", VStr (u "docs//"))]])])).
  reflexivity.
Defined.

(** X18.  What the parser returns for a document, in either shape, it
    returns again for the flat document that lists these entries in order
    with their types and contents. *)
Theorem flat_list_of_parsed_entries_parses_back :
  forall (rt : Runtime) (data : value) (es : list entry),
    parse_yaml_or_json rt data = Ok es ->
    parse_yaml_or_json rt (flat_of es) = Ok es.
Proof.
  intros rt data es H. apply parse_flat_of. eapply parse_added. exact H.
Qed.

Lemma flat_list_of_parsed_entries_parses_back_witness :
  parse_yaml_or_json (table_runtime [])
    (flat_of [(u "d", true, None); (u "d/f", false, Some (u "x"));
              (u "g", false, Some (u "y"))])
  = Ok [(u "d", true, None); (u "d/f", false, Some (u "x"));
        (u "g", false, Some (u "y"))].
Proof.
  apply (flat_list_of_parsed_entries_parses_back (table_runtime []) tree_doc).
  reflexivity.
Defined.

(** ** The contents of a path listed twice *)

Lemma contents_fold_files es : forall acc rel,
  (forall c, ~ In (rel, false, c) es) ->
  table_get rel
    (fold_left (fun (c : Contents) (e : entry) =>
                  if snd (fst e) then c else (fst (fst e), snd e) :: c) es acc)
  = table_get rel acc.
Proof.
  induction es as [|[[p isd] c] r IH]; intros acc rel N; [reflexivity|].
  cbn [fold_left fst snd].
  rewrite IH by (intros c' X; apply (N c'); now right).
  destruct isd; [reflexivity|]. cbn [table_get].
  case_str p rel; [|reflexivity]. exfalso. apply (N c). left. now subst.
Qed.

(** X19.  When a file path is listed more than once, the content chosen
    for it is that of its last listing, for every occurrence: the contents
    are stored by path before the first entry is materialized. *)
Theorem last_listing_of_a_file_gives_its_content :
  forall (es1 es2 : list entry) (rel : pystr) (c : option pystr),
    (forall c', ~ In (rel, false, c') es2) ->
    content_for (entry_contents (es1 ++ (rel, false, c) :: es2)) rel
    = match c with
      | Some text => text
      | None => default_snippet rel
      end.
Proof.
  intros es1 es2 rel c N. unfold content_for, contents_get, entry_contents.
  rewrite fold_left_app. cbn [fold_left fst snd].
  rewrite (contents_fold_files es2 _ rel N). cbn [table_get].
  rewrite str_eqb_refl. reflexivity.
Qed.

Lemma last_listing_of_a_file_gives_its_content_witness :
  content_for (entry_contents ([(u "a", false, Some (u "x"))]
                               ++ (u "a", false, Some (u "y")) :: []))
              (u "a")
  = u "y".
Proof.
  apply (last_listing_of_a_file_gives_its_content
           [(u "a", false, Some (u "x"))] [] (u "a") (Some (u "y"))).
  intros c' [].
Defined.

(** ** Running a request again *)

Lemma write_file_same q c : forall n,
  lookup q n = Some (File c) -> write_file q c n = inr n.
Proof.
  induction q as [|a r IH]; intros n L.
  - simpl in L. inversion L; subst. reflexivity.
  - destruct n as [c0|ch]; [simpl in L; discriminate|].
    simpl in L. rewrite write_file_cons.
    destruct (child_get a ch) as [x|] eqn:G; [|discriminate].
    rewrite (IH _ L). now rewrite child_set_get_id.
Qed.

Lemma lookup_parent_dir q : forall n x,
  q <> [] -> lookup q n = Some x ->
  exists ch, lookup (removelast q) n = Some (Dir ch).
Proof.
  induction q as [|a r IH]; intros n x N L; [congruence|].
  destruct n as [c0|ch]; [simpl in L; discriminate|].
  destruct r as [|b r'].
  - simpl. eauto.
  - change (removelast (a :: b :: r')) with (a :: removelast (b :: r')).
    simpl in L |- *. destruct (child_get a ch) as [y|]; [|discriminate].
    eapply IH; [discriminate|exact L].
Qed.

Lemma keeps_dir fs fs' q ch :
  keeps_kinds fs fs' -> lookup q fs = Some (Dir ch) ->
  exists ch', lookup q fs' = Some (Dir ch').
Proof.
  intros K L. destruct (K _ _ L) as ([c|ch'] & L' & E); [discriminate|eauto].
Qed.

Lemma keeps_file fs fs' q c :
  keeps_kinds fs fs' -> lookup q fs = Some (File c) ->
  exists c', lookup q fs' = Some (File c').
Proof.
  intros K L. destruct (K _ _ L) as ([c'|ch'] & L' & E); [eauto|discriminate].
Qed.

(** The round of a settled entry leaves the filesystem as it is. *)
Lemma settled_step env ow contents bt s rel isd :
  confined env bt rel = true ->
  settles env ow contents bt (st_fs s) (rel, isd) ->
  exists s', materialize_entry env ow contents bt s (rel, isd) = Ok s' /\
             st_fs s' = st_fs s.
Proof.
  intros C S. unfold materialize_entry. rewrite safe_join_confined, C.
  cbn [bind]. unfold settles in S. cbn [fst snd] in S. cbv zeta in S.
  destruct isd.
  - destruct S as [[ch L]|(k & c & L)].
    + rewrite (mkdir_p_existing _ _ _ L). eauto.
    + destruct (mkdir_p_blocked _ _ _ _ L) as [e ->]. eauto.
  - destruct (exists_ _ _ && negb ow) eqn:X; [eauto|].
    cbn [parent parts].
    destruct S as [(k & c & L)|[[ch L]|L]].
    + destruct (mkdir_p_blocked _ _ _ _ L) as [e ->]. eauto.
    + assert (P : mkdir_p (removelast (parts (abs_path env bt rel))) (st_fs s)
                  = inr (st_fs s)).
      { destruct (parts (abs_path env bt rel)) as [|a q] eqn:Q.
        - simpl in L. inversion L as [E]. cbn [removelast mkdir_p].
          now rewrite E.
        - destruct (lookup_parent_dir (a :: q) _ _ ltac:(discriminate) L)
            as [chp Lp].
          exact (mkdir_p_existing _ _ _ Lp). }
      rewrite P. destruct (write_file_on_dir _ (content_for contents rel) _ _ L)
        as [e ->]. eauto.
    + destruct ow.
      * destruct (parts (abs_path env bt rel)) as [|a q] eqn:Q.
        -- simpl in L. inversion L as [E]. cbn [removelast mkdir_p].
           rewrite E. eauto.
        -- destruct (lookup_parent_dir (a :: q) _ _ ltac:(discriminate) L)
             as [chp Lp].
           rewrite (mkdir_p_existing _ _ _ Lp), (write_file_same _ _ _ L).
           eauto.
      * destruct L as [c L]. unfold exists_ in X. rewrite L in X.
        discriminate.
Qed.

(** A round settles its own entry. *)
Lemma outcome_settles env ow contents bt s rel isd s' :
  outcome env ow contents bt s rel isd s' ->
  settles env ow contents bt (st_fs s') (rel, isd).
Proof.
  intros O. unfold settles. cbn [fst snd]. cbv zeta.
  destruct O as [fs' M|e M|y W Ly|e G M|fs1 fs2 G M W|fs1 e G M W];
    cbn [record_created record_skipped record_error st_fs].
  - left. eapply mkdir_p_makes_dir; eassumption.
  - right. eapply mkdir_p_fails_file; eassumption.
  - right. subst ow. destruct y as [c|ch]; [right; eauto|left; eauto].
  - left. eapply mkdir_p_fails_file; eassumption.
  - right. right. pose proof (write_file_lookup _ _ _ _ W) as L.
    destruct ow; eauto.
  - right. left. destruct (mkdir_p_makes_dir _ _ _ M) as [chp Lp].
    destruct (lookup (parts (abs_path env bt rel)) fs1) as [[c|ch]|] eqn:L;
      [|eauto|].
    + destruct (write_file_succeeds (parts (abs_path env bt rel))
                  (content_for contents rel) fs1)
        as [n' W']; [eauto|intros ch; congruence|congruence].
    + destruct (write_file_succeeds (parts (abs_path env bt rel))
                  (content_for contents rel) fs1)
        as [n' W']; [eauto|intros ch; congruence|congruence].
Qed.

(** A later round keeps an entry settled, unless it overwrites the file
    of the entry. *)
Lemma outcome_keeps_settled env ow contents bt s rel isd s' e :
  outcome env ow contents bt s rel isd s' ->
  ow = false \/
  (isd = false ->
   parts (abs_path env bt rel) <> parts (abs_path env bt (fst e))) ->
  settles env ow contents bt (st_fs s) e ->
  settles env ow contents bt (st_fs s') e.
Proof.
  intros O D S. pose proof (outcome_keeps_kinds _ _ _ _ _ _ _ _ O) as K.
  unfold settles in *. cbv zeta in *. destruct (snd e).
  - destruct S as [[ch L]|(k & c & L)].
    + left. eapply keeps_dir; eassumption.
    + right. exists k. eapply keeps_file; eassumption.
  - destruct S as [(k & c & L)|[[ch L]|L]].
    + left. exists k. eapply keeps_file; eassumption.
    + right. left. eapply keeps_dir; eassumption.
    + right. right. destruct ow.
      * destruct D as [D|D]; [discriminate|].
        eapply outcome_file_kept; eassumption.
      * destruct L as [c L]. eapply keeps_file; eassumption.
Qed.

Lemma run_settles env ow contents bt paths : forall done s s',
  ow = false \/
  NoDup (map (fun e => abs_text env bt (fst e)) (done ++ paths)) ->
  materialize env ow contents bt paths s = (None, s') ->
  Forall (settles env ow contents bt (st_fs s)) done ->
  Forall (settles env ow contents bt (st_fs s')) (done ++ paths).
Proof.
  induction paths as [|[rel isd] r IH]; intros done s s' D H F;
    cbn [materialize] in H.
  - inversion H; subst. now rewrite app_nil_r.
  - destruct (materialize_entry env ow contents bt s (rel, isd))
      as [s1|] eqn:E; [|discriminate].
    apply step_outcome in E. destruct E as [_ O].
    change (done ++ (rel, isd) :: r) with (done ++ [(rel, isd)] ++ r) in *.
    rewrite app_assoc in *.
    apply (IH _ s1 s' D H). apply Forall_app. split.
    + rewrite Forall_forall in *. intros e I.
      apply (outcome_keeps_settled _ _ _ _ _ _ _ _ _ O); [|now apply F].
      destruct D as [D|D]; [now left|]. right. intros _ X.
      rewrite <- app_assoc, map_app in D.
      apply (NoDup_app_disjoint _ _ D (abs_text env bt (fst e))).
      * apply in_map_iff. eauto.
      * left. exact (loc_name env bt rel (fst e) X).
    + constructor; [|constructor]. eapply outcome_settles; exact O.
Qed.

Lemma settled_run env ow contents bt paths : forall s,
  Forall (fun e => confined env bt (fst e) = true) paths ->
  Forall (settles env ow contents bt (st_fs s)) paths ->
  exists s', materialize env ow contents bt paths s = (None, s') /\
             st_fs s' = st_fs s.
Proof.
  induction paths as [|[rel isd] r IH]; intros s C F; cbn [materialize].
  - eauto.
  - inversion C as [|? ? C1 C2]; subst. inversion F as [|? ? F1 F2]; subst.
    cbn [fst] in C1.
    destruct (settled_step env ow contents bt s rel isd C1 F1) as (s1 & -> & E).
    rewrite <- E in F2. destruct (IH s1 C2 F2) as (s' & M & E').
    exists s'. split; [exact M|congruence].
Qed.

Lemma stat_walk_kinds fs fs' ps : forall cur x,
  keeps_kinds fs fs' -> stat_walk fs cur ps = Some x ->
  exists x', stat_walk fs' cur ps = Some x'.
Proof.
  induction ps as [|c r IH]; intros cur x K H; cbn [stat_walk] in *.
  - destruct (K _ _ H) as (x' & L & _). eauto.
  - destruct (lookup cur fs) as [[c0|ch]|] eqn:L; try discriminate.
    destruct (keeps_dir _ _ _ _ K L) as [ch' ->].
    eapply IH; eassumption.
Qed.

Lemma prepare_kinds rt env fs fs' rq job :
  keeps_kinds fs fs' -> prepare rt env fs rq = Ok job ->
  prepare rt env fs' rq = Ok job.
Proof.
  intros K. unfold prepare.
  destruct (MCP_SCAFFOLDER_BASE env) as [[|c b]|]; try discriminate.
  unfold path_exists.
  destruct (stat_walk fs _ _) as [x|] eqn:S; [|discriminate].
  destruct (stat_walk_kinds _ _ _ _ _ K S) as [x' ->]. auto.
Qed.

(** X20.  A live request that returned, run again on the filesystem it
    left, returns and leaves that filesystem as it is; with [overwrite] on
    this holds when the confined paths of the entries are pairwise
    distinct. *)
Theorem second_run_changes_nothing :
  forall (rt : Runtime) (env : Env) (fs0 fs1 : node) (rq : Request)
         (job : Job) (r1 : Result),
    dry_run rq = false ->
    prepare rt env fs0 rq = Ok job ->
    overwrite rq = false \/
    NoDup (map (fun e => abs_text env (job_target job) (fst e))
               (job_paths job)) ->
    scaffold_project rt env fs0 rq = (Ok r1, fs1) ->
    exists r2, scaffold_project rt env fs1 rq = (Ok r2, fs1).
Proof.
  intros rt env fs0 fs1 rq job r1 D P Nd H.
  destruct (scaffold_live_ok _ _ _ _ _ _ _ D P H) as (s1 & M & _ & ->).
  pose proof (run_keeps_kinds _ _ _ _ _ _ _ M) as K.
  cbn [initial st_fs] in K.
  pose proof (prepare_kinds _ _ _ _ _ _ K P) as P2.
  pose proof (run_settles env (overwrite rq) (job_contents job)
                (job_target job) (job_paths job) [] (initial fs0) s1 Nd M
                (Forall_nil _)) as S.
  cbn [app] in S.
  destruct (settled_run env (overwrite rq) (job_contents job)
              (job_target job) (job_paths job) (initial (st_fs s1))
              (run_completes _ _ _ _ _ _ _ M) S) as (s2 & M2 & E).
  cbn [initial st_fs] in E.
  exists (payload job false None s2).
  rewrite (scaffold_live _ _ _ _ _ D P2), M2. now rewrite E.
Qed.

Lemma second_run_changes_nothing_witness :
  exists r1 fs1 r2,
    scaffold_project examples_runtime env0 fs0
      {| prompt := tree_text; target_path := u "app"; req_mode := Json;
         overwrite := true; dry_run := false |} = (Ok r1, fs1) /\
    scaffold_project examples_runtime env0 fs1
      {| prompt := tree_text; target_path := u "app"; req_mode := Json;
         overwrite := true; dry_run := false |} = (Ok r2, fs1).
Proof.
  eassert (H : scaffold_project examples_runtime env0 fs0
                 {| prompt := tree_text; target_path := u "app";
                    req_mode := Json; overwrite := true; dry_run := false |}
               = (Ok _, _))
    by (vm_compute; reflexivity).
  assert (P : prepare examples_runtime env0 fs0
                {| prompt := tree_text; target_path := u "app";
                   req_mode := Json; overwrite := true; dry_run := false |}
              = Ok (json_job [(u "d", true, None);
                              (u "d/f", false, Some (u "x"));
                              (u "g", false, Some (u "y"))]))
    by (vm_compute; reflexivity).
  assert (ND : NoDup (map (fun e => abs_text env0 app (fst e))
                        [(u "d", true); (u "d/f", false); (u "g", false)]))
    by (vm_compute; repeat constructor; simpl; intuition discriminate).
  destruct (second_run_changes_nothing examples_runtime env0 fs0 _
              {| prompt := tree_text; target_path := u "app";
                 req_mode := Json; overwrite := true; dry_run := false |}
              _ _ eq_refl P (or_intror ND) H) as [r2 H2].
  do 2 eexists. exists r2. split; [exact H|exact H2].
Defined.

(** ** What the created paths hold *)

Lemma outcome_created_hold env ow contents bt all s rel isd s' :
  In (rel, isd) all ->
  outcome env ow contents bt s rel isd s' ->
  created_hold env contents bt all s -> created_hold env contents bt all s'.
Proof.
  intros I O Inv t Ht.
  pose proof (outcome_keeps_kinds _ _ _ _ _ _ _ _ O) as K.
  assert (Old : In t (st_created s) ->
                exists rel0 isd0,
                  In (rel0, isd0) all /\ abs_text env bt rel0 = t /\
                  if isd0
                  then exists ch,
                         lookup (parts (abs_path env bt rel0)) (st_fs s')
                         = Some (Dir ch)
                  else lookup (parts (abs_path env bt rel0)) (st_fs s')
                       = Some (File (content_for contents rel0))).
  { intros Hs. destruct (Inv t Hs) as (rel0 & isd0 & I0 & N0 & L0).
    destruct isd0.
    - exists rel0, true. repeat split; try assumption.
      destruct L0 as [ch L0]. eapply keeps_dir; eassumption.
    - destruct (list_eq_dec (list_eq_dec N.eq_dec)
                  (parts (abs_path env bt rel))
                  (parts (abs_path env bt rel0))) as [Eq|Ne].
      + assert (Same : lookup (parts (abs_path env bt rel0)) (st_fs s)
                       = Some (File (content_for contents rel0)) ->
                       exists rel1 isd1,
                         In (rel1, isd1) all /\ abs_text env bt rel1 = t /\
                         if isd1
                         then exists ch,
                                lookup (parts (abs_path env bt rel1))
                                       (st_fs s) = Some (Dir ch)
                         else lookup (parts (abs_path env bt rel1)) (st_fs s)
                              = Some (File (content_for contents rel1)))
          by (intros L; exists rel0, false; auto).
        destruct O as [fs' M|e M|y W Ly|e G M|fs1 fs2 G M W|fs1 e G M W];
          cbn [record_created record_skipped record_error st_fs];
          try (apply Same; assumption).
        * exfalso. rewrite Eq in M.
          destruct (mkdir_p_blocked _ (st_fs s)
                      (length (parts (abs_path env bt rel0))) _
                      ltac:(rewrite firstn_all; exact L0)) as [e' X].
          congruence.
        * exists rel, false. split; [assumption|]. split.
          -- rewrite <- N0. now apply loc_name.
          -- eapply write_file_lookup; eassumption.
        * exists rel0, false. repeat split; try assumption.
          destruct (mkdir_p_extends _ _ _ M _ _ L0) as (x' & L' & P').
          simpl in P'. now subst x'.
      + exists rel0, false. repeat split; try assumption.
        eapply outcome_file_kept; [exact O|exact L0|]. intros _. exact Ne. }
  destruct O; cbn [record_created record_skipped record_error st_created
                   st_fs] in *; try (apply Old; assumption).
  - apply in_app_or in Ht. destruct Ht as [Ht|[<-|[]]]; [now apply Old|].
    exists rel, true. repeat split; try assumption.
    eapply mkdir_p_makes_dir; eassumption.
  - apply in_app_or in Ht. destruct Ht as [Ht|[<-|[]]]; [now apply Old|].
    exists rel, false. repeat split; try assumption.
    eapply write_file_lookup; eassumption.
Qed.

Lemma run_created_hold env ow contents bt all paths : forall s s',
  incl paths all ->
  materialize env ow contents bt paths s = (None, s') ->
  created_hold env contents bt all s -> created_hold env contents bt all s'.
Proof.
  induction paths as [|[rel isd] r IH]; intros s s' I H Inv;
    cbn [materialize] in H.
  - inversion H; subst. assumption.
  - destruct (materialize_entry env ow contents bt s (rel, isd))
      as [s1|] eqn:E; [|discriminate].
    apply step_outcome in E. destruct E as [_ O].
    apply (IH s1 s'); [intros e He; apply I; now right|assumption|].
    eapply outcome_created_hold; try eassumption. apply I. now left.
Qed.

(** X21.  Every path in [created] of a live result is the confined path
    of an entry of the request and, on the filesystem the call leaves, holds
    what that entry asks for: a directory for a directory entry, and for a
    file entry a regular file with the content chosen for the entry. *)
Theorem created_paths_hold_their_entries :
  forall (rt : Runtime) (env : Env) (fs fs' : node) (rq : Request)
         (r : Result),
    dry_run rq = false ->
    scaffold_project rt env fs rq = (Ok r, fs') ->
    exists job,
      prepare rt env fs rq = Ok job /\
      forall t, In t (created r) ->
        exists rel isd,
          In (rel, isd) (job_paths job) /\
          t = abs_text env (job_target job) rel /\
          if isd
          then exists ch, lookup (path_parts t) fs' = Some (Dir ch)
          else lookup (path_parts t) fs'
               = Some (File (content_for (job_contents job) rel)).
Proof.
  intros rt env fs fs' rq r D H.
  destruct (scaffold_ok_prepare _ _ _ _ _ _ H) as [job P].
  exists job. split; [exact P|].
  destruct (scaffold_live_ok _ _ _ _ _ _ _ D P H) as (s & M & -> & ->).
  destruct (prepare_inv _ _ _ _ _ P) as (b & B & _).
  destruct (prepare_target _ _ _ _ _ _ B P) as [R _].
  assert (Inv : created_hold env (job_contents job) (job_target job)
                  (job_paths job) s).
  { eapply run_created_hold; [apply incl_refl|exact M|]. intros t' []. }
  intros t Ht. cbn [payload created] in Ht.
  destruct (Inv t Ht) as (rel & isd & I & <- & L).
  exists rel, isd. rewrite (abs_text_parts _ _ _ R). auto.
Qed.

Lemma created_paths_hold_their_entries_witness :
  exists r fs' rel,
    scaffold_project (table_runtime []) env0 fs0
      (tree_request example1_prompt false) = (Ok r, fs') /\
    lookup (path_parts (u "/srv/base/app/README.md")) fs'
    = Some (File (content_for [] rel)).
Proof.
  eassert (H : scaffold_project (table_runtime []) env0 fs0
                 (tree_request example1_prompt false) = (Ok _, _))
    by (vm_compute; reflexivity).
  destruct (created_paths_hold_their_entries (table_runtime []) env0 fs0 _
              (tree_request example1_prompt false) _ eq_refl H)
    as (job & P & T).
  assert (J : job = tree_job [(u "README.md", false); (u "src/src", true);
                              (u "src/main.py", false)]).
  { assert (P' : prepare (table_runtime []) env0 fs0
                   (tree_request example1_prompt false)
                 = Ok (tree_job [(u "README.md", false); (u "src/src", true);
                                 (u "src/main.py", false)]))
      by (vm_compute; reflexivity).
    rewrite P' in P. now inversion P. }
  subst job.
  destruct (T (u "/srv/base/app/README.md")) as (rel & isd & I & E & L).
  - left. reflexivity.
  - do 2 eexists. exists rel. split; [exact H|].
    destruct isd; [|exact L].
    exfalso. cbn [tree_job job_paths In] in I.
    destruct I as [I|[I|[I|[]]]]; inversion I; subst; vm_compute in E;
      discriminate.
Defined.

(** ** Lines with a connector *)

Lemma search_connector_after prefix rest :
  ~ In BOX_T prefix -> ~ In BOX_L prefix -> connector_at rest = true ->
  search_connector (prefix ++ rest) = Some (length prefix).
Proof.
  intros NT NL C. induction prefix as [|x r IH].
  - rewrite app_nil_l. destruct rest as [|y rest']; [discriminate C|].
    cbn [search_connector length]. now rewrite C.
  - rewrite <- app_comm_cons. cbn [search_connector length].
    assert (F : connector_at (x :: r ++ rest) = false).
    { unfold connector_at. cbn [startswith].
      destruct (N.eqb_spec x BOX_T) as [->|D1]; [exfalso; apply NT; now left|].
      destruct (N.eqb_spec x BOX_L) as [->|D2]; [exfalso; apply NL; now left|].
      reflexivity. }
    rewrite F, IH; [reflexivity| |]; intros X; [apply NT|apply NL]; now right.
Qed.

Lemma mem_In c s : mem c s = true <-> In c s.
Proof.
  unfold mem. rewrite existsb_exists. split.
  - intros (x & I & E). apply N.eqb_eq in E. now subst.
  - intros I. exists c. split; [assumption|apply N.eqb_refl].
Qed.

Lemma skipn_app_length {A} (l1 l2 : list A) :
  skipn (length l1) (l1 ++ l2) = l2.
Proof. induction l1; [reflexivity|assumption]. Qed.

Lemma firstn_app_length {A} (l1 l2 : list A) :
  firstn (length l1) (l1 ++ l2) = l1.
Proof. induction l1; [reflexivity|]. simpl. now f_equal. Qed.

(** X22.  A line made of a prefix without tee or corner, a connector and
    a name without surrounding whitespace is parsed to its name, with the
    directory flag and without the slash when the name ends with one, at
    the depth of half the length of the prefix. *)
Theorem connector_line_is_parsed :
  forall (prefix name : pystr) (c : N),
    c = BOX_T \/ c = BOX_L ->
    ~ In BOX_T prefix -> ~ In BOX_L prefix -> ~ In LF prefix ->
    strip name = name ->
    parse_line (prefix ++ [c; BOX_H; SPACE] ++ name)
    = (length prefix / 2,
       if endswith name [SLASH] then removelast name else name,
       endswith name [SLASH]).
Proof.
  intros prefix name c Hc NT NL NLF St.
  assert (Cn : forall nm, connector_at ([c; BOX_H; SPACE] ++ nm) = true)
    by (intros [|x nm]; destruct Hc as [->| ->]; reflexivity).
  pose proof (search_connector_after prefix _ NT NL (Cn name)) as Sc.
  assert (Lu : _leading_units (prefix ++ [c; BOX_H; SPACE] ++ name)
               = length prefix / 2).
  { unfold _leading_units. cbv zeta. rewrite Sc, unbox_line, Nat.max_0_l.
    rewrite length_firstn, length_map, Nat.min_l; [reflexivity|].
    rewrite length_app. lia. }
  unfold parse_line. rewrite Lu.
  unfold sub_connector. rewrite Sc, firstn_app_length.
  assert (M : mem LF prefix = false).
  { destruct (mem LF prefix) eqn:E; [|reflexivity].
    apply mem_In in E. contradiction. }
  rewrite M.
  assert (Sk : skipn (length prefix + 3) (prefix ++ [c; BOX_H; SPACE] ++ name)
               = name).
  { rewrite Nat.add_comm, <- skipn_skipn, skipn_app_length. reflexivity. }
  rewrite Sk, St.
  assert (Ne : str_eqb name (prefix ++ [c; BOX_H; SPACE] ++ name) = false).
  { apply str_eqb_neq. intros X. apply (f_equal (@length N)) in X.
    rewrite !length_app in X. simpl in X. lia. }
  rewrite Ne. unfold strip_dir_mark. reflexivity.
Qed.

Lemma connector_line_is_parsed_witness :
  parse_line ([BOX_V; SPACE; SPACE] ++ [BOX_L; BOX_H; SPACE] ++ u "src/")
  = (length [BOX_V; SPACE; SPACE] / 2,
     if endswith (u "src/") [SLASH] then removelast (u "src/") else u "src/",
     endswith (u "src/") [SLASH]).
Proof.
  apply (connector_line_is_parsed [BOX_V; SPACE; SPACE] (u "src/") BOX_L).
  - right. reflexivity.
  - vm_compute. intuition discriminate.
  - vm_compute. intuition discriminate.
  - vm_compute. intuition discriminate.
  - reflexivity.
Defined.

(** ** The mode chosen for a prompt *)

Lemma dropwhile_In f c s : In c (dropwhile f s) -> In c s.
Proof.
  induction s as [|x r IH]; [auto|]. cbn [dropwhile].
  destruct (f x); [intros H; right; auto|auto].
Qed.

Lemma strip_In c s : In c (strip s) -> In c s.
Proof.
  unfold strip, rstrip, lstrip, rstrip_by, lstrip_by. intros H.
  apply in_rev in H. apply dropwhile_In in H. apply in_rev in H.
  now apply dropwhile_In in H.
Qed.

Lemma skipn_In {A} n (c : A) s : In c (skipn n s) -> In c s.
Proof.
  revert s. induction n as [|n IH]; intros s H; [exact H|].
  destruct s as [|x r]; [exact H|]. right. now apply IH.
Qed.

Lemma startswith_In s : forall sub c,
  startswith s sub = true -> In c sub -> In c s.
Proof.
  induction s as [|x r IH]; intros [|y sub] c H I; try destruct I;
    try discriminate.
  - cbn [startswith] in H. apply andb_true_iff in H. destruct H as [E H].
    apply N.eqb_eq in E. subst. now left.
  - cbn [startswith] in H. apply andb_true_iff in H. destruct H as [E H].
    right. eapply IH; eassumption.
Qed.

Lemma contains_In s : forall sub c,
  contains s sub = true -> In c sub -> In c s.
Proof.
  induction s as [|x r IH]; intros sub c H I; cbn [contains] in H.
  - rewrite orb_false_r in H. eapply startswith_In; eassumption.
  - apply orb_true_iff in H. destruct H as [H|H].
    + eapply startswith_In; eassumption.
    + right. eapply IH; eassumption.
Qed.

Lemma key_pattern_colon rt text : key_pattern rt text = true -> In COLON text.
Proof.
  unfold key_pattern. cbv zeta.
  destruct (takewhile (is_word rt) (dropwhile isspace text)); [discriminate|].
  destruct (dropwhile isspace (skipn _ _)) as [|c r] eqn:E; [discriminate|].
  intros H. apply N.eqb_eq in H. subst c.
  match type of E with
  | ?lhs = _ => assert (I : In COLON lhs) by (rewrite E; left; reflexivity)
  end.
  apply dropwhile_In, skipn_In, dropwhile_In in I. exact I.
Qed.

(** X23.  In auto mode a prompt without a colon that does not begin,
    after stripping, with a brace or a bracket is read as a tree, and the
    parse of a tree does not fail. *)
Theorem prompt_without_colon_is_read_as_tree :
  forall (rt : Runtime) (p : pystr),
    ~ In COLON p ->
    startswith (strip p) (u "{") = false ->
    startswith (strip p) (u "[") = false ->
    select rt Auto p = Tree /\
    parse_prompt rt (select rt Auto p) p = Ok (tree_paths p, []).
Proof.
  intros rt p Nc B1 B2.
  assert (S : select rt Auto p = Tree).
  { cbn [select]. unfold detect. cbv zeta. rewrite B1, B2. cbn [orb].
    assert (K : key_pattern rt (strip p) = false).
    { destruct (key_pattern rt (strip p)) eqn:E; [|reflexivity].
      exfalso. apply Nc. eapply strip_In, key_pattern_colon. exact E. }
    assert (C1 : contains (strip p) (u "entries:") = false).
    { destruct (contains (strip p) (u "entries:")) eqn:E; [|reflexivity].
      exfalso. apply Nc. eapply strip_In, contains_In; [exact E|].
      vm_compute. tauto. }
    assert (C2 : contains (strip p) (u "tree:") = false).
    { destruct (contains (strip p) (u "tree:")) eqn:E; [|reflexivity].
      exfalso. apply Nc. eapply strip_In, contains_In; [exact E|].
      vm_compute. tauto. }
    rewrite K, C1, C2. cbn [orb]. now destruct (_ || _). }
  split; [exact S|]. rewrite S. reflexivity.
Qed.

Lemma prompt_without_colon_is_read_as_tree_witness :
  select (table_runtime []) Auto example1_prompt = Tree /\
  parse_prompt (table_runtime []) (select (table_runtime []) Auto
                                     example1_prompt) example1_prompt
  = Ok (tree_paths example1_prompt, []).
Proof.
  apply (prompt_without_colon_is_read_as_tree (table_runtime [])
           example1_prompt).
  - vm_compute. intuition discriminate.
  - reflexivity.
  - reflexivity.
Defined.

(** ** Default content *)

Lemma last_app_cons {A} (l1 : list A) x l2 d :
  last (l1 ++ x :: l2) d = last (x :: l2) d.
Proof.
  induction l1 as [|a l1 IH]; [reflexivity|].
  rewrite <- app_comm_cons.
  destruct (l1 ++ x :: l2) eqn:E; [destruct l1; discriminate|].
  cbn [last]. exact IH.
Qed.

Lemma basename_below dir name :
  ~ In SLASH name -> basename (dir ++ SLASH :: name) = name.
Proof.
  intros N. unfold basename, split. rewrite split_from_app.
  unfold split. rewrite (split_from_plain SLASH name [] N).
  rewrite last_app_cons. reflexivity.
Qed.

(** X24.  The default content of a file entry without content of its own
    goes by the last name of its path: in whatever directory the entry is,
    it is the snippet of the table for that name, or the empty text. *)
Theorem default_content_goes_by_the_last_name :
  forall (contents : Contents) (dir name : pystr),
    ~ In SLASH name ->
    contents_get (dir ++ SLASH :: name) contents = None ->
    content_for contents (dir ++ SLASH :: name)
    = match table_get name DEFAULT_SNIPPETS with
      | Some text => text
      | None => []
      end.
Proof.
  intros contents dir name N G. unfold content_for. rewrite G.
  unfold default_snippet. now rewrite basename_below.
Qed.

Lemma default_content_goes_by_the_last_name_witness :
  content_for [] (u "docs/api" ++ SLASH :: u "README.md")
  = match table_get (u "README.md") DEFAULT_SNIPPETS with
    | Some text => text
    | None => []
    end.
Proof.
  apply (default_content_goes_by_the_last_name [] (u "docs/api")
           (u "README.md")).
  - vm_compute. intuition discriminate.
  - reflexivity.
Defined.

(** ** The file entries of a nested mapping *)

Lemma walk_item_files rt v : forall prefix k rel c m,
  In (rel, false, c) (walk_item rt prefix k v) -> In (k, v) m ->
  exists p v0,
    has_leaf prefix m p v0 /\ rel = rstrip_chars [SLASH] p /\
    c = leaf_content rt v0.
Proof.
  induction v as [v N|m' IH] using value_dict_ind; intros prefix k rel c m I Im.
  - rewrite walk_item_leaf in I by assumption.
    destruct I as [E|[]]. unfold add in E. inversion E; subst.
    exists (child prefix k), v. split; [|split; reflexivity].
    now apply (@leaf_here prefix m k v).
  - rewrite walk_item_dict in I. destruct I as [E|I]; [discriminate|].
    unfold walk in I. apply in_flat_map in I.
    destruct I as ([k' v'] & Ik & I). cbn [fst snd] in I.
    rewrite Forall_forall in IH.
    destruct (IH (k', v') Ik (child prefix k) k' rel c m' I Ik)
      as (p & v0 & Hl & E1 & E2).
    exists p, v0. split; [|split; assumption].
    exact (@leaf_below prefix m k m' p v0 Im Hl).
Qed.

(** X25.  When the parser returns for a nested mapping, whose keys are
    strings, the file entries it returns are the leaves of the mapping, no
    more and no fewer: each has the joined key path of a value that is not
    a mapping, without trailing slashes, and the content recorded for that
    value. *)
Theorem file_entries_are_the_leaves :
  forall (rt : Runtime) (data : value) (m : dict) (es : list entry),
    nested_mapping data = Some m ->
    parse_yaml_or_json rt data = Ok es ->
    forall rel c,
      In (rel, false, c) es <->
      exists p v,
        has_leaf [] m p v /\ rel = rstrip_chars [SLASH] p /\
        c = leaf_content rt v.
Proof.
  intros rt data m es Nm Q. rewrite (parse_nested rt _ _ Nm) in Q.
  inversion Q; subst es; clear Q. intros rel c. split.
  - intros I. unfold walk in I. apply in_flat_map in I.
    destruct I as ([k v] & Ik & I). cbn [fst snd] in I.
    eapply walk_item_files; eassumption.
  - intros (p & v & Hl & -> & ->). exact (walk_has_leaf rt _ _ _ _ Hl).
Qed.

Lemma file_entries_are_the_leaves_witness :
  parse_yaml_or_json (table_runtime []) tree_doc
  = Ok [(u "d", true, None); (u "d/f", false, Some (u "x"));
        (u "g", false, Some (u "y"))] /\
  (In (u "d/f", false, Some (u "x"))
      [(u "d", true, None); (u "d/f", false, Some (u "x"));
       (u "g", false, Some (u "y"))] <->
   exists p v,
     has_leaf [] [(u "d", VDict [(u "f", VStr (u "x"))]);
                  (u "g", VStr (u "y"))] p v /\
     u "d/f" = rstrip_chars [SLASH] p /\
     Some (u "x") = leaf_content (table_runtime []) v).
Proof.
  split; [reflexivity|].
  apply (file_entries_are_the_leaves (table_runtime []) tree_doc).
  - reflexivity.
  - reflexivity.
Defined.

(** ** Lines without a connector *)

Lemma search_connector_none s :
  ~ In BOX_T s -> ~ In BOX_L s -> search_connector s = None.
Proof.
  intros NT NL. induction s as [|x r IH]; [reflexivity|].
  cbn [search_connector].
  assert (F : connector_at (x :: r) = false).
  { unfold connector_at. cbn [startswith].
    destruct (N.eqb_spec x BOX_T) as [->|D1]; [exfalso; apply NT; now left|].
    destruct (N.eqb_spec x BOX_L) as [->|D2]; [exfalso; apply NL; now left|].
    reflexivity. }
  rewrite F, IH; [reflexivity| |]; intros X; [apply NT|apply NL]; now right.
Qed.

Lemma In_repeat_app c n (x : N) s :
  In c (repeat x n ++ s) -> c = x \/ In c s.
Proof.
  intros H. apply in_app_or in H. destruct H as [H|H]; [|now right].
  left. now apply repeat_spec in H.
Qed.

Lemma dropwhile_repeat f (x : N) n s :
  f x = true -> dropwhile f (repeat x n ++ s) = dropwhile f s.
Proof.
  intros F. induction n as [|n IH]; [reflexivity|].
  cbn [repeat]. rewrite <- app_comm_cons. cbn [dropwhile]. now rewrite F.
Qed.

Lemma takewhile_repeat f (x : N) n s :
  f x = true ->
  takewhile f (repeat x n ++ s) = repeat x n ++ takewhile f s.
Proof.
  intros F. induction n as [|n IH]; [reflexivity|].
  cbn [repeat]. rewrite <- !app_comm_cons. cbn [takewhile].
  now rewrite F, IH.
Qed.

(** X26.  A line made of [k] spaces and a name, without connector and
    without whitespace around the name, is parsed to the name, with the
    directory flag and without the slash when the name ends with one, at
    depth [k / 2]. *)
Theorem indented_line_is_parsed :
  forall (k : nat) (c : N) (rest : pystr),
    isspace c = false -> mem c BOX_CHARS = false -> c <> DASH ->
    ~ In BOX_T rest -> ~ In BOX_L rest ->
    strip (c :: rest) = c :: rest ->
    parse_line (repeat SPACE k ++ c :: rest)
    = (k / 2,
       if endswith (c :: rest) [SLASH] then removelast (c :: rest)
       else c :: rest,
       endswith (c :: rest) [SLASH]).
Proof.
  intros k c rest Hs Hb Hd NT NL St. set (name := c :: rest) in *.
  assert (Box : c <> BOX_V /\ c <> BOX_T /\ c <> BOX_L /\ c <> BOX_H).
  { unfold mem in Hb. cbn [existsb BOX_CHARS] in Hb.
    rewrite !orb_false_iff in Hb. destruct Hb as (B1 & B2 & B3 & B4 & _).
    apply N.eqb_neq in B1, B2, B3, B4. auto. }
  destruct Box as (B1 & B2 & B3 & B4).
  assert (Sc : search_connector (repeat SPACE k ++ name) = None).
  { apply search_connector_none; intros X; apply In_repeat_app in X;
      destruct X as [X|[X|X]]; try discriminate; try congruence;
      contradiction. }
  assert (Lu : _leading_units (repeat SPACE k ++ name) = k / 2).
  { rewrite leading_units_expr, Sc.
    rewrite takewhile_repeat by reflexivity. unfold name.
    cbn [takewhile]. rewrite Hs, Hb. cbn [orb].
    now rewrite app_nil_r, repeat_length. }
  destruct (strip_fixed name St) as [Ls Rs].
  assert (Sr : strip (repeat SPACE k ++ name) = name).
  { unfold strip, lstrip, lstrip_by.
    rewrite dropwhile_repeat by reflexivity. exact St. }
  unfold parse_line. rewrite Lu. unfold sub_connector. rewrite Sc, Sr.
  destruct k as [|k].
  - cbn [repeat]. rewrite app_nil_l, str_eqb_refl.
    assert (L1 : lstrip_chars ([SPACE; TAB] ++ BOX_CHARS) name = name).
    { unfold lstrip_chars, lstrip_by, name. apply dropwhile_head.
      unfold mem.
      change ([SPACE; TAB] ++ BOX_CHARS)
        with [SPACE; TAB; BOX_V; BOX_T; BOX_L; BOX_H].
      cbn [existsb].
      assert (c <> SPACE) by (intros ->; discriminate).
      assert (c <> TAB) by (intros ->; discriminate).
      repeat match goal with
             | H : c <> ?x |- context [(c =? ?x)%N] =>
                 rewrite (proj2 (N.eqb_neq c x) H)
             end.
      reflexivity. }
    assert (L2 : lstrip_chars [DASH; SPACE] name = name).
    { unfold lstrip_chars, lstrip_by, name. apply dropwhile_head.
      unfold mem. cbn [existsb].
      assert (c <> SPACE) by (intros ->; discriminate).
      repeat match goal with
             | H : c <> ?x |- context [(c =? ?x)%N] =>
                 rewrite (proj2 (N.eqb_neq c x) H)
             end.
      reflexivity. }
    rewrite L1, L2. reflexivity.
  - assert (Ne : str_eqb name (repeat SPACE (S k) ++ name) = false).
    { apply str_eqb_neq. intros X. apply (f_equal (@length N)) in X.
      rewrite length_app, repeat_length in X. lia. }
    rewrite Ne. reflexivity.
Qed.

Lemma indented_line_is_parsed_witness :
  parse_line (repeat SPACE 2 ++ u "main.py")
  = (2 / 2,
     if endswith (u "main.py") [SLASH] then removelast (u "main.py")
     else u "main.py",
     endswith (u "main.py") [SLASH]).
Proof.
  apply (indented_line_is_parsed 2 109%N (u "ain.py")).
  - reflexivity.
  - reflexivity.
  - discriminate.
  - vm_compute. intuition discriminate.
  - vm_compute. intuition discriminate.
  - reflexivity.
Defined.

(** X27.  A line that starts at the first column with a dash, goes on
    with dashes and spaces and then has a name is parsed to the name at
    depth 0: the leading dashes and spaces are dropped. *)
Theorem bullet_line_is_parsed :
  forall (bullet : pystr) (c : N) (rest : pystr),
    forallb (fun x => mem x [DASH; SPACE]) bullet = true ->
    c <> DASH -> c <> SPACE ->
    ~ In BOX_T (c :: rest) -> ~ In BOX_L (c :: rest) ->
    strip (DASH :: bullet ++ c :: rest) = DASH :: bullet ++ c :: rest ->
    parse_line (DASH :: bullet ++ c :: rest)
    = (0,
       if endswith (c :: rest) [SLASH] then removelast (c :: rest)
       else c :: rest,
       endswith (c :: rest) [SLASH]).
Proof.
  intros bullet c rest Hb Hd Hs NT NL St. set (name := c :: rest) in *.
  assert (Bu : forall x, In x bullet -> x = DASH \/ x = SPACE).
  { intros x I. rewrite forallb_forall in Hb. specialize (Hb x I).
    unfold mem in Hb. cbn [existsb] in Hb. rewrite orb_false_r in Hb.
    apply orb_true_iff in Hb. destruct Hb as [E|E]; apply N.eqb_eq in E; auto. }
  assert (Sc : search_connector (DASH :: bullet ++ name) = None).
  { apply search_connector_none; intros [X|X]; try discriminate;
      apply in_app_or in X; destruct X as [X|X]; try contradiction;
      destruct (Bu _ X); discriminate. }
  assert (Lu : _leading_units (DASH :: bullet ++ name) = 0).
  { rewrite leading_units_expr, Sc. reflexivity. }
  unfold parse_line. rewrite Lu. unfold sub_connector. rewrite Sc, St.
  rewrite str_eqb_refl.
  assert (L1 : lstrip_chars ([SPACE; TAB] ++ BOX_CHARS)
                 (DASH :: bullet ++ name) = DASH :: bullet ++ name)
    by reflexivity.
  rewrite L1.
  assert (L2 : lstrip_chars [DASH; SPACE] (DASH :: bullet ++ name) = name).
  { unfold lstrip_chars, lstrip_by. cbn [dropwhile].
    change (mem DASH [DASH; SPACE]) with true. cbn iota.
    clear - Hb Hd Hs. induction bullet as [|x r IH].
    - rewrite app_nil_l. unfold name. apply dropwhile_head.
      unfold mem. cbn [existsb].
      rewrite (proj2 (N.eqb_neq c DASH) Hd), (proj2 (N.eqb_neq c SPACE) Hs).
      reflexivity.
    - cbn [forallb] in Hb. apply andb_true_iff in Hb. destruct Hb as [Hx Hr].
      rewrite <- app_comm_cons. cbn [dropwhile]. rewrite Hx. now apply IH. }
  rewrite L2. reflexivity.
Qed.

Lemma bullet_line_is_parsed_witness :
  parse_line (DASH :: u " " ++ u "README.md")
  = (0,
     if endswith (u "README.md") [SLASH] then removelast (u "README.md")
     else u "README.md",
     endswith (u "README.md") [SLASH]).
Proof.
  apply (bullet_line_is_parsed (u " ") 82%N (u "EADME.md")).
  - reflexivity.
  - discriminate.
  - discriminate.
  - vm_compute. intuition discriminate.
  - vm_compute. intuition discriminate.
  - reflexivity.
Defined.
